(** * OpenLoopCLPass: the open-loop CL scheduler of pymtl3

    A shallow embedding of [pymtl3/passes/autotick/OpenLoopCLPass.py]
    (and, where the two differ, of the older [pymtl3/passes/OpenLoopCLPass.py])
    together with the properties of the schedule it builds.

    Conventions of the embedding.
    - A Python object is a reference ([obj]); its attributes are read
      through the record [ObjAttrs].
    - A Python [set] is a duplicate-free list; [add] appends, iteration
      follows the list.  A [set] supplied by a collaborator is supplied as
      the list of its elements in iteration order.
    - A [dict] keyed by objects or by SCC numbers is a [gmap]; a failed
      subscript raises [KeyError].
    - Pass-time code runs in the [result] monad (a value, a raised
      exception, or an exhausted loop budget for the [while] loops).
    - Run-time code (blocks, super-blocks, method wrappers, tick) runs in a
      state monad over the simulator state, in which a raised exception
      keeps the state reached so far. *)

From stdpp Require Import base option list gmap strings pretty.
From Stdlib Require Import ZArith.

(** ** Objects, exceptions and the pass-time monad *)

Inductive obj := Obj (id : nat).

Global Instance obj_eq_dec : EqDecision obj.
Proof. solve_decision. Defined.

Global Instance obj_countable : Countable obj :=
  inj_countable' (λ o, match o with Obj i => i end) Obj
                 (λ o, match o with Obj i => eq_refl end).

(** The attributes of objects that the pass reads. *)
Record ObjAttrs := {
  is_CalleePort : obj → bool;              (* isinstance( x, CalleePort ) *)
  port_method : obj → obj;                 (* x.method of a callee port, before wrapping *)
  in_non_blocking_interface : obj → bool;  (* x.in_non_blocking_interface() *)
  dunder_name : obj → string;              (* x.__name__ *)
}.

(** A non-blocking callee interface: [x.method] and [x.rdy]. *)
Record CalleeIfcCL := { ifc_method : obj; ifc_rdy : obj }.

Inductive exn :=
| AssertionError
| KeyError
| IndexError
| ValueError
| SyntaxError
| PassOrderError (var : string)
| UpblkCyclicError (msg : string)
| UserError (code : nat).   (* whatever a user block or method body raises *)

Global Instance exn_eq_dec : EqDecision exn.
Proof. solve_decision. Defined.

Inductive result (A : Type) :=
| Ok (a : A)
| Raise (e : exn)
| OutOfFuel.
Arguments Ok {A} a.
Arguments Raise {A} e.
Arguments OutOfFuel {A}.

Global Instance result_ret : MRet result := λ A a, Ok a.
Global Instance result_bind : MBind result := λ A B f r,
  match r with Ok a => f a | Raise e => Raise e | OutOfFuel => OutOfFuel end.

Definition py_assert (b : bool) : result unit :=
  if b then Ok tt else Raise AssertionError.

(** [d[k]] *)
Definition getitem `{Countable K} {A} (d : gmap K A) (k : K) : result A :=
  match d !! k with Some a => Ok a | None => Raise KeyError end.

(** A [for] loop whose body may raise. *)
Fixpoint for_each {A S} (body : S → A → result S) (l : list A) (s : S) : result S :=
  match l with
  | [] => Ok s
  | x :: l' => s' ← body s x; for_each body l' s'
  end.

(** [s.add(x)] on a set *)
Definition set_add `{EqDecision A} (x : A) (s : list A) : list A :=
  if decide (x ∈ s) then s else s ++ [x].

(** [s.update(xs)] *)
Definition set_update `{EqDecision A} (xs : list A) (s : list A) : list A :=
  foldl (λ acc x, set_add x acc) s xs.

(** [{ i: x for i in range(n) }] *)
Definition dict_range {A} (n : nat) (x : A) : gmap nat A :=
  list_to_map ((λ i, (i, x)) <$> seq 0 n).

(** ** Inputs of the pass *)

Inductive type_kind := IsBits | IsBitStruct | IsOther.

Global Instance type_kind_eq_dec : EqDecision type_kind.
Proof. solve_decision. Defined.

(** A signal mentioned in a constraint: [str(var)] and the classification of
    [var._dsl.Type] by [issubclass( _, Bits )] and [is_bitstruct_class]. *)
Record SignalRef := { sig_repr : string; sig_kind : type_kind }.

Global Instance SignalRef_eq_dec : EqDecision SignalRef.
Proof. solve_decision. Defined.

Record DAG := {
  all_constraints : option (list (obj * obj));   (* None: the attribute is absent *)
  final_upblks : list obj;
  top_level_callee_constraints : list (obj * obj);
  constraint_objs : gmap (obj * obj) (list SignalRef);
}.

Record Tracing := {
  clear_cl_trace : obj;
  vcd_func : option obj;
  collect_text_sigs : option obj;
}.

Record Top := {
  _dag : DAG;
  attrs : ObjAttrs;
  get_all_update_ff : list obj;
  top_level_callee_ports : list obj;      (* CalleePort objects hosted by top *)
  top_level_nb_ifcs : list CalleeIfcCL;   (* CalleeIfcCL objects hosted by top *)
  randbelow : nat → nat;                  (* the draws of random.shuffle *)
  _tracing : Tracing;
  schedule_ff : list obj;                 (* SimpleSchedulePass.schedule_ff *)
  schedule_posedge_flip : list obj;       (* SimpleSchedulePass.schedule_posedge_flip *)
}.

(** ** GraphBuilder (lines 46-121) *)

Record Graph := {
  V : list obj;
  E : list (obj * obj);
  G : gmap obj (list obj);
  G_T : gmap obj (list obj);
  method_callee_mapping : gmap obj obj;
  method_guard_mapping : gmap obj obj;
  guard_method_mapping : gmap obj obj;
}.

Definition get_raw_method (a : ObjAttrs) (x : obj) : result obj :=
  _ ← py_assert (is_CalleePort a x);
  Ok (port_method a x).

(** Body of [for x in top_level_callee_ports], on [(V, method_callee_mapping)]. *)
Definition add_callee_port (a : ObjAttrs)
    (s : list obj * gmap obj obj) (x : obj) : result (list obj * gmap obj obj) :=
  let '(V, mcm) := s in
  if negb (in_non_blocking_interface a x) then
    let V := set_add x V in
    m ← get_raw_method a x;
    _ ← py_assert (bool_decide (mcm !! m = None));
    Ok (V, <[m := x]> mcm)
  else Ok (V, mcm).

Record NbState := {
  nb_V : list obj;
  nb_E : list (obj * obj);
  nb_mcm : gmap obj obj;
  nb_mgm : gmap obj obj;
  nb_gmm : gmap obj obj;
}.

(** Body of [for x in top_level_nb_ifcs]. *)
Definition add_nb_ifc (a : ObjAttrs) (s : NbState) (x : CalleeIfcCL) : result NbState :=
  let V := set_add (ifc_rdy x) (set_add (ifc_method x) (nb_V s)) in
  let E := set_add (ifc_rdy x, ifc_method x) (nb_E s) in
  let mgm := <[ifc_method x := ifc_rdy x]> (nb_mgm s) in
  let gmm := <[ifc_rdy x := ifc_method x]> (nb_gmm s) in
  m ← get_raw_method a (ifc_method x);
  r ← get_raw_method a (ifc_rdy x);
  _ ← py_assert (bool_decide (nb_mcm s !! m = None));
  Ok {| nb_V := V; nb_E := E;
        nb_mcm := <[r := ifc_rdy x]> (<[m := ifc_method x]> (nb_mcm s));
        nb_mgm := mgm; nb_gmm := gmm |}.

(** [d[k].append(x)] *)
Definition dict_append (d : gmap obj (list obj)) (k x : obj) : result (gmap obj (list obj)) :=
  l ← getitem d k;
  Ok (<[k := l ++ [x]]> d).

Record EdgeState := {
  es_E : list (obj * obj);
  es_G : gmap obj (list obj);
  es_G_T : gmap obj (list obj);
}.

(** [E.add( (u, v) ); G[u].append( v ); G_T[v].append( u )] *)
Definition add_edge (s : EdgeState) (u v : obj) : result EdgeState :=
  g ← dict_append (es_G s) u v;
  gt ← dict_append (es_G_T s) v u;
  Ok {| es_E := set_add (u, v) (es_E s); es_G := g; es_G_T := gt |}.

(** Body of [for (u, v) in top._dag.all_constraints]. *)
Definition add_constraint (V : list obj) (s : EdgeState) (c : obj * obj) : result EdgeState :=
  let '(u, v) := c in
  if bool_decide (u ∈ V) && bool_decide (v ∈ V) then add_edge s u v else Ok s.

(** Body of [for (xx, yy) in top._dag.top_level_callee_constraints]. *)
Definition add_callee_constraint (V : list obj) (mcm mgm : gmap obj obj)
    (s : EdgeState) (c : obj * obj) : result EdgeState :=
  let '(xx, yy) := c in
  let xx := default xx (mcm !! xx) in
  let yy := default yy (mcm !! yy) in
  let yy := default yy (mgm !! yy) in
  if bool_decide (xx ∈ V) && bool_decide (yy ∈ V) then add_edge s xx yy else Ok s.

Definition build_graph (top : Top) (constraints : list (obj * obj)) : result Graph :=
  let a := attrs top in
  let V0 := list_difference (final_upblks (_dag top)) (get_all_update_ff top) in
  '(V1, mcm1) ← for_each (add_callee_port a) (top_level_callee_ports top) (V0, ∅);
  nb ← for_each (add_nb_ifc a) (top_level_nb_ifcs top)
         {| nb_V := V1; nb_E := []; nb_mcm := mcm1; nb_mgm := ∅; nb_gmm := ∅ |};
  let V := nb_V nb in
  let empty_adj : gmap obj (list obj) := list_to_map ((λ v, (v, [])) <$> V) in
  es ← for_each (add_constraint V) constraints
         {| es_E := nb_E nb; es_G := empty_adj; es_G_T := empty_adj |};
  es ← for_each (add_callee_constraint V (nb_mcm nb) (nb_mgm nb))
         (top_level_callee_constraints (_dag top)) es;
  Ok {| V := V; E := es_E es; G := es_G es; G_T := es_G_T es;
        method_callee_mapping := nb_mcm nb;
        method_guard_mapping := nb_mgm nb;
        guard_method_mapping := nb_gmm nb |}.

(** ** SCCCondenser: Kosaraju's algorithm (lines 133-185) *)

(** [x[i], x[j] = x[j], x[i]] *)
Definition swap (x : list obj) (i j : nat) : list obj :=
  match x !! i, x !! j with
  | Some xi, Some xj => <[j := xi]> (<[i := xj]> x)
  | _, _ => x
  end.

(** [random.shuffle]: for [i] from [len(x)-1] down to [1], swap [x[i]] with
    [x[j]], [j = randbelow(i+1)]; [rnd i] is the draw made at step [i]. *)
Fixpoint shuffle_from (rnd : nat → nat) (i : nat) (x : list obj) : list obj :=
  match i with
  | 0 => x
  | S i' => shuffle_from rnd i' (swap x i (rnd i mod S i))
  end.

Definition shuffle (rnd : nat → nat) (x : list obj) : list obj :=
  shuffle_from rnd (length x - 1) x.

(** The sum of the weights [w k x] of the entries of a dict. *)
Definition weight_sum `{Countable K} {A} (w : K → A → nat) (m : gmap K A) : nat :=
  map_fold (λ k x acc, acc + w k x) 0 m.

(** Loop budget of the two graph traversals: the number of vertices plus
    the number of adjacency entries, plus two. *)
Definition traversal_budget (g : gmap obj (list obj)) : nat :=
  2 + weight_sum (λ _ adj, 1 + length adj) g.

(** First pass, the [while stack] loop.  The head of [stack] is the top of
    the Python list (its last element), so pushing [reversed(G[u])] after
    [(u, True)] leaves [G[u]] in order on top of [(u, True)]. *)
Fixpoint dfs_while (fuel : nat) (G : gmap obj (list obj))
    (stack : list (obj * bool)) (visited : gset obj) (PO : list obj)
    : result (gset obj * list obj) :=
  match stack with
  | [] => Ok (visited, PO)
  | (u, second_visit) :: stack' =>
    match fuel with
    | 0 => OutOfFuel
    | S fuel' =>
      if second_visit then dfs_while fuel' G stack' visited (PO ++ [u])
      else if bool_decide (u ∉ visited) then
        adj ← getitem G u;
        dfs_while fuel' G (((λ v, (v, false)) <$> adj) ++ (u, true) :: stack')
                  ({[u]} ∪ visited) PO
      else dfs_while fuel' G stack' visited PO
    end
  end.

Definition post_order (G : gmap obj (list obj)) (vertices : list obj) : result (list obj) :=
  '(_, PO) ← for_each (λ '(visited, PO) u,
                 dfs_while (traversal_budget G) G [(u, false)] visited PO)
              vertices (∅, []);
  Ok PO.

(** Second pass, the [while Q] loop of one SCC.  [scc] is the set that was
    appended to [SCCs] just before the loop, so its number [len(SCCs) - 1]
    is [k], the number of SCCs completed before it. *)
Fixpoint bfs_while (fuel : nat) (G_T : gmap obj (list obj)) (k : nat)
    (Q : list obj) (scc : list obj) (v_SCC : gmap obj nat) (visited : gset obj)
    : result (list obj * gmap obj nat * gset obj) :=
  match Q with
  | [] => Ok (scc, v_SCC, visited)
  | u :: Q' =>
    match fuel with
    | 0 => OutOfFuel
    | S fuel' =>
      let v_SCC := <[u := k]> v_SCC in
      adj ← getitem G_T u;
      let '(Q', scc, visited) :=
        foldl (λ '(Q, scc, visited) v,
                 if bool_decide (v ∉ visited)
                 then (Q ++ [v], set_add v scc, {[v]} ∪ visited)
                 else (Q, scc, visited))
              (Q', scc, visited) adj in
      bfs_while fuel' G_T k Q' scc v_SCC visited
    end
  end.

Record SccState := {
  st_SCCs : list (list obj);
  st_v_SCC : gmap obj nat;
  st_visited : gset obj;
}.

(** Body of [for u in RPO]. *)
Definition scc_of_seed (G_T : gmap obj (list obj)) (s : SccState) (u : obj) : result SccState :=
  if bool_decide (u ∉ st_visited s) then
    '(scc, v_SCC, visited) ←
      bfs_while (traversal_budget G_T) G_T (length (st_SCCs s))
                [u] (set_add u []) (st_v_SCC s) ({[u]} ∪ st_visited s);
    Ok {| st_SCCs := st_SCCs s ++ [scc]; st_v_SCC := v_SCC; st_visited := visited |}
  else Ok s.

Definition kosaraju (g : Graph) (vertices : list obj) : result (list (list obj) * gmap obj nat) :=
  PO ← post_order (G g) vertices;
  let RPO := reverse PO in
  s ← for_each (scc_of_seed (G_T g)) RPO
        {| st_SCCs := []; st_v_SCC := ∅; st_visited := ∅ |};
  Ok (st_SCCs s, st_v_SCC s).

(** ** Condensation (lines 176-185) *)

(** Body of [for (u, v) in E], on [(G_new, InD)]. *)
Definition condense_edge (v_SCC : gmap obj nat)
    (s : gmap nat (list nat) * gmap nat Z) (e : obj * obj)
    : result (gmap nat (list nat) * gmap nat Z) :=
  let '(G_new, InD) := s in
  let '(u, v) := e in
  scc_u ← getitem v_SCC u;
  scc_v ← getitem v_SCC v;
  if bool_decide (scc_u ≠ scc_v) then
    succs ← getitem G_new scc_u;
    if bool_decide (scc_v ∉ succs) then
      d ← getitem InD scc_v;
      Ok (<[scc_u := set_add scc_v succs]> G_new, <[scc_v := (d + 1)%Z]> InD)
    else Ok (G_new, InD)
  else Ok (G_new, InD).

Definition condense (n : nat) (E : list (obj * obj)) (v_SCC : gmap obj nat)
    : result (gmap nat (list nat) * gmap nat Z) :=
  for_each (condense_edge v_SCC) E (dict_range n [], dict_range n 0%Z).

(** ** TopoSorter (lines 189-219) *)

(** A key handed to [in] on a dict whose keys are objects: an SCC number is
    a Python [int] and is never equal to an object. *)
Inductive pykey := KInt (n : nat) | KObj (o : obj).

Definition py_in {A} (k : pykey) (d : gmap obj A) : bool :=
  match k with
  | KInt _ => false
  | KObj o => bool_decide (is_Some (d !! o))
  end.

(** The scan [for i in range(len(Q))] with its [Q.pop(i)]: the popped
    element and the rest of [Q], or [None] when the scan finds nothing
    ([found] stays [False]). *)
Fixpoint pop_preferred (mgm gmm : gmap obj obj) (Q : list nat) : option (nat * list nat) :=
  match Q with
  | [] => None
  | m :: Q' =>
    if negb (py_in (KInt m) mgm) || negb (py_in (KInt m) gmm) then Some (m, Q')
    else '(u, rest) ← pop_preferred mgm gmm Q'; Some (u, m :: rest)
  end.

Record TopoState := {
  ts_Q : list nat;
  ts_InD : gmap nat Z;
  ts_pred : gmap nat (option nat);
  ts_schedule : list nat;
  ts_u : option nat;     (* the variable [u], when it holds an SCC number *)
}.

(** Body of [for v in G_new[u]]. *)
Definition relax (u : nat) (s : TopoState) (v : nat) : result TopoState :=
  d ← getitem (ts_InD s) v;
  let d := (d - 1)%Z in
  let InD := <[v := d]> (ts_InD s) in
  if bool_decide (d = 0%Z) then
    Ok {| ts_Q := ts_Q s ++ [v]; ts_InD := InD; ts_pred := <[v := Some u]> (ts_pred s);
          ts_schedule := ts_schedule s; ts_u := ts_u s |}
  else
    Ok {| ts_Q := ts_Q s; ts_InD := InD; ts_pred := ts_pred s;
          ts_schedule := ts_schedule s; ts_u := ts_u s |}.

(** One iteration of [while Q]. *)
Definition topo_step (mgm gmm : gmap obj obj) (G_new : gmap nat (list nat))
    (s : TopoState) : result TopoState :=
  let s :=
    match pop_preferred mgm gmm (ts_Q s) with
    | Some (u, Q') =>
      {| ts_Q := Q'; ts_InD := ts_InD s; ts_pred := ts_pred s;
         ts_schedule := ts_schedule s ++ [u]; ts_u := Some u |}
    | None => s
    end in
  match ts_u s with
  | None => Raise KeyError      (* [G_new[u]] with [u] not an SCC number *)
  | Some u =>
    succs ← getitem G_new u;
    for_each (relax u) succs s
  end.

Fixpoint topo_while (fuel : nat) (mgm gmm : gmap obj obj) (G_new : gmap nat (list nat))
    (s : TopoState) : result TopoState :=
  match ts_Q s with
  | [] => Ok s
  | _ :: _ =>
    match fuel with
    | 0 => OutOfFuel
    | S fuel' => s' ← topo_step mgm gmm G_new s; topo_while fuel' mgm gmm G_new s'
    end
  end.

(** Loop budget of the sort: the initial frontier plus every unit of
    in-degree, plus one. *)
Definition topo_budget (Q : list nat) (InD : gmap nat Z) : nat :=
  1 + length Q + weight_sum (λ _ d, Z.to_nat d) InD.

Definition topo_sort (n : nat) (mgm gmm : gmap obj obj)
    (G_new : gmap nat (list nat)) (InD : gmap nat Z)
    : result (gmap nat (option nat) * list nat) :=
  Q ← for_each (λ Q i, d ← getitem InD i;
                        Ok (if bool_decide (d = 0%Z) then Q ++ [i] else Q))
        (seq 0 n) [];
  let scc_pred := foldl (λ p x, <[x := None]> p) ∅ Q in
  s ← topo_while (topo_budget Q InD) mgm gmm G_new
        {| ts_Q := Q; ts_InD := InD; ts_pred := scc_pred; ts_schedule := []; ts_u := None |};
  _ ← py_assert (bool_decide (length (ts_schedule s) = n));
  Ok (ts_pred s, ts_schedule s).

(** ** IntraSCCOrderer and FixedPointWrapper, pass-time part (lines 225-338) *)

(** What the final schedule holds: a vertex or a collaborator's function,
    a synthesized super-block, or the closure [print_line_trace].  A
    super-block is a fresh function object; [scc_id] tells them apart. *)
Inductive block :=
| Blk (o : obj)
| WrappedSCC (scc_id : nat) (scc : list obj) (variables : list SignalRef) (names : string)
| PrintLineTrace.

Global Instance block_eq_dec : EqDecision block.
Proof. solve_decision. Defined.

(** [max(InD, key=InD.get)]: the first key, in iteration order, whose value
    is not exceeded by a later one. *)
Definition max_by_key (InD : gmap obj Z) (keys : list obj) : option obj :=
  match keys with
  | [] => None
  | k :: keys' =>
    Some (foldl (λ best x,
                   if bool_decide (default 0 (InD !! best) < default 0 (InD !! x))%Z
                   then x else best) k keys')
  end.

(** [sorted( xs, key = lambda x: x.__name__ )]: stable. *)
Fixpoint insert_by_name (a : ObjAttrs) (x : obj) (l : list obj) : list obj :=
  match l with
  | [] => [x]
  | y :: l' =>
    if String.ltb (dunder_name a y) (dunder_name a x)
    then y :: insert_by_name a x l'
    else x :: y :: l'
  end.

Definition sorted_by_name (a : ObjAttrs) (xs : list obj) : list obj :=
  foldr (insert_by_name a) [] xs.

(** The seeds of the intra-SCC search (lines 249-266). *)
Definition entry_points (a : ObjAttrs) (g : Graph) (SCCs : list (list obj))
    (scc : list obj) (pred : option nat) : result (list obj) :=
  match pred with
  | None =>
    let InD0 : gmap obj Z := list_to_map ((λ v, (v, 0%Z)) <$> scc) in
    InD ← for_each (λ InD '(u, v),
                      if bool_decide (u ∈ scc) && bool_decide (v ∈ scc)
                      then d ← getitem InD v; Ok (<[v := (d + 1)%Z]> InD)
                      else Ok InD) (E g) InD0;
    match max_by_key InD scc with
    | Some x => Ok [x]
    | None => Raise ValueError   (* max() of an empty dict; an SCC is never empty *)
    end
  | Some p =>
    pred_scc ← match SCCs !! p with Some s => Ok s | None => Raise IndexError end;
    for_each (λ Q x,
                adj ← getitem (G_T g) x;
                Ok (foldl (λ Q v, if bool_decide (v ∈ (pred_scc : list obj)) then Q ++ [x] else Q)
                          Q adj))
             (sorted_by_name a scc) []
  end.

(** The [while Q] loop of the intra-SCC search (lines 269-276). *)
Fixpoint intra_while (fuel : nat) (G : gmap obj (list obj)) (scc : list obj)
    (Q : list obj) (visited : gset obj) (tmp_schedule : list obj) : result (list obj) :=
  match Q with
  | [] => Ok tmp_schedule
  | u :: Q' =>
    match fuel with
    | 0 => OutOfFuel
    | S fuel' =>
      adj ← getitem G u;
      let '(Q', visited) :=
        foldl (λ '(Q, visited) v,
                 if bool_decide (v ∈ scc) && bool_decide (v ∉ visited)
                 then (Q ++ [v], {[v]} ∪ visited) else (Q, visited))
              (Q', visited) adj in
      intra_while fuel' G scc Q' visited (tmp_schedule ++ [u])
    end
  end.

(** The trigger variables of an SCC (lines 279-283). *)
Definition trigger_variables (g : Graph) (constraint_objs : gmap (obj * obj) (list SignalRef))
    (scc : list obj) : result (list SignalRef) :=
  for_each (λ variables '(u, v),
              if bool_decide (u ∈ scc) && bool_decide (v ∈ scc)
              then vars ← getitem constraint_objs (u, v); Ok (set_update vars variables)
              else Ok variables) (E g) [].

(** The texts spliced into the template (lines 317-335). *)
Definition copy_src (j : nat) (var : SignalRef) : string :=
  match sig_kind var with
  | IsBits => "t" +:+ pretty j +:+ " = " +:+ sig_repr var +:+ ".value"
  | IsBitStruct => "t" +:+ pretty j +:+ " = " +:+ sig_repr var +:+ ".clone()"
  | IsOther => "t" +:+ pretty j +:+ " = deepcopy(" +:+ sig_repr var +:+ ")"
  end.

Definition check_src (j : nat) (var : SignalRef) : string :=
  sig_repr var +:+ " == t" +:+ pretty j.

Definition copy_srcs (variables : list SignalRef) : list string := imap copy_src variables.
Definition check_srcs (variables : list SignalRef) : list string := imap check_src variables.

Definition scc_names (a : ObjAttrs) (scc : list obj) : string :=
  String.concat ", " (dunder_name a <$> scc).

Definition nl : string := String (Ascii.ascii_of_nat 10) EmptyString.
Definition dquote : string := String (Ascii.ascii_of_nat 34) EmptyString.

(** The text raised by the super-block: the string literal of the template
    after [format] ([{{] and [}}] stand for the braces). *)
Definition loop_message (names : string) : string :=
  "Combinational loop detected at runtime in {" +:+ names +:+ "}!".

(** [template.format( scc_id, copies, checks, names )] (lines 300-336),
    line by line; the template opens with a line break. *)
Definition scc_block_lines (scc_id : nat) (copies checks names : string) : list string :=
  [ "";
    "          from copy import deepcopy";
    "          def wrapped_SCC_" +:+ pretty scc_id +:+ "():";
    "            num_iters = 0";
    "            while True:";
    "              num_iters += 1";
    "              " +:+ copies;
    "              for blk in scc: # TODO Mamba";
    "                blk()";
    "              if " +:+ checks +:+ ":";
    "                break";
    "              if num_iters > 100:";
    "                raise UpblkCyclicError(" +:+ dquote +:+ loop_message names +:+ dquote +:+ ")";
    "            # print " +:+ dquote +:+ "SCC block" +:+ pretty scc_id +:+ " is executed" +:+ dquote
      +:+ ", num_iters, " +:+ dquote +:+ "times" +:+ dquote;
    "          generated_block = wrapped_SCC_" +:+ pretty scc_id;
    "        " ].

Definition scc_block_src (scc_id : nat) (copies checks names : string) : string :=
  String.concat nl (scc_block_lines scc_id copies checks names).

(** What is handed to the Python compiler for one SCC. *)
Record SccSource := {
  src_id : nat;
  src_variables : list SignalRef;
  src_names : string;
}.

Definition src_copies (src : SccSource) : string :=
  String.concat "; " (copy_srcs (src_variables src)).
Definition src_checks (src : SccSource) : string :=
  String.concat " and " (check_srcs (src_variables src)).
Definition src_lines (src : SccSource) : list string :=
  scc_block_lines (src_id src) (src_copies src) (src_checks src) (src_names src).
Definition src_text (src : SccSource) : string :=
  scc_block_src (src_id src) (src_copies src) (src_checks src) (src_names src).

(** [gen_wrapped_SCCblk( s, scc, src )]: compile the text and return the
    function it defines.  The template is fixed Python; with the splices
    made of signal expressions the only header that may fail to parse is
    [if <checks>:], which needs an expression between [if] and the colon. *)
Definition gen_wrapped_SCCblk (scc : list obj) (src : SccSource) : result block :=
  if bool_decide (src_checks src = "") then Raise SyntaxError
  else Ok (WrappedSCC (src_id src) scc (src_variables src) (src_names src)).

Record SweepState := {
  sw_update_schedule : list block;
  sw_scc_id : nat;
}.

(** Body of [for i in scc_schedule] (lines 230-338). *)
Definition schedule_scc (top : Top) (g : Graph) (SCCs : list (list obj))
    (scc_pred : gmap nat (option nat)) (s : SweepState) (i : nat) : result SweepState :=
  scc ← match SCCs !! i with Some scc => Ok scc | None => Raise IndexError end;
  match scc with
  | [u] => Ok {| sw_update_schedule := sw_update_schedule s ++ [Blk u];
                 sw_scc_id := sw_scc_id s |}
  | _ =>
    pred ← getitem scc_pred i;
    Q ← entry_points (attrs top) g SCCs scc pred;
    tmp_schedule ← intra_while (1 + length Q + length scc) (G g) scc Q (list_to_set Q) [];
    let scc_id := sw_scc_id s + 1 in
    variables ← trigger_variables g (constraint_objs (_dag top)) scc;
    blk ← gen_wrapped_SCCblk tmp_schedule
            {| src_id := scc_id; src_variables := variables;
               src_names := scc_names (attrs top) scc |};
    Ok {| sw_update_schedule := sw_update_schedule s ++ [blk]; sw_scc_id := scc_id |}
  end.

(** ** ScheduleLinker and the installation of the wrappers (lines 355-454) *)

Definition is_callee (a : ObjAttrs) (x : block) : bool :=
  match x with
  | Blk o => is_CalleePort a o
  | _ => false
  end.

(** [x.method] of a callee port: the raw method, or a wrapper around what
    [x.method] was when [wrap_method] was called. *)
Inductive meth :=
| Raw (m : obj)
| Wrapped (method : meth) (my_idx_new my_idx_orig : nat).

(** [mapping = { x : i for i, x in enumerate( schedule_no_method ) }]
    followed by [mapping[x]]: a later entry replaces an earlier one. *)
Definition mapping (schedule_no_method : list block) (x : block) : option nat :=
  foldl (λ found '(i, y), if decide (y = x) then Some i else found)
        None (imap pair schedule_no_method).

(** [while next_func < len(schedule): ...] of lines 437-441, run over the
    part of the schedule that starts at [next_func]. *)
Fixpoint skip_callees (a : ObjAttrs) (rest : list block) (next_func : nat) : nat :=
  match rest with
  | [] => next_func
  | x :: rest' => if is_callee a x then skip_callees a rest' (S next_func) else next_func
  end.

(** Body of [for i, x in enumerate( schedule )], on the [method] attributes. *)
Definition install_wrapper (a : ObjAttrs) (schedule schedule_no_method : list block)
    (methods : gmap obj meth) (ix : nat * block) : result (gmap obj meth) :=
  let '(i, x) := ix in
  match x with
  | Blk o =>
    if is_CalleePort a o then
      let next_func := skip_callees a (drop (i + 1) schedule) (i + 1) in
      nf ← match schedule !! next_func with Some b => Ok b | None => Raise IndexError end;
      map_next_func ← match mapping schedule_no_method nf with
                       | Some k => Ok k | None => Raise KeyError end;
      let method := default (Raw (port_method a o)) (methods !! o) in
      Ok (<[o := Wrapped method map_next_func i]> methods)
    else Ok methods
  | _ => Ok methods
  end.

(** Everything the pass leaves behind, with the intermediate results that
    the properties below speak about. *)
Record Scheduled := {
  graph : Graph;
  SCCs : list (list obj);
  v_SCC : gmap obj nat;
  G_new : gmap nat (list nat);
  scc_pred : gmap nat (option nat);
  scc_schedule : list nat;
  update_schedule : list block;
  schedule : list block;
  schedule_no_method : list block;
  methods : gmap obj meth;           (* [x.method] of the wrapped ports *)
}.

Definition optional (o : option obj) : list block :=
  match o with Some f => [Blk f] | None => [] end.

Definition schedule_with_top_level_callee (line_trace_on : bool) (top : Top)
    (constraints : list (obj * obj)) : result Scheduled :=
  g ← build_graph top constraints;
  let vertices := shuffle (randbelow top) (V g) in
  '(SCCs, v_SCC) ← kosaraju g vertices;
  '(G_new, InD) ← condense (length SCCs) (E g) v_SCC;
  '(scc_pred, scc_schedule) ←
    topo_sort (length SCCs) (method_guard_mapping g) (guard_method_mapping g) G_new InD;
  sw ← for_each (schedule_scc top g SCCs scc_pred) scc_schedule
         {| sw_update_schedule := []; sw_scc_id := 0 |};
  let update_schedule := sw_update_schedule sw in
  let schedule :=
    [Blk (clear_cl_trace (_tracing top))]
    ++ update_schedule
    ++ (if line_trace_on then [PrintLineTrace] else [])
    ++ (Blk <$> schedule_ff top)
    ++ optional (vcd_func (_tracing top))
    ++ optional (collect_text_sigs (_tracing top))
    ++ (Blk <$> schedule_posedge_flip top) in
  let schedule_no_method := filter (λ x, is_callee (attrs top) x = false) schedule in
  methods ← for_each (install_wrapper (attrs top) schedule schedule_no_method)
              (imap pair schedule) ∅;
  Ok {| graph := g; SCCs := SCCs; v_SCC := v_SCC; G_new := G_new;
        scc_pred := scc_pred; scc_schedule := scc_schedule;
        update_schedule := update_schedule; schedule := schedule;
        schedule_no_method := schedule_no_method; methods := methods |}.

(** [OpenLoopCLPass.__call__] *)
Definition OpenLoopCLPass_call (line_trace_on : bool) (top : Top) : result Scheduled :=
  match all_constraints (_dag top) with
  | None => Raise (PassOrderError "all_constraints")
  | Some constraints => schedule_with_top_level_callee line_trace_on top constraints
  end.

(** ** Run time *)

Inductive outcome (A : Type) :=
| Returned (a : A)
| Raised (e : exn).
Arguments Returned {A} a.
Arguments Raised {A} e.

(** The behaviour of the user's blocks and methods and of the signal
    values, which the pass treats as opaque. *)
Record Model := {
  World : Type;                         (* the signals and whatever else blocks touch *)
  Args : Type;
  Ret : Type;
  Value : Type;
  run_blk : obj → World → World * option exn;          (* [blk()] *)
  call_raw : obj → Args → World → World * outcome Ret;  (* a raw method *)
  line_trace : nat → World → World * option exn;
      (* [print(top.num_cycles_executed, ..., top.line_trace())] *)
  read : SignalRef → World → Value;      (* the value of a signal expression *)
  attr_value : Value → Value;            (* [x.value] *)
  clone : Value → Value;                 (* [x.clone()] *)
  deepcopy : Value → Value;              (* [deepcopy(x)] *)
  py_eq : Value → Value → bool;          (* truth of [x == t] *)
}.

(** The simulator state: the world and the cursor
    [top._sched.new_schedule_index], [top._sched.orig_schedule_index],
    [top.num_cycles_executed]. *)
Record Sim (M : Model) := MkSim {
  world : World M;
  new_schedule_index : nat;
  orig_schedule_index : nat;
  num_cycles_executed : nat;
}.
Arguments MkSim {M} _ _ _ _.
Arguments world {M} _.
Arguments new_schedule_index {M} _.
Arguments orig_schedule_index {M} _.
Arguments num_cycles_executed {M} _.

Definition cursor {M} (st : Sim M) : nat * nat * nat :=
  (new_schedule_index st, orig_schedule_index st, num_cycles_executed st).

Definition set_world {M} (st : Sim M) (w : World M) : Sim M :=
  MkSim w (new_schedule_index st) (orig_schedule_index st) (num_cycles_executed st).

(** What the pass leaves on [top]: both indices and the cycle count at 0. *)
Definition initial {M} (w : World M) : Sim M := MkSim w 0 0 0.

Definition Run (M : Model) (A : Type) : Type := Sim M → Sim M * outcome A.

Definition run_ret {M A} (a : A) : Run M A := λ st, (st, Returned a).

Definition run_bind {M A B} (m : Run M A) (f : A → Run M B) : Run M B := λ st,
  match m st with
  | (st', Returned a) => f a st'
  | (st', Raised e) => (st', Raised e)
  end.

Notation "'let!' x ':=' m 'in' k" := (run_bind m (λ x, k))
  (at level 10, x pattern, m at level 100, k at level 200, only parsing).

Definition lift_world {M} (f : World M → World M * option exn) : Run M unit :=
  λ st, let '(w, e) := f (world st) in
        (set_world st w, match e with None => Returned tt | Some x => Raised x end).

(** [for blk in scc: blk()] inside a super-block. *)
Fixpoint run_blks (M : Model) (scc : list obj) (w : World M) : World M * option exn :=
  match scc with
  | [] => (w, None)
  | blk :: scc' =>
    match run_blk M blk w with
    | (w', None) => run_blks M scc' w'
    | (w', Some e) => (w', Some e)
    end
  end.

(** The copy statement of one trigger variable, by kind (lines 322-327). *)
Definition snapshot (M : Model) (w : World M) (var : SignalRef) : Value M :=
  match sig_kind var with
  | IsBits => attr_value M (read M var w)
  | IsBitStruct => clone M (read M var w)
  | IsOther => deepcopy M (read M var w)
  end.

(** The condition [var0 == t0 and var1 == t1 and ...]. *)
Definition converged (M : Model) (variables : list SignalRef)
    (ts : list (Value M)) (w : World M) : bool :=
  forallb (λ '(var, t), py_eq M (read M var w) t) (zip variables ts).

Inductive iteration (M : Model) :=
| Exit (w : World M) (e : option exn)
| Continue (w : World M).
Arguments Exit {M} w e.
Arguments Continue {M} w.

(** The body of [while True], after [num_iters += 1]. *)
Definition wrapped_SCC_body (M : Model) (scc : list obj) (variables : list SignalRef)
    (names : string) (num_iters : nat) (w : World M) : iteration M :=
  let ts := snapshot M w <$> variables in
  match run_blks M scc w with
  | (w', Some e) => Exit w' (Some e)
  | (w', None) =>
    if converged M variables ts w' then Exit w' None
    else if bool_decide (100 < num_iters)
         then Exit w' (Some (UpblkCyclicError (loop_message names)))
         else Continue w'
  end.

(** The [while True] loop.  It returns the world, the value of [num_iters]
    on exit, and the exception if one was raised.  [fuel] bounds the
    iterations still allowed; [wrapped_SCC_loop_fuel] shows that the bound
    used by [wrapped_SCC] is never exhausted. *)
Fixpoint wrapped_SCC_loop (M : Model) (fuel : nat) (scc : list obj)
    (variables : list SignalRef) (names : string) (num_iters : nat) (w : World M)
    : World M * nat * option exn :=
  match fuel with
  | 0 => (w, num_iters, None)
  | S fuel' =>
    let num_iters := num_iters + 1 in
    match wrapped_SCC_body M scc variables names num_iters w with
    | Exit w' e => (w', num_iters, e)
    | Continue w' => wrapped_SCC_loop M fuel' scc variables names num_iters w'
    end
  end.

Definition wrapped_SCC (M : Model) (scc : list obj) (variables : list SignalRef)
    (names : string) (w : World M) : World M * nat * option exn :=
  wrapped_SCC_loop M 101 scc variables names 0 w.

(** Calling an entry of the schedule. *)
Definition exec_block (M : Model) (b : block) : Run M unit :=
  match b with
  | Blk o => lift_world (run_blk M o)
  | WrappedSCC _ scc variables names =>
    lift_world (λ w, let '(w', _, e) := wrapped_SCC M scc variables names w in (w', e))
  | PrintLineTrace => λ st, lift_world (line_trace M (num_cycles_executed st)) st
  end.

(** [while i < bound: schedule_no_method[i](); i += 1], unrolled over the
    [n = bound - i] iterations it makes; the result is the final [i]. *)
Fixpoint advance (M : Model) (schedule_no_method : list block) (n i : nat) : Run M nat :=
  match n with
  | 0 => run_ret i
  | S n' =>
    match schedule_no_method !! i with
    | None => λ st, (st, Raised IndexError)
    | Some blk =>
      let! _ := exec_block M blk in advance M schedule_no_method n' (i + 1)
    end
  end.

Definition run_while_lt (M : Model) (schedule_no_method : list block) (i bound : nat)
    : Run M nat :=
  advance M schedule_no_method (bound - i) i.

Definition incr_num_cycles_executed {M} : Run M unit :=
  λ st, (MkSim (world st) (new_schedule_index st) (orig_schedule_index st)
               (num_cycles_executed st + 1), Returned tt).

Definition store_indices {M} (i j : nat) : Run M unit :=
  λ st, (MkSim (world st) i j (num_cycles_executed st), Returned tt).

(** [actual_method] of [wrap_method] (autotick, lines 400-427). *)
Definition actual_method (M : Model) (method : Args M → Run M (Ret M))
    (my_idx_new : nat) (schedule_no_method : list block) (my_idx_orig : nat)
    (args : Args M) : Run M (Ret M) :=
  λ st,
  let i := new_schedule_index st in
  let j := orig_schedule_index st in
  (let! (i, j) :=
     (if bool_decide (my_idx_orig < j) then
        let! _ := run_while_lt M schedule_no_method i (length schedule_no_method) in
        let! _ := incr_num_cycles_executed in
        run_ret (0, 0)
      else run_ret (i, j)) in
   let! i := run_while_lt M schedule_no_method i my_idx_new in
   let j := my_idx_orig + 1 in
   let! ret := method args in
   let! _ := store_indices i j in
   run_ret ret) st.

(** Calling [x.method( args )]. *)
Fixpoint call_method (M : Model) (schedule_no_method : list block) (m : meth)
    (args : Args M) : Run M (Ret M) :=
  match m with
  | Raw o => λ st, let '(w, r) := call_raw M o args (world st) in (set_world st w, r)
  | Wrapped method my_idx_new my_idx_orig =>
    actual_method M (call_method M schedule_no_method method)
                  my_idx_new schedule_no_method my_idx_orig args
  end.

(** [normal_tick] (passes/OpenLoopCLPass.py, lines 467-470):
    [for blk in schedule_no_method: blk()]. *)
Fixpoint normal_tick (M : Model) (schedule_no_method : list block) : Run M unit :=
  match schedule_no_method with
  | [] => run_ret tt
  | blk :: rest => let! _ := exec_block M blk in normal_tick M rest
  end.

(** [k] calls of [tick()] in a row. *)
Fixpoint ticks (M : Model) (schedule_no_method : list block) (k : nat) : Run M unit :=
  match k with
  | 0 => run_ret tt
  | S k' => let! _ := normal_tick M schedule_no_method in ticks M schedule_no_method k'
  end.

(** One pass over the intra-SCC order, as a function on the world. *)
Definition sweep (M : Model) (scc : list obj) (w : World M) : World M :=
  (run_blks M scc w).1.

(** Copies that can stand for the value copied: [x == t] holds exactly
    when [x] has the value that [t] was copied from. *)
Definition faithful_copies (M : Model) : Prop :=
  ∀ var w w', py_eq M (read M var w') (snapshot M w var) = true ↔
              read M var w' = read M var w.

(** The [k]-th pass over the intra-SCC order, started in [w], raises
    nothing and ends with some trigger variable differing from its copy. *)
Definition pass_changes (M : Model) (scc : list obj) (variables : list SignalRef)
    (w : World M) (k : nat) : Prop :=
  let wk := Nat.iter k (sweep M scc) w in
  (run_blks M scc wk).2 = None ∧
  converged M variables (snapshot M wk <$> variables) (sweep M scc wk) = false.

(** The [k]-th pass raises nothing and ends with every trigger variable
    equal to its copy. *)
Definition pass_settles (M : Model) (scc : list obj) (variables : list SignalRef)
    (w : World M) (k : nat) : Prop :=
  let wk := Nat.iter k (sweep M scc) w in
  (run_blks M scc wk).2 = None ∧
  converged M variables (snapshot M wk <$> variables) (sweep M scc wk) = true.

(** The value of a well-formed result. *)
Definition value_or {A} (d : A) (r : result A) : A :=
  match r with Ok a => a | _ => d end.

(** What a wrapped invocation does when it only runs the projected blocks
    from the cursor up to its target, then the method body, and returns. *)
Definition window_call (M : Model) (method : Args M → Run M (Ret M))
    (my_idx_new : nat) (schedule_no_method : list block) (my_idx_orig : nat)
    (args : Args M) : Run M (Ret M) :=
  λ st,
  (let! i := run_while_lt M schedule_no_method (new_schedule_index st) my_idx_new in
   let! ret := method args in
   let! _ := store_indices i (my_idx_orig + 1) in
   run_ret ret) st.

(** The entries of the schedule whose original index lies strictly between
    [p1] and [p2] and that are not callee ports. *)
Definition blocks_between (a : ObjAttrs) (schedule : list block) (p1 p2 : nat) : list block :=
  filter (λ x, is_callee a x = false) (drop (p1 + 1) (take p2 schedule)).

(** [map_next_func] of the port at original index [p] (lines 437-445). *)
Definition target_index (a : ObjAttrs) (schedule schedule_no_method : list block)
    (p : nat) : option nat :=
  nf ← schedule !! skip_callees a (drop (p + 1) schedule) (p + 1);
  mapping schedule_no_method nf.

(** The successors of an SCC in the condensed graph. *)
Definition succs (G_new : gmap nat (list nat)) (a : nat) : list nat :=
  default [] (G_new !! a).

(** The number of predecessors of [b] among the SCCs listed in [l]. *)
Definition preds_in (G_new : gmap nat (list nat)) (l : list nat) (b : nat) : nat :=
  length (filter (λ a, b ∈ succs G_new a) l).

(** What the condensation establishes: [G_new] has the keys [0..n-1], its
    values are sets of keys, and [InD] counts predecessors. *)
Record wf_condensed (n : nat) (G_new : gmap nat (list nat)) (InD : gmap nat Z) : Prop := {
  wf_dom : ∀ a, is_Some (G_new !! a) ↔ a < n;
  wf_sets : ∀ a l, G_new !! a = Some l → NoDup l ∧ ∀ b, b ∈ l → b < n;
  wf_InD_dom : ∀ b, is_Some (InD !! b) → b < n;
  wf_InD : ∀ b, b < n → InD !! b = Some (Z.of_nat (preds_in G_new (seq 0 n) b));
}.

(** The invariant of the [while Q] loop of the topological sort. *)
Record topo_inv (n : nat) (G_new : gmap nat (list nat)) (s : TopoState) : Prop := {
  inv_nodup : NoDup (ts_schedule s ++ ts_Q s);
  inv_range : ∀ x, x ∈ ts_schedule s ++ ts_Q s → x < n;
  inv_InD : ∀ b, b < n →
    ts_InD s !! b = Some (Z.of_nat (preds_in G_new (seq 0 n) b)
                          - Z.of_nat (preds_in G_new (ts_schedule s) b))%Z;
  inv_ready : ∀ b, b < n →
    b ∈ ts_schedule s ++ ts_Q s ↔
    preds_in G_new (ts_schedule s) b = preds_in G_new (seq 0 n) b;
  inv_order : ∀ j b, ts_schedule s !! j = Some b →
    ∀ a, a < n → b ∈ succs G_new a → ∃ i, i < j ∧ ts_schedule s !! i = Some a;
}.

(** An edge of [E] as the condensation sees it: both ends have an SCC
    number, and when the numbers differ they are keys of [G_new] and the
    edge between them is in [G_new]. *)
Definition edge_condensed (n : nat) (v_SCC : gmap obj nat) (G_new : gmap nat (list nat))
    (e : obj * obj) : Prop :=
  ∃ cu cv, v_SCC !! e.1 = Some cu ∧ v_SCC !! e.2 = Some cv ∧
           (cu ≠ cv → cu < n ∧ cv < n ∧ cv ∈ succs G_new cu).

(** The entry of the update sweep that stands for SCC number [c]: its one
    vertex, or the super-block synthesized for it. *)
Definition block_of_scc (a : ObjAttrs) (SCCs : list (list obj)) (c : nat) (b : block) : Prop :=
  ∃ scc, SCCs !! c = Some scc ∧
         match scc with
         | [u] => b = Blk u
         | _ => ∃ id tmp_schedule variables,
                  b = WrappedSCC id tmp_schedule variables (scc_names a scc)
         end.


(** The quantities that decrease along the [while] loops of the pass. *)
Definition topo_measure (s : TopoState) : nat :=
  length (ts_Q s) + weight_sum (λ _ d, Z.to_nat d) (ts_InD s).

Definition unvisited_weight (visited : gset obj) (k : obj) (adj : list obj) : nat :=
  if decide (k ∈ visited) then 0 else 1 + length adj.

Definition dfs_measure (G : gmap obj (list obj)) (stack : list (obj * bool))
    (visited : gset obj) : nat :=
  length stack + weight_sum (unvisited_weight visited) G.

Definition unvisited_entries (visited : gset obj) (k : obj) (adj : list obj) : nat :=
  length (filter (λ v, v ∉ visited) adj).

Definition bfs_measure (G_T : gmap obj (list obj)) (Q : list obj) (visited : gset obj) : nat :=
  length Q + weight_sum (unvisited_entries visited) G_T.

Definition intra_measure (scc Q : list obj) (visited : gset obj) : nat :=
  length Q + length (filter (λ v, v ∉ visited) scc).

(** ** Example designs *)

Module Examples.

Definition blk_name (o : obj) : string :=
  match o with Obj i => "b" +:+ pretty i end.

(** Objects numbered in [ports] are callee ports; the raw method of port
    [i] is object [100 + i]. *)
Definition example_attrs (ports : list nat) : ObjAttrs :=
  {| is_CalleePort := λ o, match o with Obj i => bool_decide (i ∈ ports) end;
     port_method := λ o, match o with Obj i => Obj (100 + i) end;
     in_non_blocking_interface := λ o, match o with Obj i => bool_decide (10 ≤ i) end;
     dunder_name := blk_name |}.

Definition example_tracing : Tracing :=
  {| clear_cl_trace := Obj 50; vcd_func := None; collect_text_sigs := None |}.

Definition sig_x : SignalRef := {| sig_repr := "s.x"; sig_kind := IsBits |}.

(** A design with update blocks [upblks], constraints [cs] between them and
    the non-blocking interfaces [ifcs]. *)
Definition design (upblks : list nat) (cs : list (nat * nat))
    (vars : list SignalRef) (ifcs : list (nat * nat)) (rnd : nat → nat) : Top :=
  {| _dag := {| all_constraints := Some ((λ '(u, v), (Obj u, Obj v)) <$> cs);
                final_upblks := Obj <$> upblks;
                top_level_callee_constraints := [];
                constraint_objs :=
                  list_to_map ((λ '(u, v), ((Obj u, Obj v), vars)) <$> cs) |};
     attrs := example_attrs (flat_map (λ '(m, r), [m; r]) ifcs);
     get_all_update_ff := [];
     top_level_callee_ports := Obj <$> flat_map (λ '(m, r), [m; r]) ifcs;
     top_level_nb_ifcs := (λ '(m, r), {| ifc_method := Obj m; ifc_rdy := Obj r |}) <$> ifcs;
     randbelow := rnd;
     _tracing := example_tracing;
     schedule_ff := [];
     schedule_posedge_flip := [] |}.

(** A chain 1 -> 2 -> 3. *)
Definition chain : Top := design [1; 2; 3] [(1, 2); (2, 3)] [] [] (λ _, 0).

(** A two-block cycle 1 <-> 2 on the trigger [s.x]. *)
Definition cycle : Top := design [1; 2] [(1, 2); (2, 1)] [sig_x] [] (λ _, 0).

(** The same cycle with no trigger variable on its edges. *)
Definition cycle_no_trigger : Top := design [1; 2] [(1, 2); (2, 1)] [] [] (λ _, 0).

(** One update block 1 and one interface with method 10 and guard 11, the
    shuffle leaving the vertices in the order 10, 1, 11. *)
Definition guarded : Top :=
  design [1] [] [] [(10, 11)] (λ i, match i with 2 => 2 | _ => 0 end).

(** The method 10 of the interface in a cycle with the update block 1. *)
Definition method_in_cycle : Top :=
  design [1] [(1, 10); (10, 1)] [sig_x] [(10, 11)] (λ _, 0).

(** Blocks and methods append their number to a log; a signal reads as
    the length of the log, so every block changes every signal. *)
Definition log_model : Model :=
  {| World := list nat; Args := unit; Ret := unit; Value := nat;
     run_blk := λ o w, match o with Obj i => (w ++ [i], None) end;
     call_raw := λ o _ w, match o with Obj i => (w ++ [i], Returned tt) end;
     line_trace := λ _ w, (w, None);
     read := λ _ w, length w;
     attr_value := id; clone := id; deepcopy := id;
     py_eq := Nat.eqb |}.


(** The world is the value of the one signal; every block drives it to 1. *)
Definition latch_model : Model :=
  {| World := nat; Args := unit; Ret := unit; Value := nat;
     run_blk := λ _ _, (1, None);
     call_raw := λ _ _ w, (w, Returned tt);
     line_trace := λ _ w, (w, None);
     read := λ _ w, w;
     attr_value := id; clone := id; deepcopy := id;
     py_eq := Nat.eqb |}.

(** A projection of four blocks. *)
Definition four_blocks : list block := [Blk (Obj 0); Blk (Obj 1); Blk (Obj 2); Blk (Obj 3)].


Definition empty_graph : Graph :=
  {| V := []; E := []; G := ∅; G_T := ∅; method_callee_mapping := ∅;
     method_guard_mapping := ∅; guard_method_mapping := ∅ |}.

(** The graph of the two cycle designs, their one SCC, and its entry in
    [scc_pred]. *)
Definition cycle_graph : Graph :=
  value_or empty_graph (build_graph cycle [(Obj 1, Obj 2); (Obj 2, Obj 1)]).
Definition cycle_SCCs : list (list obj) := [[Obj 2; Obj 1]].
Definition cycle_pred : gmap nat (option nat) := <[0 := None]> ∅.
Definition sweep_start : SweepState := {| sw_update_schedule := []; sw_scc_id := 0 |}.

Definition empty_scheduled : Scheduled :=
  {| graph := empty_graph; SCCs := []; v_SCC := ∅; G_new := ∅; scc_pred := ∅;
     scc_schedule := []; update_schedule := []; schedule := [];
     schedule_no_method := []; methods := ∅ |}.

(** What the pass leaves for [guarded]: the schedule
    [clear_cl_trace, rdy, U, method, print_line_trace]. *)
Definition guarded_scheduled : Scheduled :=
  value_or empty_scheduled (schedule_with_top_level_callee true guarded []).

(** What the pass leaves for [chain]. *)
Definition chain_scheduled : Scheduled :=
  value_or empty_scheduled
    (schedule_with_top_level_callee true chain [(Obj 1, Obj 2); (Obj 2, Obj 3)]).

(** What the pass leaves for [method_in_cycle]: the method 10 sits inside
    the super-block of the SCC {10, 1}. *)
Definition method_in_cycle_scheduled : Scheduled :=
  value_or empty_scheduled (OpenLoopCLPass_call true method_in_cycle).

End Examples.

(** * Invariants and further examples *)

(** [G[u]] for a vertex [u], and nothing for anything else. *)
Definition neighbours (G : gmap obj (list obj)) (u : obj) : list obj :=
  default [] (G !! u).

(** What the two constraint loops keep: [G] and [G_T] have the vertices as
    keys and are each other's transpose, and [E] is [E0], its content
    before the loops, together with the edges of [G]. *)
Record adjacency_inv (V : list obj) (E0 : list (obj * obj)) (s : EdgeState) : Prop := {
  adj_dom : ∀ v, is_Some (es_G s !! v) ↔ v ∈ V;
  adj_dom_T : ∀ v, is_Some (es_G_T s !! v) ↔ v ∈ V;
  adj_transpose : ∀ u v, v ∈ neighbours (es_G s) u ↔ u ∈ neighbours (es_G_T s) v;
  adj_E : ∀ u v, (u, v) ∈ es_E s ↔ (u, v) ∈ E0 ∨ v ∈ neighbours (es_G s) u;
  adj_V : ∀ u v, v ∈ neighbours (es_G s) u → u ∈ V ∧ v ∈ V;
}.
(** What lines 108-116 make of a callee constraint [(xx, yy)]. *)
Definition redirect (mcm mgm : gmap obj obj) (c : obj * obj) : obj * obj :=
  let xx := default c.1 (mcm !! c.1) in
  let yy := default c.2 (mcm !! c.2) in
  (xx, default yy (mgm !! yy)).

(** The vertices whose second visit is pending on the stack of the first
    pass. *)
Definition pending (stack : list (obj * bool)) : list obj :=
  fst <$> filter (λ p, p.2 = true) stack.

(** Invariant of the [while stack] loop: the visited vertices are those
    in [PO] and those whose second visit is pending, each once. *)
Definition dfs_inv (stack : list (obj * bool)) (visited : gset obj) (PO : list obj) : Prop :=
  NoDup (PO ++ pending stack) ∧
  ∀ u, u ∈ visited ↔ u ∈ PO ∨ u ∈ pending stack.

(** Invariant of the [while Q] loop of the second pass, [done] being the
    sets completed before the current one. *)
Record bfs_inv (G_T : gmap obj (list obj)) (done : list (list obj)) (Q scc : list obj)
    (v_SCC : gmap obj nat) (visited : gset obj) : Prop := {
  bfs_visited : ∀ x, x ∈ visited ↔ is_Some (v_SCC !! x) ∨ x ∈ Q;
  bfs_done : ∀ x j, j < length done →
    (v_SCC !! x = Some j ↔ ∃ s, done !! j = Some s ∧ x ∈ s);
  bfs_range : ∀ x j, v_SCC !! x = Some j → j ≤ length done;
  bfs_current : ∀ x, x ∈ scc ↔ v_SCC !! x = Some (length done) ∨ x ∈ Q;
  bfs_queue : NoDup Q ∧ ∀ x, x ∈ Q → v_SCC !! x = None;
  bfs_nodup : NoDup scc;
  bfs_keys : ∀ x, is_Some (v_SCC !! x) → is_Some (G_T !! x);
}.

(** Invariant of [for u in RPO]: the numbered vertices are the visited
    ones, and a vertex carries the number of the one set it lies in. *)
Record scc_inv (G_T : gmap obj (list obj)) (s : SccState) : Prop := {
  scc_visited : ∀ x, x ∈ st_visited s ↔ is_Some (st_v_SCC s !! x);
  scc_members : ∀ x j, st_v_SCC s !! x = Some j ↔ ∃ scc, st_SCCs s !! j = Some scc ∧ x ∈ scc;
  scc_nonempty : ∀ j scc, st_SCCs s !! j = Some scc → scc ≠ [] ∧ NoDup scc;
  scc_keys : ∀ x, is_Some (st_v_SCC s !! x) → is_Some (G_T !! x);
}.

(** The condensed graph has no cycle: its SCCs can be ranked so that
    every edge goes up. *)
Definition acyclic (G_new : gmap nat (list nat)) : Prop :=
  ∃ rank : nat → nat, ∀ a b, b ∈ succs G_new a → rank a < rank b.

(** What the sort keeps about [scc_pred]: every SCC that has reached the
    frontier has an entry; an entry [u] is a predecessor that is already
    scheduled; an entry [None] belongs to an SCC of in-degree 0. *)
Record pred_inv (G_new : gmap nat (list nat)) (InD0 : gmap nat Z) (s : TopoState) : Prop := {
  pred_dom : ∀ v, v ∈ ts_schedule s ++ ts_Q s → is_Some (ts_pred s !! v);
  pred_some : ∀ v u, ts_pred s !! v = Some (Some u) → v ∈ succs G_new u ∧ u ∈ ts_schedule s;
  pred_none : ∀ v, ts_pred s !! v = Some None → InD0 !! v = Some 0%Z;
}.

(** A design in which the implicit edge from the guard 11 to the method 10
    closes a cycle with the constraints "method before block 1" and "block
    1 before guard": 10 -> 1 -> 11 -> 10. *)
Definition guard_cycle : Top :=
  {| _dag := {| all_constraints := Some [];
                final_upblks := [Obj 1];
                top_level_callee_constraints := [(Obj 110, Obj 1); (Obj 1, Obj 111)];
                constraint_objs := ∅ |};
     attrs := Examples.example_attrs [10; 11];
     get_all_update_ff := [];
     top_level_callee_ports := [Obj 10; Obj 11];
     top_level_nb_ifcs := [{| ifc_method := Obj 10; ifc_rdy := Obj 11 |}];
     randbelow := λ _, 0;
     _tracing := Examples.example_tracing;
     schedule_ff := [];
     schedule_posedge_flip := [] |}.

Definition guard_cycle_graph : Graph :=
  value_or Examples.empty_graph (build_graph guard_cycle []).
Definition guard_cycle_v_SCC : gmap obj nat :=
  (value_or ([], ∅) (kosaraju guard_cycle_graph (shuffle (λ _, 0) (V guard_cycle_graph)))).2.
Definition guard_cycle_condensed : gmap nat (list nat) * gmap nat Z :=
  value_or (∅, ∅) (condense 3 (E guard_cycle_graph) guard_cycle_v_SCC).

(** Every adjacency entry of [G] is a key of [G]. *)
Definition closed (G : gmap obj (list obj)) : Prop :=
  ∀ u adj v, G !! u = Some adj → v ∈ adj → is_Some (G !! v).

(** What follows the update sweep and the line trace in the schedule
    (lines 370-382). *)
Definition tail_blocks (top : Top) : list block :=
  (Blk <$> schedule_ff top)
  ++ optional (vcd_func (_tracing top))
  ++ optional (collect_text_sigs (_tracing top))
  ++ (Blk <$> schedule_posedge_flip top).

(** What the sweep keeps while it goes through [scc_schedule], [done]
    being the SCC numbers handled so far: no block is repeated, the
    super-blocks are numbered up to [scc_id], and a vertex in the sweep is
    the one vertex of a handled SCC. *)
Record sweep_inv (SCCs : list (list obj)) (done : list nat) (s : SweepState) : Prop := {
  sweep_nodup : NoDup (sw_update_schedule s);
  sweep_ids : ∀ id tmp vars names,
    WrappedSCC id tmp vars names ∈ sw_update_schedule s → id ≤ sw_scc_id s;
  sweep_vertices : ∀ u, Blk u ∈ sw_update_schedule s → ∃ i, i ∈ done ∧ SCCs !! i = Some [u];
  sweep_no_trace : PrintLineTrace ∉ sw_update_schedule s;
}.

(** Two plain callee ports, 5 and 6, around the same raw method 100. *)
Definition shared_method : Top :=
  {| _dag := {| all_constraints := Some [];
                final_upblks := [Obj 1];
                top_level_callee_constraints := [];
                constraint_objs := ∅ |};
     attrs := {| is_CalleePort := λ o, match o with Obj i => bool_decide (i ∈ [5; 6]) end;
                 port_method := λ _, Obj 100;
                 in_non_blocking_interface := λ _, false;
                 dunder_name := Examples.blk_name |};
     get_all_update_ff := [];
     top_level_callee_ports := [Obj 5; Obj 6];
     top_level_nb_ifcs := [];
     randbelow := λ _, 0;
     _tracing := Examples.example_tracing;
     schedule_ff := [];
     schedule_posedge_flip := [] |}.


(** Reachability in a graph given by adjacency lists. *)
Definition edge (G : gmap obj (list obj)) (u v : obj) : Prop := v ∈ neighbours G u.

Definition reach (G : gmap obj (list obj)) : obj → obj → Prop := rtc (edge G).

(** Every vertex [m] of a post-order closes a segment of it: the vertices
    of the segment are reachable from [m], and no edge leads into the
    segment from the vertices listed before it. *)
Definition good_po (G : gmap obj (list obj)) (PO : list obj) : Prop :=
  ∀ i m, PO !! i = Some m →
    ∃ k, k ≤ i ∧
      (∀ x, x ∈ drop k (take (S i) PO) → reach G m x) ∧
      (∀ x y, x ∈ take k PO → edge G x y → y ∉ drop k (take (S i) PO)).

(** What the [while stack] loop keeps about the order of the visits.  A
    vertex whose second visit is pending reaches everything above it on
    the stack and everything appended to [PO] since its first visit, and
    its successors are visited or wait above it; the successors of a
    vertex of [PO] are visited. *)
Record dfs_order_inv (G : gmap obj (list obj)) (stack : list (obj * bool))
    (visited : gset obj) (PO : list obj) : Prop := {
  do_chain : ∀ above g below, stack = above ++ (g, true) :: below →
    ∀ v b, (v, b) ∈ above → reach G g v;
  do_pending : ∀ above g below, stack = above ++ (g, true) :: below →
    ∀ y, edge G g y → y ∈ visited ∨ (y, false) ∈ above;
  do_black : ∀ x y, x ∈ PO → edge G x y → y ∈ visited;
  do_segment : ∀ above g below, stack = above ++ (g, true) :: below →
    ∃ k, k ≤ length PO ∧
      (∀ x, x ∈ drop k PO → reach G g x) ∧
      (∀ x y, x ∈ take k PO → edge G x y → y ∈ take k PO ∨ y ∈ pending below);
  do_good : good_po G PO;
}.
(** What the [while Q] loop of the second pass keeps, [W0] being the
    vertices visited before the seed: a collected vertex is new and
    reaches the seed in [G] along collected vertices; a visited vertex
    waits in [opened] or has all its neighbours in [G_T] visited. *)
Record bfs_reach (G G_T : gmap obj (list obj)) (seed : obj) (W0 : gset obj)
    (opened Q scc : list obj) (visited : gset obj) : Prop := {
  br_visited : ∀ x, x ∈ visited ↔ x ∈ W0 ∨ x ∈ scc;
  br_fresh : ∀ x, x ∈ scc → x ∉ W0;
  br_seed : seed ∈ scc;
  br_path : ∀ x, x ∈ scc → rtc (λ a b, edge G a b ∧ a ∈ scc) x seed;
  br_closed : ∀ x, x ∈ visited → x ∈ opened ∨ ∀ y, edge G_T x y → y ∈ visited;
  br_queue : ∀ x, x ∈ Q → x ∈ scc;
}.

(** What [for u in RPO] keeps: the visited vertices are closed under the
    edges of [G_T], and every set collected so far is a strongly connected
    component of [G]. *)
Record kos_inv (G G_T : gmap obj (list obj)) (s : SccState) : Prop := {
  ki_closed : ∀ x y, x ∈ st_visited s → edge G_T x y → y ∈ st_visited s;
  ki_sound : ∀ j scc x y, st_SCCs s !! j = Some scc → x ∈ scc → y ∈ scc → reach G x y;
  ki_complete : ∀ j scc x y, st_SCCs s !! j = Some scc → x ∈ scc →
    reach G x y → reach G y x → y ∈ scc;
}.

(** The number of edges of [E] that lead to [v] from inside [scc]. *)
Definition in_degree (E : list (obj * obj)) (scc : list obj) (v : obj) : nat :=
  length (filter (λ e, e.1 ∈ scc ∧ e.2 = v) E).

(** The numbers given so far never decrease along an edge of [G]: a
    neighbour in [G_T] of a numbered vertex is numbered no higher. *)
Definition topo_num (G_T : gmap obj (list obj)) (s : SccState) : Prop :=
  ∀ x y jx, edge G_T x y → st_v_SCC s !! x = Some jx →
            ∃ jy, st_v_SCC s !! y = Some jy ∧ jy ≤ jx.

(** The [k]-th pass over the intra-SCC order, started in [w], is ended by
    the exception [e] of one of its blocks. *)
Definition pass_raises (M : Model) (scc : list obj) (w : World M) (k : nat) (e : exn) : Prop :=
  (run_blks M scc (Nat.iter k (sweep M scc) w)).2 = Some e.

(** * The older pass (passes/OpenLoopCLPass.py) *)

(** Body of [for (u, v) in E] (lines 80-82): no test that the ends are
    vertices. *)
Definition add_constraint_old (s : gmap obj (list obj) * gmap obj (list obj))
    (c : obj * obj) : result (gmap obj (list obj) * gmap obj (list obj)) :=
  let '(G, G_T) := s in
  let '(u, v) := c in
  g ← dict_append G u v;
  gt ← dict_append G_T v u;
  Ok (g, gt).

(** [G = { v: [] for v in V }], [G_T] likewise, and the loop over [E]. *)
Definition adjacency_old (V : list obj) (E : list (obj * obj))
    : result (gmap obj (list obj) * gmap obj (list obj)) :=
  let empty_adj : gmap obj (list obj) := list_to_map ((λ v, (v, [])) <$> V) in
  for_each add_constraint_old E (empty_adj, empty_adj).

(** The scan of the frontier (lines 216-220): [before] is [Q[:i]]. *)
Fixpoint scan_frontier_old (SCCs : list (list obj)) (mgm : gmap obj obj)
    (before Q : list nat) : result (option (nat * list nat)) :=
  match Q with
  | [] => Ok None
  | q :: Q' =>
    scc ← match SCCs !! q with Some scc => Ok scc | None => Raise IndexError end;
    match scc with
    | [v] =>
      if bool_decide (mgm !! v = None) then Ok (Some (q, before ++ Q'))
      else scan_frontier_old SCCs mgm (before ++ [q]) Q'
    | _ => scan_frontier_old SCCs mgm (before ++ [q]) Q'
    end
  end.

(** Lines 215-223, on the frontier as [random.shuffle] has left it: the
    SCC taken from the frontier and what stays in it. *)
Definition pop_old (SCCs : list (list obj)) (mgm : gmap obj obj) (Q : list nat)
    : result (nat * list nat) :=
  found ← scan_frontier_old SCCs mgm [] Q;
  match found with
  | Some r => Ok r
  | None =>
    match last Q with
    | Some u => Ok (u, removelast Q)
    | None => Raise IndexError
    end
  end.

(** An SCC of one vertex that is not the method of a non-blocking
    interface. *)
Definition plain_scc (SCCs : list (list obj)) (mgm : gmap obj obj) (q : nat) : Prop :=
  ∃ v, SCCs !! q = Some [v] ∧ mgm !! v = None.

(** [actual_method] of the older [wrap_method] (lines 383-420). *)
Definition actual_method_old (M : Model) (method : Args M → Run M (Ret M))
    (my_idx_new next_idx_new : nat) (schedule_no_method : list block)
    (my_idx_orig next_idx_orig : nat) (args : Args M) : Run M (Ret M) :=
  λ st,
  let i := new_schedule_index st in
  let j := orig_schedule_index st in
  (let! (i, j) :=
     (if bool_decide (my_idx_orig < j) then
        let! _ := run_while_lt M schedule_no_method i (length schedule_no_method) in
        let! _ := incr_num_cycles_executed in
        run_ret (0, 0)
      else run_ret (i, j)) in
   let! i := run_while_lt M schedule_no_method i my_idx_new in
   let! ret := method args in
   let! i := run_while_lt M schedule_no_method i next_idx_new in
   let j := next_idx_orig in
   let! (i, j) :=
     (if bool_decide (i = length schedule_no_method) then
        let! _ := incr_num_cycles_executed in
        run_ret (0, 0)
      else run_ret (i, j)) in
   let! _ := store_indices i j in
   run_ret ret) st.

(** * Properties *)

(** ** The run-time monad *)

Lemma run_bind_returned {M A B} (m : Run M A) (f : A → Run M B) st st' a :
  m st = (st', Returned a) → run_bind m f st = f a st'.
Proof. intros H. unfold run_bind. by rewrite H. Qed.

Lemma run_bind_raised {M A B} (m : Run M A) (f : A → Run M B) st st' e :
  m st = (st', Raised e) → run_bind m f st = (st', Raised e).
Proof. intros H. unfold run_bind. by rewrite H. Qed.

(** Calling an entry of the schedule touches the world only. *)
Lemma exec_block_cursor M b st :
  cursor (exec_block M b st).1 = cursor st.
Proof.
  destruct b as [o|id scc vars names|]; simpl; unfold lift_world.
  - by destruct (run_blk M o (world st)).
  - by destruct (wrapped_SCC M scc vars names (world st)) as [[w n] e].
  - by destruct (line_trace M (num_cycles_executed st) (world st)).
Qed.


Lemma normal_tick_cursor M snm : ∀ st,
  cursor (normal_tick M snm st).1 = cursor st.
Proof.
  induction snm as [|blk rest IH]; intros st; simpl; [done|].
  unfold run_bind. pose proof (exec_block_cursor M blk st) as Hc.
  destruct (exec_block M blk st) as [st1 [[]|e]]; simpl in *.
  - by rewrite IH.
  - done.
Qed.

Lemma ticks_cursor M snm k : ∀ st,
  cursor (ticks M snm k st).1 = cursor st.
Proof.
  induction k as [|k IH]; intros st; simpl; [done|].
  unfold run_bind. pose proof (normal_tick_cursor M snm st) as Hc.
  destruct (normal_tick M snm st) as [st1 [[]|e]]; simpl in *.
  - by rewrite IH.
  - done.
Qed.

(** ** C4: ticks and the cycle counter *)

(** C4, as stated, fails: on the chain design one [tick()] from the state
    the pass leaves behind runs the three blocks (with [clear_cl_trace]
    before them) and leaves [num_cycles_executed] at 0, not at 1. *)
Lemma C4_one_tick_leaves_counter_at_zero :
  ∃ s, OpenLoopCLPass_call true Examples.chain = Ok s ∧
       let st := (ticks Examples.log_model (schedule_no_method s) 1
                       (@initial Examples.log_model [])).1 in
       world st = [50; 1; 2; 3] ∧
       num_cycles_executed st = 0 ∧
       num_cycles_executed st ≠ 1.
Proof. eexists. split; [vm_compute; reflexivity|]. vm_compute. by repeat split. Qed.

(** C4, amended: [tick()] runs the methodless projection in order and
    leaves the whole cursor untouched, so after [k] ticks with no method
    invocation [num_cycles_executed] still has the value 0 that the pass
    gave it; only the wrap-around of a method wrapper advances it. *)
Theorem C4_ticks_leave_cursor (M : Model) (snm : list block) (k : nat) (w : World M) :
  (∀ st, cursor (ticks M snm k st).1 = cursor st) ∧
  num_cycles_executed (ticks M snm k (initial w)).1 = 0.
Proof.
  split; [apply ticks_cursor|].
  pose proof (ticks_cursor M snm k (initial w)) as H.
  unfold cursor in H. simpl in H. congruence.
Qed.

(** ** C7: exceptions inside a method wrapper *)


Lemma call_raw_cursor M snm o args (st : Sim M) :
  cursor (call_method M snm (Raw o) args st).1 = cursor st.
Proof. simpl. by destruct (call_raw M o args (world st)). Qed.





(** ** The fixed-point super-block *)

(** Inverting a successful [bind] of the pass-time monad. *)
Ltac bind_inv H :=
  repeat match type of H with
  | mbind _ ?m = _ =>
    let E := fresh "E" in
    destruct m eqn:E; cbn [mbind result_bind] in H; try discriminate H
  end.

Lemma body_changes M scc variables names n w :
  pass_changes M scc variables w 0 →
  wrapped_SCC_body M scc variables names n w =
    if bool_decide (100 < n)
    then Exit (sweep M scc w) (Some (UpblkCyclicError (loop_message names)))
    else Continue (sweep M scc w).
Proof.
  unfold pass_changes, wrapped_SCC_body, sweep. simpl.
  destruct (run_blks M scc w) as [w' [e|]]; simpl; intros [H1 H2]; [done|].
  by rewrite H2.
Qed.

Lemma body_settles M scc variables names n w :
  pass_settles M scc variables w 0 →
  wrapped_SCC_body M scc variables names n w = Exit (sweep M scc w) None.
Proof.
  unfold pass_settles, wrapped_SCC_body, sweep. simpl.
  destruct (run_blks M scc w) as [w' [e|]]; simpl; intros [H1 H2]; [done|].
  by rewrite H2.
Qed.

Lemma pass_changes_shift M scc variables w k :
  pass_changes M scc variables w (S k) ↔ pass_changes M scc variables (sweep M scc w) k.
Proof. unfold pass_changes. by rewrite Nat.iter_succ_r. Qed.

Lemma pass_settles_shift M scc variables w k :
  pass_settles M scc variables w (S k) ↔ pass_settles M scc variables (sweep M scc w) k.
Proof. unfold pass_settles. by rewrite Nat.iter_succ_r. Qed.

(** A [Continue] is only taken while [num_iters] is at most 100. *)
Lemma body_continue M scc variables names n w w' :
  wrapped_SCC_body M scc variables names n w = Continue w' → n ≤ 100.
Proof.
  unfold wrapped_SCC_body.
  destruct (run_blks M scc w) as [w1 [e|]]; [done|].
  destruct (converged _ _ _ _); [done|].
  case_bool_decide; [done|lia].
Qed.

(** The loop budget is never exhausted: a larger one gives the same run. *)
Lemma wrapped_SCC_loop_fuel M scc variables names : ∀ fuel n w,
  101 ≤ n + fuel → 1 ≤ fuel →
  wrapped_SCC_loop M (S fuel) scc variables names n w =
  wrapped_SCC_loop M fuel scc variables names n w.
Proof.
  induction fuel as [|fuel IH]; intros n w Hn Hf; [lia|].
  cbn [wrapped_SCC_loop].
  destruct (wrapped_SCC_body M scc variables names (n + 1) w) as [w' e|w'] eqn:Hb; [done|].
  apply body_continue in Hb.
  apply (IH (n + 1) w'); lia.
Qed.

Lemma wrapped_SCC_any_fuel M scc variables names w fuel :
  101 ≤ fuel →
  wrapped_SCC_loop M fuel scc variables names 0 w = wrapped_SCC M scc variables names w.
Proof.
  intros H. unfold wrapped_SCC.
  replace fuel with ((fuel - 101) + 101) by lia.
  induction (fuel - 101) as [|d IH]; [done|].
  cbn [Nat.add]. rewrite wrapped_SCC_loop_fuel; [done|lia..].
Qed.


(** A loop whose first [k] passes change a trigger variable and whose next
    pass changes none returns in that pass. *)
Lemma loop_settles M scc variables names : ∀ k fuel n w,
  k < fuel → n + k ≤ 100 →
  (∀ j, j < k → pass_changes M scc variables w j) →
  pass_settles M scc variables w k →
  wrapped_SCC_loop M fuel scc variables names n w =
    (Nat.iter (k + 1) (sweep M scc) w, n + k + 1, None).
Proof.
  induction k as [|k IH]; intros fuel n w Hf Hn Hj Hs;
    (destruct fuel as [|fuel]; [lia|]); cbn [wrapped_SCC_loop].
  - rewrite body_settles by done. simpl. repeat (f_equal; try lia).
  - rewrite body_changes by (apply Hj; lia).
    case_bool_decide; [lia|].
    rewrite (IH fuel (n + 1) (sweep M scc w)); [| lia | lia | |].
    + rewrite <- Nat.iter_succ_r. repeat (f_equal; try lia).
    + intros j Hlt. apply pass_changes_shift, Hj. lia.
    + by apply pass_settles_shift.
Qed.

(** What [schedule_scc] appends for a non-trivial SCC. *)
Lemma schedule_scc_nontrivial top g SCCs scc_pred s i s' scc :
  SCCs !! i = Some scc → length scc ≠ 1 →
  schedule_scc top g SCCs scc_pred s i = Ok s' →
  ∃ tmp_schedule variables,
    trigger_variables g (constraint_objs (_dag top)) scc = Ok variables ∧
    variables ≠ [] ∧
    s' = {| sw_update_schedule :=
              sw_update_schedule s
              ++ [WrappedSCC (sw_scc_id s + 1) tmp_schedule variables
                             (scc_names (attrs top) scc)];
            sw_scc_id := sw_scc_id s + 1 |}.
Proof.
  intros Hi Hlen H. unfold schedule_scc in H. rewrite Hi in H.
  cbn [mbind result_bind] in H.
  assert (Hgen : (pred ← getitem scc_pred i;
                  Q ← entry_points (attrs top) g SCCs scc pred;
                  tmp_schedule ← intra_while (1 + length Q + length scc) (G g) scc Q
                                   (list_to_set Q) [];
                  let scc_id := sw_scc_id s + 1 in
                  variables ← trigger_variables g (constraint_objs (_dag top)) scc;
                  blk ← gen_wrapped_SCCblk tmp_schedule
                          {| src_id := scc_id; src_variables := variables;
                             src_names := scc_names (attrs top) scc |};
                  Ok {| sw_update_schedule := sw_update_schedule s ++ [blk];
                        sw_scc_id := scc_id |}) = Ok s').
  { destruct scc as [|u [|u' scc]]; [exact H|simpl in Hlen; lia|exact H]. }
  clear H. bind_inv Hgen. cbv zeta in Hgen. bind_inv Hgen.
  match goal with
  | Hb : gen_wrapped_SCCblk _ _ = Ok _ |- _ =>
    unfold gen_wrapped_SCCblk in Hb; case_bool_decide as Hc; [done|];
    inversion Hb; subst; clear Hb
  end.
  inversion Hgen; subst. cbn [src_id src_variables src_names].
  eexists _, _. split_and!; [done| |done].
  intros ->. by apply Hc.
Qed.

Lemma converged_spec M variables w w' :
  converged M variables (snapshot M w <$> variables) w' = true ↔
  ∀ var, var ∈ variables → py_eq M (read M var w') (snapshot M w var) = true.
Proof.
  unfold converged. induction variables as [|v vs IH]; simpl.
  - split; [|done]. intros _ var Hin. by apply elem_of_nil in Hin.
  - rewrite andb_true_iff, IH. split.
    + intros [H1 H2] var Hin. apply elem_of_cons in Hin as [->|Hin]; auto.
    + intros H. split; [apply H; left|intros var Hin; apply H; by right].
Qed.

Lemma converged_values M variables w w' :
  faithful_copies M →
  converged M variables (snapshot M w <$> variables) w' = true ↔
  ∀ var, var ∈ variables → read M var w' = read M var w.
Proof.
  intros HM. rewrite converged_spec.
  split; intros H var Hin; apply HM; auto.
Qed.

(** In [log_model] every pass of the two blocks of the cycle changes the
    trigger. *)
Lemma log_cycle_pass_changes w k :
  pass_changes Examples.log_model [Obj 2; Obj 1] [Examples.sig_x] w k.
Proof.
  unfold pass_changes. generalize (Nat.iter k (sweep Examples.log_model [Obj 2; Obj 1]) w).
  intros wk. split; [done|]. unfold converged, sweep. simpl.
  rewrite !length_app. simpl. rewrite andb_true_r. apply Nat.eqb_neq.
  unfold snapshot. simpl. unfold id. lia.
Qed.

(** ** C2: the bound of the divergence check *)




(** ** C9: the number of passes to convergence *)

(** C9: with triggers that change in each of the first [k] passes over the
    intra-SCC order and are left unchanged by the next one, the super-block
    returns after exactly [k + 1] passes, one more than it takes the
    triggers to settle.  For [k = 1] (the first pass of A and B changes
    [x], the second leaves it unchanged) it returns after two passes. *)
Theorem C9_one_pass_after_settling (M : Model) (scc : list obj)
    (variables : list SignalRef) (names : string) (w : World M) (k : nat) :
  faithful_copies M →
  k ≤ 100 →
  (∀ j, j ≤ k → (run_blks M scc (Nat.iter j (sweep M scc) w)).2 = None) →
  (∀ j, j < k → ∃ var, var ∈ variables ∧
                 read M var (Nat.iter (S j) (sweep M scc) w)
                 ≠ read M var (Nat.iter j (sweep M scc) w)) →
  (∀ var, var ∈ variables →
          read M var (Nat.iter (S k) (sweep M scc) w)
          = read M var (Nat.iter k (sweep M scc) w)) →
  wrapped_SCC M scc variables names w = (Nat.iter (k + 1) (sweep M scc) w, k + 1, None).
Proof.
  intros HM Hk Hrun Hchg Hset. unfold wrapped_SCC.
  rewrite (loop_settles M scc variables names k); [done|lia|lia| |].
  - intros j Hj. split; [apply Hrun; lia|].
    destruct (Hchg j Hj) as (var & Hin & Hne).
    apply not_true_is_false. intros Hc.
    pose proof (proj1 (converged_values M variables _ _ HM) Hc var Hin) as Heq.
    by apply Hne.
  - split; [apply Hrun; lia|].
    apply (converged_values M variables _ _ HM). exact Hset.
Qed.

Lemma C9_one_pass_after_settling_witness :
  wrapped_SCC Examples.latch_model [Obj 2; Obj 1] [Examples.sig_x] "b2, b1" 0 = (1, 2, None).
Proof.
  apply (C9_one_pass_after_settling Examples.latch_model [Obj 2; Obj 1]
           [Examples.sig_x] "b2, b1" 0 1).
  - intros var w w'. unfold snapshot. simpl. destruct (sig_kind var); apply Nat.eqb_eq.
  - lia.
  - intros j _. generalize (Nat.iter j (sweep Examples.latch_model [Obj 2; Obj 1]) 0).
    reflexivity.
  - intros j Hj. assert (j = 0) as -> by lia.
    exists Examples.sig_x. split; [left|]. vm_compute. discriminate.
  - intros var _. reflexivity.
Defined.

(** ** C8: how a trigger variable is copied and compared *)




(** ** C5: what the topological sort pops *)

(** The test of line 205 is made on the SCC number [m = Q[i]], which is
    never a key of the two mappings: the scan always stops at [Q[0]]. *)
Lemma pop_preferred_head mgm gmm m Q :
  pop_preferred mgm gmm (m :: Q) = Some (m, Q).
Proof. reflexivity. Qed.

(** C5 on the design [guarded]: the SCCs are {11} (the guard), {1} (the
    update block) and {10} (the method); the first frontier is [0; 1], the
    guard ahead of the update block, and the guard is scheduled first. *)
Lemma C5_guard_scheduled_before_update_block :
  ∃ s, OpenLoopCLPass_call true Examples.guarded = Ok s ∧
       SCCs s = [[Obj 11]; [Obj 1]; [Obj 10]] ∧
       guard_method_mapping (graph s) !! Obj 11 = Some (Obj 10) ∧
       method_guard_mapping (graph s) !! Obj 1 = None ∧
       guard_method_mapping (graph s) !! Obj 1 = None ∧
       pop_preferred (method_guard_mapping (graph s)) (guard_method_mapping (graph s)) [0; 1]
         = Some (0, [1]) ∧
       scc_schedule s = [0; 1; 2] ∧
       update_schedule s = [Blk (Obj 11); Blk (Obj 1); Blk (Obj 10)].
Proof. eexists. split; [vm_compute; reflexivity|]. vm_compute. by repeat split. Qed.

(** ** C3: what a wrapped invocation executes *)

Lemma advance_take_drop M snm : ∀ n i st,
  i + n ≤ length snm →
  advance M snm n i st =
  (let! _ := normal_tick M (take n (drop i snm)) in run_ret (i + n)) st.
Proof.
  induction n as [|n IH]; intros i st Hlen.
  - simpl. unfold run_bind, run_ret. simpl. by rewrite Nat.add_0_r.
  - destruct (lookup_lt_is_Some_2 snm i) as [blk Hblk]; [lia|].
    cbn [advance]. rewrite Hblk, (drop_S _ _ _ Hblk). cbn [take normal_tick].
    unfold run_bind.
    destruct (exec_block M blk st) as [st1 [[]|e]]; [|done].
    rewrite IH by lia. unfold run_bind, run_ret. rewrite Nat.add_1_r.
    destruct (normal_tick M (take n (drop (S i) snm)) st1) as [st2 [[]|e]]; [|done].
    by replace (S i + n) with (i + S n) by lia.
Qed.

(** [while i < bound] from a cursor at or beyond [bound] runs nothing. *)
Lemma run_while_lt_ge M snm i bound st :
  bound ≤ i → run_while_lt M snm i bound st = (st, Returned i).
Proof.
  intros H. unfold run_while_lt. by replace (bound - i) with 0 by lia.
Qed.

Lemma run_while_lt_blocks M snm i bound st :
  i ≤ bound → bound ≤ length snm →
  run_while_lt M snm i bound st =
  (let! _ := normal_tick M (take (bound - i) (drop i snm)) in run_ret bound) st.
Proof.
  intros H1 H2. unfold run_while_lt. rewrite advance_take_drop by lia.
  by replace (i + (bound - i)) with bound by lia.
Qed.

(** C3, as stated, fails: with the projection [b0, b1, b2, b3] and the
    cursor at (2, 3), invoking the port whose slot is 2 and whose target is
    2 does not just run the (empty) range from the cursor to the target:
    it runs b2, b3, b0, b1 and then the method. *)
Lemma C3_wrap_around_runs_whole_cycle :
  let st := @MkSim Examples.log_model [] 2 3 0 in
  let body := call_method Examples.log_model Examples.four_blocks (Raw (Obj 110)) in
  let r := call_method Examples.log_model Examples.four_blocks
             (Wrapped (Raw (Obj 110)) 2 2) tt st in
  world r.1 = [2; 3; 0; 1; 110] ∧
  world (window_call Examples.log_model body 2 Examples.four_blocks 2 tt st).1 = [110] ∧
  r ≠ window_call Examples.log_model body 2 Examples.four_blocks 2 tt st.
Proof. vm_compute. split_and!; [done..|]. intros H. discriminate H. Qed.

Lemma for_each_app {A S} (body : S → A → result S) l1 l2 s :
  for_each body (l1 ++ l2) s = (s' ← for_each body l1 s; for_each body l2 s').
Proof.
  revert s. induction l1 as [|x l1 IH]; intros s; simpl; [done|].
  destruct (body s x); simpl; auto.
Qed.

Section projection.
Context (a : ObjAttrs).
Local Abbreviation nc := (λ x : block, is_callee a x = false).

Lemma skip_callees_count rest k :
  ∃ d, skip_callees a rest k = k + d ∧ d ≤ length rest ∧
       filter nc (take d rest) = [] ∧
       ∀ x, rest !! d = Some x → is_callee a x = false.
Proof.
  revert k. induction rest as [|x rest IH]; intros k; simpl.
  - exists 0. split_and!; [lia|done|done|done].
  - destruct (is_callee a x) eqn:Hx.
    + destruct (IH (S k)) as (d & -> & Hd & Hf & Hl).
      exists (S d). split_and!; [lia|simpl; lia| |done].
      simpl. rewrite filter_cons_False by congruence. done.
    + exists 0. split_and!; [lia|lia|done|]. simpl. congruence.
Qed.

Lemma mapping_snoc (l : list block) x b :
  mapping (l ++ [x]) b = if decide (x = b) then Some (length l) else mapping l b.
Proof.
  unfold mapping. rewrite imap_app, foldl_app. simpl. by rewrite Nat.add_0_r.
Qed.

Lemma mapping_NoDup (l : list block) k b :
  NoDup l → l !! k = Some b → mapping l b = Some k.
Proof.
  revert k. induction l as [|x l IH] using rev_ind; intros k Hnd Hk; [done|].
  rewrite mapping_snoc. apply NoDup_app in Hnd as (Hnd & Hnin & _).
  apply lookup_app_Some in Hk as [Hk|[Hlen Hk]].
  - rewrite decide_False; [by apply IH|].
    intros ->. apply (Hnin b); [by eapply list_elem_of_lookup_2|by left].
  - destruct (k - length l) as [|n] eqn:Hn; [|done].
    simpl in Hk. inversion Hk; subst. rewrite decide_True by done.
    f_equal. lia.
Qed.

Lemma filter_lookup_index (l : list block) n b :
  l !! n = Some b → is_callee a b = false →
  filter nc l !! length (filter nc (take n l)) = Some b.
Proof.
  intros Hn Hb. set (k := length (filter nc (take n l))).
  rewrite <- (take_drop_middle l n b Hn). unfold k.
  rewrite filter_app, filter_cons_True by done.
  rewrite lookup_app_r by lia. by rewrite Nat.sub_diag.
Qed.

(** The target of the port at [p] is the number of projected blocks
    that precede it in the schedule. *)
Lemma target_index_spec schedule p x t :
  NoDup schedule → schedule !! p = Some x → is_callee a x = true →
  target_index a schedule (filter nc schedule) p = Some t →
  t = length (filter nc (take p schedule)) ∧ t < length (filter nc schedule).
Proof.
  intros Hnd Hp Hx. unfold target_index.
  destruct (skip_callees_count (drop (p + 1) schedule) (p + 1)) as (d & -> & Hd & Hf & Hl).
  destruct (schedule !! (p + 1 + d)) as [b|] eqn:Hb; [|done]. simpl.
  assert (is_callee a b = false) as Hncb.
  { apply Hl. by rewrite lookup_drop. }
  pose proof (filter_lookup_index schedule (p + 1 + d) b Hb Hncb) as Hidx.
  rewrite (mapping_NoDup _ _ _ (NoDup_filter _ _ Hnd) Hidx).
  intros Ht. inversion Ht; subst t. clear Ht.
  split; [|by eapply lookup_lt_Some].
  rewrite <- take_take_drop, filter_app, Hf, app_nil_r.
  rewrite Nat.add_1_r, (take_S_r _ _ _ Hp), filter_app.
  rewrite filter_cons_False by congruence. by rewrite app_nil_r.
Qed.

(** The projected blocks between two slots are the range of the
    projection between their targets. *)
Lemma projection_range schedule p1 p2 x1 :
  p1 < p2 → p2 ≤ length schedule →
  schedule !! p1 = Some x1 → is_callee a x1 = true →
  let t1 := length (filter nc (take p1 schedule)) in
  let t2 := length (filter nc (take p2 schedule)) in
  t1 ≤ t2 ∧
  take (t2 - t1) (drop t1 (filter nc schedule)) = blocks_between a schedule p1 p2.
Proof.
  intros Hlt Hlen Hp1 Hx1 t1 t2. unfold blocks_between.
  assert (Hsplit : take p2 schedule
                   = take (p1 + 1) schedule ++ drop (p1 + 1) (take p2 schedule)).
  { rewrite <- (take_drop (p1 + 1) (take p2 schedule)) at 1.
    by rewrite take_take, Nat.min_l by lia. }
  assert (Ht1 : filter nc (take (p1 + 1) schedule) = filter nc (take p1 schedule)).
  { rewrite Nat.add_1_r, (take_S_r _ _ _ Hp1), filter_app.
    rewrite filter_cons_False by congruence. by rewrite app_nil_r. }
  assert (Ht2 : filter nc (take p2 schedule)
                = filter nc (take p1 schedule)
                  ++ filter nc (drop (p1 + 1) (take p2 schedule))).
  { rewrite Hsplit at 1. by rewrite filter_app, Ht1. }
  assert (t2 = t1 + length (filter nc (drop (p1 + 1) (take p2 schedule)))) as Ht.
  { unfold t2, t1. by rewrite Ht2, length_app. }
  split; [lia|].
  rewrite <- (take_drop p2 schedule) at 1.
  rewrite filter_app, Ht2, <- app_assoc.
  rewrite drop_app_length' by done.
  rewrite take_app_length'; [done|lia].
Qed.

Local Arguments install_wrapper : simpl never.

(** The wrappers that the installation loop leaves on the ports of a
    duplicate-free schedule. *)
Lemma install_prefix schedule snm l rest :
  schedule = l ++ rest → NoDup l →
  ∀ ms, for_each (install_wrapper a schedule snm) (imap pair l) ∅ = Ok ms →
  (∀ p o, l !! p = Some (Blk o) → is_CalleePort a o = true →
          ∃ t, target_index a schedule snm p = Some t ∧
               ms !! o = Some (Wrapped (Raw (port_method a o)) t p)) ∧
  (∀ o, is_Some (ms !! o) → Blk o ∈ l).
Proof.
  intros Hs. revert rest Hs.
  induction l as [|x l IH] using rev_ind; intros rest Hs Hnd ms Hms.
  - simpl in Hms. inversion Hms; subst. split; [done|].
    intros o [? H]. by rewrite lookup_empty in H.
  - rewrite imap_app, for_each_app in Hms. simpl in Hms.
    rewrite Nat.add_0_r in Hms.
    apply NoDup_app in Hnd as (Hnd & Hnin & _).
    destruct (for_each (install_wrapper a schedule snm) (imap pair l) ∅)
      as [ms0| |] eqn:Hms0; cbn [mbind result_bind] in Hms; [|done..].
    destruct (IH (x :: rest)) with (ms := ms0) as [IH1 IH2];
      [by rewrite Hs, <- app_assoc|done|done|].
    assert (Hstep : install_wrapper a schedule snm ms0 (length l, x) = Ok ms).
    { destruct (install_wrapper a schedule snm ms0 (length l, x)); by simplify_eq/=. }
    clear Hms. unfold install_wrapper in Hstep.
    destruct x as [o'| |];
      [|inversion Hstep; subst ms; split;
        [intros p o Hp Hc; apply lookup_app_Some in Hp as [Hp|[_ Hp]];
         [by apply IH1|by destruct (p - length l) as [|[]]]
        |intros o Ho; apply elem_of_app; left; by apply IH2]..].
    destruct (is_CalleePort a o') eqn:Hc'.
    + fold (target_index a schedule snm (length l)) in Hstep.
      assert (ms0 !! o' = None) as Hnone.
      { destruct (ms0 !! o') eqn:Ho'; [|done].
        exfalso. apply (Hnin (Blk o')); [apply IH2; eauto|by left]. }
      rewrite Hnone in Hstep. simpl in Hstep.
      destruct (target_index a schedule snm (length l)) as [t|] eqn:Ht.
      2:{ unfold target_index in Ht.
          destruct (schedule !! skip_callees a (drop (length l + 1) schedule) (length l + 1));
            simpl in *; [destruct (mapping snm b); simplify_eq/=|simplify_eq/=]. }
      assert (ms = <[o' := Wrapped (Raw (port_method a o')) t (length l)]> ms0) as ->.
      { unfold target_index in Ht.
        destruct (schedule !! skip_callees a (drop (length l + 1) schedule) (length l + 1));
          simpl in *; [|done]. rewrite Ht in Hstep. by simplify_eq/=. }
      split.
      * intros p o Hp Hc. apply lookup_app_Some in Hp as [Hp|[Hlen Hp]].
        -- destruct (IH1 p o Hp Hc) as (t' & Ht' & Hm).
           exists t'. split; [done|]. rewrite lookup_insert_ne; [done|].
           intros ->. apply (Hnin (Blk o)); [by eapply list_elem_of_lookup_2|by left].
        -- destruct (p - length l) as [|n] eqn:Hn; [|by destruct n].
           simpl in Hp. inversion Hp; subst o'.
           assert (p = length l) as -> by lia.
           exists t. split; [done|]. by rewrite lookup_insert_eq.
      * intros o Ho. destruct (decide (o = o')) as [->|Hne].
        -- apply elem_of_app. right. by left.
        -- rewrite lookup_insert_ne in Ho by done.
           apply elem_of_app. left. by apply IH2.
    + inversion Hstep; subst ms. split.
      * intros p o Hp Hc. apply lookup_app_Some in Hp as [Hp|[_ Hp]]; [by apply IH1|].
        destruct (p - length l) as [|[]]; simpl in Hp; [|done..].
        inversion Hp; subst. congruence.
      * intros o Ho. apply elem_of_app. left. by apply IH2.
Qed.
End projection.

(** The stages of a pass that returns. *)
Lemma pass_inv lt top cs s :
  schedule_with_top_level_callee lt top cs = Ok s →
  ∃ InD sw,
    build_graph top cs = Ok (graph s) ∧
    kosaraju (graph s) (shuffle (randbelow top) (V (graph s))) = Ok (SCCs s, v_SCC s) ∧
    condense (length (SCCs s)) (E (graph s)) (v_SCC s) = Ok (G_new s, InD) ∧
    topo_sort (length (SCCs s)) (method_guard_mapping (graph s))
      (guard_method_mapping (graph s)) (G_new s) InD = Ok (scc_pred s, scc_schedule s) ∧
    for_each (schedule_scc top (graph s) (SCCs s) (scc_pred s)) (scc_schedule s)
      {| sw_update_schedule := []; sw_scc_id := 0 |} = Ok sw ∧
    update_schedule s = sw_update_schedule sw ∧
    schedule s =
      [Blk (clear_cl_trace (_tracing top))]
      ++ update_schedule s
      ++ (if lt then [PrintLineTrace] else [])
      ++ (Blk <$> schedule_ff top)
      ++ optional (vcd_func (_tracing top))
      ++ optional (collect_text_sigs (_tracing top))
      ++ (Blk <$> schedule_posedge_flip top) ∧
    schedule_no_method s = filter (λ x, is_callee (attrs top) x = false) (schedule s) ∧
    for_each (install_wrapper (attrs top) (schedule s) (schedule_no_method s))
      (imap pair (schedule s)) ∅ = Ok (methods s).
Proof.
  unfold schedule_with_top_level_callee. intros H.
  destruct (build_graph top cs) as [g| |] eqn:Hg; cbn [mbind result_bind] in H; [|done..].
  destruct (kosaraju g (shuffle (randbelow top) (V g))) as [[sccs vscc]| |] eqn:Hk;
    cbn [mbind result_bind] in H; [|done..].
  destruct (condense (length sccs) (E g) vscc) as [[gnew ind]| |] eqn:Hc;
    cbn [mbind result_bind] in H; [|done..].
  destruct (topo_sort (length sccs) (method_guard_mapping g) (guard_method_mapping g) gnew ind)
    as [[pred sched]| |] eqn:Ht; cbn [mbind result_bind] in H; [|done..].
  destruct (for_each (schedule_scc top g sccs pred) sched
              {| sw_update_schedule := []; sw_scc_id := 0 |}) as [sw| |] eqn:Hsw;
    cbn [mbind result_bind] in H; [|done..].
  cbv zeta in H.
  match type of H with
  | mbind _ ?m = _ => destruct m as [ms| |] eqn:Hms; cbn [mbind result_bind] in H; [|done..]
  end.
  inversion H; subst s; clear H. cbn.
  exists ind, sw. split_and!; done.
Qed.

Lemma advance_returned M snm : ∀ n i st st' r,
  advance M snm n i st = (st', Returned r) → r = i + n.
Proof.
  induction n as [|n IH]; intros i st st' r H; simpl in H.
  - inversion H. lia.
  - destruct (snm !! i) as [blk|]; [|done].
    unfold run_bind in H. destruct (exec_block M blk st) as [st1 [[]|e]]; [|done].
    apply IH in H. lia.
Qed.

(** C3, amended.  (1) A wrapped invocation made while its slot has not
    been passed in the current cycle ([orig_idx] at most its original
    index) executes exactly the projected blocks from the cursor up to, not
    including, its target index, then the method body, and returns without
    executing any further block.  (2) Made after its slot has been passed,
    it first executes the projected blocks from the cursor to the end of
    the projection, advances [num_cycles_executed], and then does the same
    from index 0.  (3) Consequently, on a schedule without repeated
    entries, when the port at original index [p1] has returned and the
    port at [p2 > p1] is invoked next, the second wrapper executes exactly
    the projected blocks whose original index lies strictly between [p1]
    and [p2], once each and in schedule order, before its method body. *)
Theorem C3_invocation_window (M : Model) :
  (∀ method my_idx_new snm my_idx_orig args st,
     orig_schedule_index st ≤ my_idx_orig →
     actual_method M method my_idx_new snm my_idx_orig args st =
     window_call M method my_idx_new snm my_idx_orig args st) ∧
  (∀ method my_idx_new snm my_idx_orig args st,
     my_idx_orig < orig_schedule_index st →
     actual_method M method my_idx_new snm my_idx_orig args st =
     (let! _ := run_while_lt M snm (new_schedule_index st) (length snm) in
      let! _ := incr_num_cycles_executed in
      let! i := run_while_lt M snm 0 my_idx_new in
      let! ret := method args in
      let! _ := store_indices i (my_idx_orig + 1) in
      run_ret ret) st) ∧
  (∀ lt top cs s p1 p2 o1 o2,
     schedule_with_top_level_callee lt top cs = Ok s →
     NoDup (schedule s) →
     p1 < p2 →
     schedule s !! p1 = Some (Blk o1) → is_CalleePort (attrs top) o1 = true →
     schedule s !! p2 = Some (Blk o2) → is_CalleePort (attrs top) o2 = true →
     ∃ t1 t2,
       methods s !! o1 = Some (Wrapped (Raw (port_method (attrs top) o1)) t1 p1) ∧
       methods s !! o2 = Some (Wrapped (Raw (port_method (attrs top) o2)) t2 p2) ∧
       (∀ args st st1 r,
          p1 < orig_schedule_index st ∨ new_schedule_index st ≤ t1 →
          call_method M (schedule_no_method s)
            (Wrapped (Raw (port_method (attrs top) o1)) t1 p1) args st = (st1, Returned r) →
          new_schedule_index st1 = t1 ∧ orig_schedule_index st1 = p1 + 1) ∧
       (∀ args st,
          new_schedule_index st = t1 → orig_schedule_index st = p1 + 1 →
          call_method M (schedule_no_method s)
            (Wrapped (Raw (port_method (attrs top) o2)) t2 p2) args st =
          (let! _ := normal_tick M (blocks_between (attrs top) (schedule s) p1 p2) in
           let! ret := call_method M (schedule_no_method s)
                         (Raw (port_method (attrs top) o2)) args in
           let! _ := store_indices t2 (p2 + 1) in
           run_ret ret) st)).
Proof.
  assert (Hnowrap : ∀ method my_idx_new snm my_idx_orig args st,
     orig_schedule_index st ≤ my_idx_orig →
     actual_method M method my_idx_new snm my_idx_orig args st =
     window_call M method my_idx_new snm my_idx_orig args st).
  { intros method t snm p args st Hle. unfold actual_method, window_call.
    rewrite bool_decide_eq_false_2 by lia. reflexivity. }
  assert (Hwrap : ∀ method my_idx_new snm my_idx_orig args st,
     my_idx_orig < orig_schedule_index st →
     actual_method M method my_idx_new snm my_idx_orig args st =
     (let! _ := run_while_lt M snm (new_schedule_index st) (length snm) in
      let! _ := incr_num_cycles_executed in
      let! i := run_while_lt M snm 0 my_idx_new in
      let! ret := method args in
      let! _ := store_indices i (my_idx_orig + 1) in
      run_ret ret) st).
  { intros method t snm p args st Hlt. unfold actual_method.
    rewrite bool_decide_eq_true_2 by lia. unfold run_bind at 1 2 7.
    destruct (run_while_lt M snm (new_schedule_index st) (length snm) st)
      as [st1 [i1|e1]]; reflexivity. }
  split_and!; [exact Hnowrap|exact Hwrap|].
  intros lt top cs s p1 p2 o1 o2 Hpass Hnd Hlt Hp1 Hc1 Hp2 Hc2.
  destruct (pass_inv _ _ _ _ Hpass) as (InD & sw & _ & _ & _ & _ & _ & _ & _ & Hsnm & Hinst).
  destruct (install_prefix (attrs top) (schedule s) (schedule_no_method s) (schedule s) [])
    with (ms := methods s) as [Hw _]; [by rewrite app_nil_r|done|done|].
  destruct (Hw p1 o1 Hp1 Hc1) as (t1 & Ht1 & Hm1).
  destruct (Hw p2 o2 Hp2 Hc2) as (t2 & Ht2 & Hm2).
  rewrite Hsnm in Ht1, Ht2.
  apply (target_index_spec (attrs top) (schedule s) p1 (Blk o1)) in Ht1 as [Ht1 Hb1];
    [|done..].
  apply (target_index_spec (attrs top) (schedule s) p2 (Blk o2)) in Ht2 as [Ht2 Hb2];
    [|done..].
  destruct (projection_range (attrs top) (schedule s) p1 p2 (Blk o1)) as [Hle Hrange];
    [lia|apply Nat.lt_le_incl; by eapply lookup_lt_Some|done|done|].
  cbv zeta in Hle, Hrange. rewrite <- Ht1, <- Ht2 in Hle, Hrange.
  exists t1, t2. split_and!; [done|done| |].
  - intros args st st1 r Hcur Hcall. cbn [call_method] in Hcall.
    destruct (decide (p1 < orig_schedule_index st)) as [Hw1|Hw1].
    + rewrite Hwrap in Hcall by done. unfold run_bind in Hcall.
      destruct (run_while_lt M (schedule_no_method s) (new_schedule_index st)
                  (length (schedule_no_method s)) st) as [sa [ia|ea]]; [|done].
      cbn [incr_num_cycles_executed] in Hcall.
      match type of Hcall with
      | context [run_while_lt M ?l 0 t1 ?x] =>
        destruct (run_while_lt M l 0 t1 x) as [sb [ib|eb]] eqn:Hadv; [|done]
      end.
      apply advance_returned in Hadv.
      match type of Hcall with
      | context [call_raw M ?o ?ar ?w] => destruct (call_raw M o ar w) as [wc [rc|ec]]
      end; [|done].
      cbn in Hcall. inversion Hcall; subst. cbn. split; lia.
    + rewrite Hnowrap in Hcall by lia. unfold window_call, run_bind in Hcall.
      destruct (run_while_lt M (schedule_no_method s) (new_schedule_index st) t1 st)
        as [sb [ib|eb]] eqn:Hadv; [|done].
      apply advance_returned in Hadv.
      match type of Hcall with
      | context [call_raw M ?o ?ar ?w] => destruct (call_raw M o ar w) as [wc [rc|ec]]
      end; [|done].
      cbn in Hcall. inversion Hcall; subst. cbn. split; lia.
  - intros args st Hi Hj. cbn [call_method].
    rewrite Hnowrap by lia. unfold window_call.
    rewrite Hi. unfold run_bind at 1.
    rewrite run_while_lt_blocks by (rewrite ?Hsnm; lia).
    rewrite Hsnm at 1. rewrite Hrange.
    unfold run_bind, run_ret.
    destruct (normal_tick M (blocks_between (attrs top) (schedule s) p1 p2) st)
      as [sa [[]|ea]]; reflexivity.
Qed.

Lemma C3_invocation_window_witness :
  let s := Examples.guarded_scheduled in
  schedule_with_top_level_callee true Examples.guarded [] = Ok s ∧
  schedule s = [Blk (Obj 50); Blk (Obj 11); Blk (Obj 1); Blk (Obj 10); PrintLineTrace] ∧
  blocks_between (attrs Examples.guarded) (schedule s) 1 3 = [Blk (Obj 1)] ∧
  ∃ t1 t2,
    methods s !! Obj 11 = Some (Wrapped (Raw (Obj 111)) t1 1) ∧
    methods s !! Obj 10 = Some (Wrapped (Raw (Obj 110)) t2 3) ∧
    (∀ args st st1 r,
       1 < orig_schedule_index st ∨ new_schedule_index st ≤ t1 →
       call_method Examples.log_model (schedule_no_method s)
         (Wrapped (Raw (Obj 111)) t1 1) args st = (st1, Returned r) →
       new_schedule_index st1 = t1 ∧ orig_schedule_index st1 = 1 + 1) ∧
    (∀ args st,
       new_schedule_index st = t1 → orig_schedule_index st = 1 + 1 →
       call_method Examples.log_model (schedule_no_method s)
         (Wrapped (Raw (Obj 110)) t2 3) args st =
       (let! _ := normal_tick Examples.log_model [Blk (Obj 1)] in
        let! ret := call_method Examples.log_model (schedule_no_method s)
                      (Raw (Obj 110)) args in
        let! _ := store_indices t2 (3 + 1) in
        run_ret ret) st).
Proof.
  assert (Hpass : schedule_with_top_level_callee true Examples.guarded []
                  = Ok Examples.guarded_scheduled) by (vm_compute; reflexivity).
  assert (Hnd : NoDup (schedule Examples.guarded_scheduled))
    by (apply (bool_decide_unpack _); vm_compute; exact I).
  split_and!; [exact Hpass|vm_compute; reflexivity|vm_compute; reflexivity|].
  destruct (C3_invocation_window Examples.log_model) as (_ & _ & H).
  exact (H true Examples.guarded [] Examples.guarded_scheduled 1 3 (Obj 11) (Obj 10)
           Hpass Hnd ltac:(lia) eq_refl eq_refl eq_refl eq_refl).
Defined.

(** On [guarded], invoking the guard and then the method from the state
    the pass leaves runs [clear_cl_trace], the guard, the update block and
    the method, and leaves the cursor at (2, 4, 0). *)
Lemma guarded_two_invocations :
  let s := Examples.guarded_scheduled in
  let call o := call_method Examples.log_model (schedule_no_method s)
                  (default (Raw o) (methods s !! o)) tt in
  let st := (let! _ := call (Obj 11) in call (Obj 10)) (@initial Examples.log_model []) in
  world st.1 = [50; 111; 1; 110] ∧ cursor st.1 = (2, 4, 0).
Proof. vm_compute. by split. Qed.

(** ** The topological sort *)

Lemma filter_ext_in {A} (P1 P2 : A → Prop) `{!∀ x, Decision (P1 x), !∀ x, Decision (P2 x)}
    (l : list A) :
  (∀ x, x ∈ l → P1 x ↔ P2 x) → filter P1 l = filter P2 l.
Proof.
  induction l as [|x l IH]; intros Hext; [done|].
  rewrite !filter_cons. rewrite IH by (intros y Hy; apply Hext; by right).
  destruct (decide (P1 x)) as [H1|H1], (decide (P2 x)) as [H2|H2]; try done.
  - exfalso. apply H2, Hext; [by left|done].
  - exfalso. apply H1, Hext; [by left|done].
Qed.

Lemma filter_none {A} (P : A → Prop) `{!∀ x, Decision (P x)} (l : list A) :
  (∀ x, x ∈ l → ¬ P x) → filter P l = [].
Proof.
  induction l as [|x l IH]; intros Hno; [done|].
  rewrite filter_cons_False by (apply Hno; by left).
  apply IH. intros y Hy. apply Hno. by right.
Qed.

(** Counting inside a larger duplicate-free list. *)
Lemma count_sub {A} (P : A → Prop) `{!∀ x, Decision (P x)} (l k : list A) :
  NoDup l → (∀ x, x ∈ l → x ∈ k) →
  length (filter P l) ≤ length (filter P k) ∧
  (length (filter P l) = length (filter P k) → ∀ a, a ∈ k → P a → a ∈ l).
Proof.
  intros Hl Hsub.
  assert (filter P l ⊆+ filter P k) as Hs.
  { apply NoDup_submseteq; [apply NoDup_filter, Hl|].
    intros x [HPx Hx]%list_elem_of_filter. apply list_elem_of_filter. auto. }
  split; [by apply submseteq_length|].
  intros Hlen a Ha HP.
  assert (a ∈ filter P l) as Hin.
  { rewrite (submseteq_length_Permutation _ _ Hs) by lia.
    by apply list_elem_of_filter. }
  by apply list_elem_of_filter in Hin as [_ ?].
Qed.

(** Making [P] true at one more element of a duplicate-free list. *)
Lemma count_one_more {A} `{EqDecision A} (P P' : A → Prop)
    `{!∀ x, Decision (P x), !∀ x, Decision (P' x)} (l : list A) (a : A) :
  NoDup l → a ∈ l → ¬ P a → P' a → (∀ x, x ≠ a → P' x ↔ P x) →
  length (filter P' l) = S (length (filter P l)).
Proof.
  intros Hnd Hin HPa HP'a Hext.
  induction l as [|x l IH]; [by apply elem_of_nil in Hin|].
  apply NoDup_cons in Hnd as [Hx Hnd].
  destruct (decide (x = a)) as [->|Hne].
  - rewrite filter_cons_True, filter_cons_False by done. simpl. f_equal. f_equal.
    apply filter_ext_in. intros y Hy. apply Hext. intros ->. done.
  - apply elem_of_cons in Hin as [->|Hin]; [done|].
    rewrite !filter_cons.
    destruct (decide (P' x)) as [H1|H1], (decide (P x)) as [H2|H2]; simpl;
      rewrite ?IH by done; try done.
    + exfalso. apply H2, Hext; done.
    + exfalso. apply H1, Hext; done.
Qed.

Lemma preds_in_snoc G_new l u b :
  preds_in G_new (l ++ [u]) b
  = preds_in G_new l b + (if decide (b ∈ succs G_new u) then 1 else 0).
Proof.
  unfold preds_in. rewrite filter_app, length_app. f_equal.
  rewrite filter_cons, filter_nil. by destruct (decide (b ∈ succs G_new u)).
Qed.

Lemma relax_inv u s v s' :
  relax u s v = Ok s' →
  ∃ d, ts_InD s !! v = Some d ∧
       ts_InD s' = <[v := (d - 1)%Z]> (ts_InD s) ∧
       ts_Q s' = ts_Q s ++ (if bool_decide (d = 1%Z) then [v] else []) ∧
       ts_schedule s' = ts_schedule s ∧ ts_u s' = ts_u s.
Proof.
  unfold relax, getitem. intros H.
  destruct (ts_InD s !! v) as [d|]; [|done]. cbn [mbind result_bind] in H.
  exists d. destruct (decide (d = 1%Z)) as [Hd|Hd].
  - rewrite bool_decide_eq_true_2 in H by lia. rewrite bool_decide_eq_true_2 by done.
    by inversion H; subst.
  - rewrite bool_decide_eq_false_2 in H by lia. rewrite bool_decide_eq_false_2 by done.
    inversion H; subst; simpl. by rewrite app_nil_r.
Qed.

(** The effect of the whole loop [for v in G_new[u]]. *)
Lemma relax_all u l : ∀ s s',
  NoDup l → for_each (relax u) l s = Ok s' →
  ts_schedule s' = ts_schedule s ∧ ts_u s' = ts_u s ∧
  ts_Q s' = ts_Q s ++ filter (λ v, ts_InD s !! v = Some 1%Z) l ∧
  ∀ b, ts_InD s' !! b =
       if decide (b ∈ l) then (λ d, (d - 1)%Z) <$> ts_InD s !! b else ts_InD s !! b.
Proof.
  induction l as [|x l IH]; intros s s' Hnd H.
  - inversion H; subst. rewrite filter_nil, app_nil_r. split_and!; [done..|].
    intros b. rewrite decide_False; [done|]. apply not_elem_of_nil.
  - apply NoDup_cons in Hnd as [Hx Hnd]. simpl in H.
    destruct (relax u s x) as [s1| |] eqn:H1; cbn [mbind result_bind] in H; [|done..].
    apply relax_inv in H1 as (d & Hd & HI & HQ & HS & HU).
    destruct (IH _ _ Hnd H) as (HS' & HU' & HQ' & HI').
    split_and!; [congruence|congruence| |].
    + rewrite HQ', HQ, <- app_assoc. f_equal.
      rewrite filter_cons.
      rewrite (filter_ext_in (λ v, ts_InD s1 !! v = Some 1%Z)
                             (λ v, ts_InD s !! v = Some 1%Z)).
      2:{ intros y Hy. rewrite HI, lookup_insert_ne; [done|]. intros ->. done. }
      case_bool_decide as Hd1.
      * subst d. rewrite decide_True by done. done.
      * rewrite decide_False; [done|]. rewrite Hd. intros Heq. by inversion Heq.
    + intros b. rewrite HI'. destruct (decide (b = x)) as [->|Hne].
      * rewrite decide_False by done. rewrite decide_True by (by left).
        rewrite HI, lookup_insert_eq, Hd. done.
      * rewrite HI, lookup_insert_ne by done.
        destruct (decide (b ∈ l)) as [Hl|Hl].
        -- rewrite decide_True by (by right). done.
        -- rewrite decide_False; [done|]. by intros [?|?]%elem_of_cons.
Qed.

Section kahn.
Context (mgm gmm : gmap obj obj) (G_new : gmap nat (list nat)) (n : nat) (InD0 : gmap nat Z).
Hypothesis wf : wf_condensed n G_new InD0.

Local Abbreviation tot := (preds_in G_new (seq 0 n)).
Local Abbreviation cnt := (preds_in G_new).

Lemma cnt_bound l b :
  NoDup l → (∀ x, x ∈ l → x < n) →
  cnt l b ≤ tot b ∧ (cnt l b = tot b → ∀ a, a < n → b ∈ succs G_new a → a ∈ l).
Proof.
  intros Hnd Hr. unfold preds_in.
  destruct (count_sub (λ a, b ∈ succs G_new a) l (seq 0 n) Hnd) as [H1 H2].
  { intros x Hx. apply elem_of_seq. specialize (Hr x Hx). lia. }
  split; [done|]. intros Heq a Ha Hb. apply H2; [done| |done].
  apply elem_of_seq. lia.
Qed.

Lemma succs_lookup a l : G_new !! a = Some l → succs G_new a = l.
Proof. unfold succs. by intros ->. Qed.

(** One iteration of [while Q] keeps the invariant. *)
Lemma topo_step_inv s s' :
  topo_inv n G_new s → ts_Q s ≠ [] →
  topo_step mgm gmm G_new s = Ok s' → topo_inv n G_new s'.
Proof.
  intros [Hnd Hr HI Hrdy Hord] HQ Hstep.
  destruct (ts_Q s) as [|u Q'] eqn:EQ; [done|]. clear HQ.
  unfold topo_step in Hstep. rewrite EQ, pop_preferred_head in Hstep.
  cbn [ts_u] in Hstep. unfold getitem in Hstep.
  destruct (G_new !! u) as [l|] eqn:Hl; cbn [mbind result_bind] in Hstep; [|done].
  destruct (wf_sets _ _ _ wf u l Hl) as [Hlnd Hlr].
  pose proof (succs_lookup _ _ Hl) as Hsu.
  apply relax_all in Hstep as (HS & _ & HQ' & HI'); [|done].
  cbn [ts_schedule ts_Q ts_InD] in HS, HQ', HI'.
  assert (Hu : u < n) by (apply Hr; rewrite elem_of_app, elem_of_cons; auto).
  assert (Hnd' : NoDup (ts_schedule s ++ [u])).
  { rewrite cons_middle, app_assoc in Hnd. by apply NoDup_app in Hnd as [? _]. }
  assert (Hr' : ∀ x, x ∈ ts_schedule s ++ [u] → x < n).
  { intros x Hx. apply Hr. rewrite cons_middle, app_assoc, elem_of_app. by left. }
  assert (Hold : ∀ b, b ∈ ts_schedule s ++ u :: Q' ↔ b ∈ (ts_schedule s ++ [u]) ++ Q').
  { intros b. by rewrite <- app_assoc. }
  assert (Hone : ∀ b, b < n → ts_InD s !! b = Some 1%Z ↔ cnt (ts_schedule s) b + 1 = tot b).
  { intros b Hb. rewrite (HI b Hb).
    destruct (cnt_bound (ts_schedule s) b) as [Hle _].
    { rewrite cons_middle, app_assoc in Hnd.
      apply NoDup_app in Hnd as [Hnd _]. by apply NoDup_app in Hnd as [? _]. }
    { intros x Hx. apply Hr. rewrite elem_of_app. by left. }
    split; [intros Heq; inversion Heq; lia|intros Heq; f_equal; lia]. }
  split.
  - (* no repetition *)
    rewrite HS, HQ'. rewrite app_assoc. apply NoDup_app. split_and!.
    + by rewrite <- app_assoc.
    + intros x Hx Hf. apply list_elem_of_filter in Hf as [Hx1 Hxl].
      pose proof (Hlr x Hxl) as Hxn.
      apply Hold, (Hrdy x Hxn) in Hx. apply (Hone x Hxn) in Hx1. lia.
    + apply NoDup_filter, Hlnd.
  - (* range *)
    intros x. rewrite HS, HQ', app_assoc, elem_of_app.
    intros [Hx|Hx]; [by apply Hr, Hold|].
    apply list_elem_of_filter in Hx as [_ Hx]. by apply Hlr.
  - (* the counters *)
    intros b Hb. rewrite HI', HS, preds_in_snoc, Hsu, (HI b Hb).
    destruct (decide (b ∈ l)); simpl; f_equal; lia.
  - (* the frontier holds exactly the SCCs without pending predecessor *)
    intros b Hb. rewrite HS, HQ', preds_in_snoc, Hsu.
    destruct (cnt_bound (ts_schedule s ++ [u]) b Hnd' Hr') as [Hle _].
    rewrite preds_in_snoc, Hsu in Hle.
    rewrite app_assoc, elem_of_app, <- Hold, (Hrdy b Hb), list_elem_of_filter,
      (Hone b Hb).
    destruct (decide (b ∈ l)); split; intros H; intuition lia.
  - (* the order *)
    intros j b Hj a Ha Hba. rewrite HS in Hj |- *.
    apply lookup_app_Some in Hj as [Hj|[Hlen Hj]].
    + destruct (Hord j b Hj a Ha Hba) as (i & Hi & Hia).
      exists i. split; [done|]. by apply lookup_app_l_Some.
    + destruct (j - length (ts_schedule s)) as [|k] eqn:Hk; [|by destruct k].
      simpl in Hj. inversion Hj; subst b.
      assert (u ∈ ts_schedule s ++ u :: Q') as Huin
        by (rewrite elem_of_app, elem_of_cons; auto).
      apply (Hrdy u Hu) in Huin.
      destruct (cnt_bound (ts_schedule s) u) as [_ Hall].
      { rewrite cons_middle, app_assoc in Hnd.
        apply NoDup_app in Hnd as [Hnd _]. by apply NoDup_app in Hnd as [? _]. }
      { intros x Hx. apply Hr. rewrite elem_of_app. by left. }
      specialize (Hall Huin a Ha Hba).
      apply list_elem_of_lookup_1 in Hall as [i Hi].
      exists i. split; [|by apply lookup_app_l_Some].
      apply lookup_lt_Some in Hi. lia.
Qed.

Lemma topo_while_inv fuel : ∀ s s',
  topo_inv n G_new s → topo_while fuel mgm gmm G_new s = Ok s' →
  topo_inv n G_new s' ∧ ts_Q s' = [].
Proof.
  induction fuel as [|fuel IH]; intros s s' Hinv H.
  - simpl in H. destruct (ts_Q s) eqn:EQ; [|done]. by inversion H; subst.
  - simpl in H. destruct (ts_Q s) as [|u Q'] eqn:EQ; [by inversion H; subst|].
    destruct (topo_step mgm gmm G_new s) as [s1| |] eqn:Hstep;
      cbn [mbind result_bind] in H; [|done..].
    apply (IH s1); [|done]. eapply topo_step_inv; [done| |done]. by rewrite EQ.
Qed.

(** The first frontier: the SCCs whose in-degree is 0, in increasing order. *)
Lemma initial_frontier l : ∀ Q Q',
  for_each (λ Q i, d ← getitem InD0 i;
                   Ok (if bool_decide (d = 0%Z) then Q ++ [i] else Q)) l Q = Ok Q' →
  Q' = Q ++ filter (λ i, InD0 !! i = Some 0%Z) l.
Proof.
  induction l as [|x l IH]; intros Q Q' H.
  - inversion H. by rewrite filter_nil, app_nil_r.
  - simpl in H.
    destruct (getitem InD0 x) as [d| |] eqn:Hg; cbn [mbind result_bind] in H; [|done..].
    unfold getitem in Hg. destruct (InD0 !! x) as [d'|] eqn:Hd; [|done].
    inversion Hg; subst d'. clear Hg.
    apply IH in H. subst Q'. rewrite filter_cons.
    case_bool_decide as H0.
    + subst d. rewrite decide_True by done. rewrite <- app_assoc. reflexivity.
    + rewrite decide_False; [done|]. intros Heq. rewrite Hd in Heq. by inversion Heq.
Qed.

(** The sort lists every SCC once, predecessors first. *)
Lemma topo_sort_sorted pred sched :
  topo_sort n mgm gmm G_new InD0 = Ok (pred, sched) →
  NoDup sched ∧ length sched = n ∧ (∀ c, c ∈ sched ↔ c < n) ∧
  ∀ a b, a < n → b ∈ succs G_new a →
         ∃ i j, i < j ∧ sched !! i = Some a ∧ sched !! j = Some b.
Proof.
  unfold topo_sort. intros H.
  match type of H with
  | mbind _ ?m = _ => destruct m as [Q| |] eqn:HQ; cbn [mbind result_bind] in H; [|done..]
  end.
  apply initial_frontier in HQ. simpl in HQ. cbv zeta in H.
  match type of H with
  | mbind _ ?m = _ => destruct m as [s| |] eqn:Hs; cbn [mbind result_bind] in H; [|done..]
  end.
  unfold py_assert in H. case_bool_decide as Hlen; cbn [mbind result_bind] in H; [|done].
  inversion H; subst pred sched; clear H.
  apply topo_while_inv in Hs as [[Hnd Hr HI Hrdy Hord] HQ'].
  2:{ subst Q. split; cbn [ts_schedule ts_Q ts_InD].
      - simpl. apply NoDup_filter, NoDup_seq.
      - intros x [_ Hx]%list_elem_of_filter. apply elem_of_seq in Hx. lia.
      - intros b Hb. rewrite (wf_InD _ _ _ wf b Hb).
        change (preds_in G_new [] b) with 0. f_equal. lia.
      - intros b Hb. simpl. rewrite list_elem_of_filter, (wf_InD _ _ _ wf b Hb), elem_of_seq.
        change (preds_in G_new [] b) with 0. split.
        + intros [Heq _]. inversion Heq. lia.
        + intros Heq. split; [f_equal; lia|lia].
      - intros j b Hj. done. }
  rewrite HQ', app_nil_r in Hnd, Hr, Hrdy.
  assert (Hall : ∀ c, c ∈ ts_schedule s ↔ c < n).
  { intros c. split; [apply Hr|]. intros Hc.
    assert (ts_schedule s ⊆+ seq 0 n) as Hsub.
    { apply NoDup_submseteq; [done|]. intros x Hx. apply elem_of_seq.
      specialize (Hr x Hx). lia. }
    rewrite (submseteq_length_Permutation _ _ Hsub) by (rewrite length_seq; lia).
    apply elem_of_seq. lia. }
  split_and!; [done|done|done|].
  intros a b Ha Hb.
  assert (b < n) as Hbn.
  { unfold succs in Hb. destruct (G_new !! a) as [l|] eqn:Hl; [|by apply elem_of_nil in Hb].
    by apply (wf_sets _ _ _ wf a l Hl). }
  apply Hall, list_elem_of_lookup_1 in Hbn as [j Hj].
  destruct (Hord j b Hj a Ha Hb) as (i & Hi & Hia). eauto.
Qed.
End kahn.

(** ** The condensation *)

Lemma dict_range_lookup {A} n (x : A) a :
  dict_range n x !! a = if decide (a < n) then Some x else None.
Proof.
  unfold dict_range.
  assert (Hfst : ((λ i, (i, x)) <$> seq 0 n).*1 = seq 0 n).
  { rewrite <- list_fmap_compose. apply list_fmap_id. }
  destruct (decide (a < n)) as [Ha|Ha].
  - apply elem_of_list_to_map_1; [rewrite Hfst; apply NoDup_seq|].
    apply list_elem_of_fmap. exists a. split; [done|]. apply elem_of_seq. lia.
  - apply not_elem_of_list_to_map_1. rewrite Hfst, elem_of_seq. lia.
Qed.

Lemma for_each_invariant {A S} (P : S → Prop) (R : S → A → Prop)
    (body : S → A → result S) (l : list A) :
  (∀ s x s', P s → body s x = Ok s' → P s' ∧ R s' x ∧ ∀ y, R s y → R s' y) →
  ∀ s s', P s → for_each body l s = Ok s' →
          P s' ∧ (∀ y, R s y → R s' y) ∧ ∀ x, x ∈ l → R s' x.
Proof.
  intros Hstep. induction l as [|x l IH]; intros s s' HP H.
  - inversion H; subst. split_and!; [done|done|]. intros x Hx. by apply elem_of_nil in Hx.
  - simpl in H. destruct (body s x) as [s1| |] eqn:Hb; cbn [mbind result_bind] in H; [|done..].
    destruct (Hstep _ _ _ HP Hb) as (HP1 & HR1 & Hm1).
    destruct (IH _ _ HP1 H) as (HP' & Hm' & HR').
    split_and!; [done|auto|].
    intros y [->|Hy]%elem_of_cons; auto.
Qed.

Lemma succs_insert_eq G a l : succs (<[a := l]> G) a = l.
Proof. unfold succs. by rewrite lookup_insert_eq. Qed.

Lemma succs_insert_ne G a l x : x ≠ a → succs (<[a := l]> G) x = succs G x.
Proof. intros. unfold succs. by rewrite lookup_insert_ne. Qed.

(** One edge of [E] keeps the condensed graph well formed and is recorded. *)
Lemma condense_edge_inv n v_SCC G I e G' I' :
  wf_condensed n G I →
  condense_edge v_SCC (G, I) e = Ok (G', I') →
  wf_condensed n G' I' ∧ edge_condensed n v_SCC G' e ∧
  ∀ a b, b ∈ succs G a → b ∈ succs G' a.
Proof.
  intros Hwf H. destruct e as [u v]. unfold condense_edge in H.
  destruct (getitem v_SCC u) as [cu| |] eqn:Hu; cbn [mbind result_bind] in H; [|done..].
  destruct (getitem v_SCC v) as [cv| |] eqn:Hv; cbn [mbind result_bind] in H; [|done..].
  unfold getitem in Hu, Hv.
  destruct (v_SCC !! u) as [cu'|] eqn:Hu'; [|done]. inversion Hu; subst cu'. clear Hu.
  destruct (v_SCC !! v) as [cv'|] eqn:Hv'; [|done]. inversion Hv; subst cv'. clear Hv.
  case_bool_decide as Hne.
  2:{ inversion H; subst G' I'. split_and!; [done| |done].
      exists cu, cv. simpl. split_and!; [done|done|]. intros ?. done. }
  destruct (getitem G cu) as [L| |] eqn:HL; cbn [mbind result_bind] in H; [|done..].
  unfold getitem in HL.
  destruct (G !! cu) as [L'|] eqn:HL'; [|done]. inversion HL; subst L'. clear HL.
  assert (Hcu : cu < n) by (apply (wf_dom _ _ _ Hwf); eauto).
  destruct (wf_sets _ _ _ Hwf cu L HL') as [HLnd HLr].
  assert (HsL : succs G cu = L) by (unfold succs; by rewrite HL').
  case_bool_decide as Hnin.
  - destruct (getitem I cv) as [d| |] eqn:Hd; cbn [mbind result_bind] in H; [|done..].
    unfold getitem in Hd. destruct (I !! cv) as [d'|] eqn:Hd'; [|done].
    inversion Hd; subst d'. clear Hd. inversion H; subst G' I'. clear H.
    assert (Hcv : cv < n) by (apply (wf_InD_dom _ _ _ Hwf); eauto).
    assert (Hadd : set_add cv L = L ++ [cv]) by (unfold set_add; by rewrite decide_False).
    rewrite Hadd. split_and!.
    + split.
      * intros a. rewrite lookup_insert_is_Some, <- (wf_dom _ _ _ Hwf).
        split; [intros [->|[_ ?]]; eauto|]. intros Ha.
        destruct (decide (cu = a)); auto.
      * intros a l. destruct (decide (a = cu)) as [->|Hac].
        -- rewrite lookup_insert_eq. intros Heq. inversion Heq; subst l. split.
           ++ apply NoDup_app. split_and!; [done| |apply NoDup_singleton].
              intros x Hx Hx'%list_elem_of_singleton. by subst x.
           ++ intros b [Hb|Hb%list_elem_of_singleton]%elem_of_app; [auto|by subst b].
        -- rewrite lookup_insert_ne by done. apply (wf_sets _ _ _ Hwf).
      * intros b. rewrite lookup_insert_is_Some.
        intros [<-|[_ Hb]]; [done|]. by apply (wf_InD_dom _ _ _ Hwf).
      * intros b Hb. destruct (decide (b = cv)) as [->|Hbc].
        -- rewrite lookup_insert_eq. f_equal.
           rewrite (wf_InD _ _ _ Hwf cv Hcv) in Hd'. inversion Hd'; subst d.
           unfold preds_in.
           rewrite (count_one_more (λ a, cv ∈ succs G a)
                      (λ a, cv ∈ succs (<[cu:=L ++ [cv]]> G) a) (seq 0 n) cu).
           ++ lia.
           ++ apply NoDup_seq.
           ++ apply elem_of_seq. lia.
           ++ by rewrite HsL.
           ++ rewrite succs_insert_eq, elem_of_app, list_elem_of_singleton. auto.
           ++ intros x Hx. by rewrite succs_insert_ne.
        -- rewrite lookup_insert_ne by done. rewrite (wf_InD _ _ _ Hwf b Hb).
           f_equal. f_equal. unfold preds_in. f_equal.
           apply filter_ext_in. intros a _. destruct (decide (a = cu)) as [->|Hac].
           ++ rewrite succs_insert_eq, HsL, elem_of_app, list_elem_of_singleton.
              split; [auto|]. intros [?|?]; [done|congruence].
           ++ by rewrite succs_insert_ne.
    + exists cu, cv. simpl. split_and!; [done..|].
      intros _. split_and!; [done..|].
      rewrite succs_insert_eq, elem_of_app, list_elem_of_singleton. auto.
    + intros a b. destruct (decide (a = cu)) as [->|Hac].
      * rewrite succs_insert_eq, HsL, elem_of_app. auto.
      * by rewrite succs_insert_ne.
  - inversion H; subst G' I'. clear H. split_and!; [done| |done].
    exists cu, cv. simpl. split_and!; [done|done|].
    intros _. split_and!; [done|by apply HLr|by rewrite HsL].
Qed.

Lemma condense_spec n E v_SCC G I :
  condense n E v_SCC = Ok (G, I) →
  wf_condensed n G I ∧ ∀ e, e ∈ E → edge_condensed n v_SCC G e.
Proof.
  unfold condense. intros H.
  destruct (for_each_invariant
              (λ s : gmap nat (list nat) * gmap nat Z, wf_condensed n s.1 s.2)
              (λ s e, edge_condensed n v_SCC s.1 e)
              (condense_edge v_SCC) E) with (s := (dict_range n ([] : list nat), dict_range n 0%Z))
                                            (s' := (G, I)) as (Hwf & _ & Hedges); [| |done|done].
  - intros [G0 I0] e [G1 I1] Hwf0 Hstep. simpl in *.
    destruct (condense_edge_inv _ _ _ _ _ _ _ Hwf0 Hstep) as (Hwf1 & He & Hmono).
    split_and!; [done|done|].
    intros y (cu & cv & ? & ? & Hin). exists cu, cv. split_and!; [done..|].
    intros Hne. destruct (Hin Hne) as (? & ? & ?). auto.
  - simpl. split.
    + intros a. rewrite dict_range_lookup. destruct (decide (a < n)); [by eauto|].
      split; [by intros [? ?]|done].
    + intros a l. rewrite dict_range_lookup. destruct (decide (a < n)); [|done].
      intros Heq. inversion Heq; subst. split; [apply NoDup_nil_2|].
      intros b Hb. by apply elem_of_nil in Hb.
    + intros b. rewrite dict_range_lookup. destruct (decide (b < n)); [done|].
      by intros [? ?].
    + intros b Hb. rewrite dict_range_lookup, decide_True by done. f_equal.
      unfold preds_in. rewrite filter_none; [done|].
      intros a _. unfold succs. rewrite dict_range_lookup.
      destruct (decide (a < n)); simpl; apply not_elem_of_nil.
Qed.

(** ** The update sweep *)

Lemma schedule_scc_block top g SCCs scc_pred s i s' :
  schedule_scc top g SCCs scc_pred s i = Ok s' →
  ∃ b, sw_update_schedule s' = sw_update_schedule s ++ [b] ∧
       block_of_scc (attrs top) SCCs i b.
Proof.
  intros H. destruct (SCCs !! i) as [scc|] eqn:Hi.
  2:{ unfold schedule_scc in H. by rewrite Hi in H. }
  destruct (decide (length scc = 1)) as [Hlen|Hlen].
  - destruct scc as [|u [|u' scc]]; [done| |done].
    unfold schedule_scc in H. rewrite Hi in H. cbn [mbind result_bind] in H.
    inversion H; subst; simpl. eexists. split; [done|]. by exists [u].
  - destruct (schedule_scc_nontrivial _ _ _ _ _ _ _ _ Hi Hlen H) as (tmp & vars & _ & _ & ->).
    simpl. eexists. split; [done|]. exists scc. split; [done|].
    destruct scc as [|u [|u' scc]]; [eauto|done|eauto].
Qed.

Lemma sweep_blocks top g SCCs scc_pred sched : ∀ s sw,
  for_each (schedule_scc top g SCCs scc_pred) sched s = Ok sw →
  ∃ bs, sw_update_schedule sw = sw_update_schedule s ++ bs ∧
        Forall2 (block_of_scc (attrs top) SCCs) sched bs.
Proof.
  induction sched as [|i sched IH]; intros s sw H.
  - inversion H; subst. exists []. by rewrite app_nil_r.
  - simpl in H.
    destruct (schedule_scc top g SCCs scc_pred s i) as [s1| |] eqn:H1;
      cbn [mbind result_bind] in H; [|done..].
    apply schedule_scc_block in H1 as (b & Hb & Hblk).
    destruct (IH _ _ H) as (bs & Hbs & Hall).
    exists (b :: bs). split; [|by constructor].
    by rewrite Hbs, Hb, <- app_assoc.
Qed.

(** ** C1: the SCC schedule is a topological order *)

(** Every edge of [E] between two SCCs is respected by the update sweep. *)
Lemma sweep_respects_edges lt top cs s u v :
  schedule_with_top_level_callee lt top cs = Ok s →
  (u, v) ∈ E (graph s) →
  ∃ cu cv, v_SCC s !! u = Some cu ∧ v_SCC s !! v = Some cv ∧
    (cu ≠ cv →
     ∃ i j bi bj,
       i < j ∧
       scc_schedule s !! i = Some cu ∧ scc_schedule s !! j = Some cv ∧
       update_schedule s !! i = Some bi ∧ block_of_scc (attrs top) (SCCs s) cu bi ∧
       update_schedule s !! j = Some bj ∧ block_of_scc (attrs top) (SCCs s) cv bj).
Proof.
  intros Hpass Huv.
  destruct (pass_inv _ _ _ _ Hpass)
    as (InD & sw & _ & _ & Hcond & Htopo & Hsweep & Hupd & _).
  apply condense_spec in Hcond as [Hwf Hedges].
  destruct (topo_sort_sorted _ _ _ _ _ Hwf _ _ Htopo) as (_ & _ & _ & Hord).
  apply sweep_blocks in Hsweep as (bs & Hbs & Hblocks). simpl in Hbs.
  rewrite <- Hupd in Hbs. subst bs.
  destruct (Hedges _ Huv) as (cu & cv & Hu & Hv & Hin). simpl in Hu, Hv.
  exists cu, cv. split_and!; [done|done|]. intros Hne.
  destruct (Hin Hne) as (Hcu & Hcv & Hsucc).
  destruct (Hord cu cv Hcu Hsucc) as (i & j & Hij & Hi & Hj).
  destruct (Forall2_lookup_l _ _ _ _ _ Hblocks Hi) as (bi & Hbi & Hbli).
  destruct (Forall2_lookup_l _ _ _ _ _ Hblocks Hj) as (bj & Hbj & Hblj).
  exists i, j, bi, bj. split_and!; done.
Qed.

(** C1: when the pass accepts its input, [scc_schedule] lists every SCC
    exactly once, and for every edge [(u, v)] of [E] whose ends lie in
    distinct SCCs the SCC of [u] stands at a strictly earlier position of
    [scc_schedule] than the SCC of [v]; the update sweep holds, at the same
    positions, the blocks that stand for these SCCs. *)
Theorem C1_scc_schedule_topological (lt : bool) (top : Top)
    (cs : list (obj * obj)) (s : Scheduled) :
  schedule_with_top_level_callee lt top cs = Ok s →
  NoDup (scc_schedule s) ∧
  (∀ c, c ∈ scc_schedule s ↔ c < length (SCCs s)) ∧
  ∀ u v, (u, v) ∈ E (graph s) →
    ∃ cu cv, v_SCC s !! u = Some cu ∧ v_SCC s !! v = Some cv ∧
      (cu ≠ cv →
       ∃ i j bi bj,
         i < j ∧
         scc_schedule s !! i = Some cu ∧ scc_schedule s !! j = Some cv ∧
         update_schedule s !! i = Some bi ∧ block_of_scc (attrs top) (SCCs s) cu bi ∧
         update_schedule s !! j = Some bj ∧ block_of_scc (attrs top) (SCCs s) cv bj).
Proof.
  intros Hpass.
  destruct (pass_inv _ _ _ _ Hpass)
    as (InD & sw & _ & _ & Hcond & Htopo & _).
  apply condense_spec in Hcond as [Hwf _].
  destruct (topo_sort_sorted _ _ _ _ _ Hwf _ _ Htopo) as (Hnd & _ & Hall & _).
  split_and!; [done|done|].
  intros u v Huv. exact (sweep_respects_edges _ _ _ _ _ _ Hpass Huv).
Qed.

Lemma C1_scc_schedule_topological_witness :
  let s := Examples.chain_scheduled in
  schedule_with_top_level_callee true Examples.chain [(Obj 1, Obj 2); (Obj 2, Obj 3)] = Ok s ∧
  E (graph s) = [(Obj 1, Obj 2); (Obj 2, Obj 3)] ∧
  scc_schedule s = [0; 1; 2] ∧
  update_schedule s = [Blk (Obj 1); Blk (Obj 2); Blk (Obj 3)] ∧
  NoDup (scc_schedule s) ∧
  (∀ c, c ∈ scc_schedule s ↔ c < length (SCCs s)) ∧
  ∀ u v, (u, v) ∈ E (graph s) →
    ∃ cu cv, v_SCC s !! u = Some cu ∧ v_SCC s !! v = Some cv ∧
      (cu ≠ cv →
       ∃ i j bi bj,
         i < j ∧
         scc_schedule s !! i = Some cu ∧ scc_schedule s !! j = Some cv ∧
         update_schedule s !! i = Some bi ∧
         block_of_scc (attrs Examples.chain) (SCCs s) cu bi ∧
         update_schedule s !! j = Some bj ∧
         block_of_scc (attrs Examples.chain) (SCCs s) cv bj).
Proof.
  assert (Hpass : schedule_with_top_level_callee true Examples.chain
                    [(Obj 1, Obj 2); (Obj 2, Obj 3)] = Ok Examples.chain_scheduled)
    by (vm_compute; reflexivity).
  split; [exact Hpass|].
  split; [vm_compute; reflexivity|].
  split; [vm_compute; reflexivity|].
  split; [vm_compute; reflexivity|].
  exact (C1_scc_schedule_topological _ _ _ _ Hpass).
Defined.

(** ** Kosaraju's second pass: a vertex lies in the SCC it is numbered with *)

Lemma elem_of_set_add {A} `{EqDecision A} (x y : A) (s : list A) :
  y ∈ set_add x s ↔ y = x ∨ y ∈ s.
Proof.
  unfold set_add. destruct (decide (x ∈ s)) as [Hx|Hx].
  - split; [auto|]. by intros [->|?].
  - rewrite elem_of_app, list_elem_of_singleton. tauto.
Qed.

Section second_pass.
Context (G_T : gmap obj (list obj)) (done : list (list obj)).



End second_pass.



(** ** C6: the guard and the method of a non-blocking interface *)







(** ** The loop budgets are never exhausted *)

Section weights.
Context `{Countable K} {A : Type}.
Implicit Types (w : K → A → nat) (m : gmap K A).

Lemma weight_sum_empty w : weight_sum w (∅ : gmap K A) = 0.
Proof. unfold weight_sum. apply map_fold_empty. Qed.

Lemma weight_sum_insert w m i x :
  m !! i = None → weight_sum w (<[i := x]> m) = weight_sum w m + w i x.
Proof.
  intros Hi. unfold weight_sum. rewrite map_fold_insert_L; [done| |done].
  intros. lia.
Qed.

Lemma weight_sum_delete w m i x :
  m !! i = Some x → weight_sum w m = weight_sum w (delete i m) + w i x.
Proof.
  intros Hi. rewrite <- (insert_delete_id m i x Hi) at 1.
  apply weight_sum_insert, lookup_delete_eq.
Qed.

Lemma weight_sum_le w1 w2 m :
  (∀ k x, m !! k = Some x → w1 k x ≤ w2 k x) → weight_sum w1 m ≤ weight_sum w2 m.
Proof.
  induction m as [|i x m Hi IH] using map_ind; intros Hle.
  - by rewrite !weight_sum_empty.
  - rewrite !weight_sum_insert by done.
    pose proof (Hle i x (lookup_insert_eq _ _ _)).
    assert (weight_sum w1 m ≤ weight_sum w2 m); [|lia].
    apply IH. intros k y Hk. apply Hle. rewrite lookup_insert_ne; [done|].
    intros ->. congruence.
Qed.

(** Replacing the value of one key. *)
Lemma weight_sum_update w m i x y :
  m !! i = Some x →
  weight_sum w (<[i := y]> m) + w i x = weight_sum w m + w i y.
Proof.
  intros Hi. rewrite (weight_sum_delete w m i x Hi).
  rewrite <- insert_delete_eq, weight_sum_insert by apply lookup_delete_eq. lia.
Qed.

(** Changing the weights so that one key loses [d] and no key gains. *)
Lemma weight_sum_drop w1 w2 m i x d :
  m !! i = Some x → w2 i x + d ≤ w1 i x →
  (∀ k y, m !! k = Some y → w2 k y ≤ w1 k y) →
  weight_sum w2 m + d ≤ weight_sum w1 m.
Proof.
  intros Hi Hd Hle.
  rewrite (weight_sum_delete w1 m i x Hi), (weight_sum_delete w2 m i x Hi).
  assert (weight_sum w2 (delete i m) ≤ weight_sum w1 (delete i m)); [|lia].
  apply weight_sum_le. intros k y Hk. apply Hle.
  apply lookup_delete_Some in Hk as [_ Hk]. done.
Qed.
End weights.

Lemma for_each_fuel {A S} (body : S → A → result S) l :
  (∀ s x, body s x ≠ OutOfFuel) → ∀ s, for_each body l s ≠ OutOfFuel.
Proof.
  intros Hb. induction l as [|x l IH]; intros s; simpl; [done|].
  specialize (Hb s x). destruct (body s x); simpl; [apply IH|done|done].
Qed.

(** *** The topological sort *)

Lemma relax_measure u s v s' :
  relax u s v = Ok s' → topo_measure s' ≤ topo_measure s.
Proof.
  intros H. apply relax_inv in H as (d & Hd & HI & HQ & _ & _).
  unfold topo_measure. rewrite HI, HQ, length_app.
  pose proof (weight_sum_update (λ _ d, Z.to_nat d) (ts_InD s) v d (d - 1)%Z Hd) as Hw.
  simpl in Hw. case_bool_decide; simpl; lia.
Qed.

Lemma relax_all_measure u l : ∀ s s',
  for_each (relax u) l s = Ok s' → topo_measure s' ≤ topo_measure s.
Proof.
  induction l as [|v l IH]; intros s s' H; [by inversion H|].
  simpl in H. destruct (relax u s v) as [s1| |] eqn:H1; cbn [mbind result_bind] in H; [|done..].
  apply relax_measure in H1. apply IH in H. lia.
Qed.

Lemma relax_fuel u s v : relax u s v ≠ OutOfFuel.
Proof.
  unfold relax, getitem. destruct (ts_InD s !! v); simpl; [|done].
  by case_bool_decide.
Qed.

Lemma topo_step_measure mgm gmm G_new s s' :
  ts_Q s ≠ [] → topo_step mgm gmm G_new s = Ok s' → topo_measure s' < topo_measure s.
Proof.
  intros HQ H. destruct (ts_Q s) as [|u Q'] eqn:EQ; [done|].
  unfold topo_step in H. rewrite EQ, pop_preferred_head in H. cbn [ts_u] in H.
  destruct (getitem G_new u); cbn [mbind result_bind] in H; [|done..].
  apply relax_all_measure in H. unfold topo_measure in *. rewrite EQ.
  simpl in *. lia.
Qed.

Lemma topo_step_fuel mgm gmm G_new s : topo_step mgm gmm G_new s ≠ OutOfFuel.
Proof.
  unfold topo_step. destruct (ts_u _); [|done].
  unfold getitem. destruct (G_new !! _); simpl; [|done].
  apply for_each_fuel. intros. apply relax_fuel.
Qed.

(** The sort's [while] loop ends within its budget. *)
Lemma topo_while_fuel mgm gmm G_new fuel : ∀ s,
  topo_measure s ≤ fuel → topo_while fuel mgm gmm G_new s ≠ OutOfFuel.
Proof.
  induction fuel as [|fuel IH]; intros s Hm; simpl.
  - destruct (ts_Q s) eqn:EQ; [done|]. unfold topo_measure in Hm. rewrite EQ in Hm.
    simpl in Hm. lia.
  - destruct (ts_Q s) eqn:EQ; [done|].
    pose proof (topo_step_fuel mgm gmm G_new s) as Hf.
    destruct (topo_step mgm gmm G_new s) as [s1| |] eqn:Hs; simpl; [|done..].
    apply IH. apply topo_step_measure in Hs; [lia|]. by rewrite EQ.
Qed.

Lemma topo_sort_fuel n mgm gmm G_new InD : topo_sort n mgm gmm G_new InD ≠ OutOfFuel.
Proof.
  unfold topo_sort.
  match goal with
  | |- mbind _ ?m ≠ _ =>
    assert (m ≠ OutOfFuel) as HQ;
      [|destruct m as [Q| |]; cbn [mbind result_bind]; [|done..]]
  end.
  { apply for_each_fuel. intros Q i. unfold getitem. by destruct (InD !! i). }
  cbv zeta.
  match goal with
  | |- mbind _ ?m ≠ _ =>
    assert (m ≠ OutOfFuel) as Hw;
      [|destruct m as [s| |]; cbn [mbind result_bind]; [|done..]]
  end.
  { apply topo_while_fuel. unfold topo_measure, topo_budget. simpl. lia. }
  unfold py_assert. by case_bool_decide.
Qed.

(** *** The two passes of Kosaraju's algorithm *)

Lemma filter_length_le {A} (P Q : A → Prop) `{!∀ x, Decision (P x), !∀ x, Decision (Q x)}
    (l : list A) :
  (∀ x, P x → Q x) → length (filter P l) ≤ length (filter Q l).
Proof.
  intros HPQ. induction l as [|x l IH]; [done|].
  rewrite !filter_cons.
  destruct (decide (P x)) as [HP|HP], (decide (Q x)) as [HQ|HQ]; simpl; try lia.
  exfalso. auto.
Qed.

Lemma filter_length_lt {A} (P Q : A → Prop) `{!∀ x, Decision (P x), !∀ x, Decision (Q x)}
    (l : list A) (a : A) :
  (∀ x, P x → Q x) → a ∈ l → Q a → ¬ P a →
  length (filter P l) < length (filter Q l).
Proof.
  intros HPQ Ha HQa HPa. induction l as [|x l IH]; [by apply elem_of_nil in Ha|].
  rewrite !filter_cons. pose proof (filter_length_le P Q l HPQ) as Hle.
  apply elem_of_cons in Ha as [<-|Ha].
  - rewrite decide_False, decide_True by done. simpl. lia.
  - specialize (IH Ha).
    destruct (decide (P x)) as [HP|HP], (decide (Q x)) as [HQ|HQ]; simpl; try lia.
    exfalso. auto.
Qed.

Lemma dfs_while_fuel G fuel : ∀ stack visited PO,
  dfs_measure G stack visited ≤ fuel → dfs_while fuel G stack visited PO ≠ OutOfFuel.
Proof.
  induction fuel as [|fuel IH]; intros stack visited PO Hm.
  - destruct stack as [|[u b] stack]; [done|]. unfold dfs_measure in Hm. simpl in Hm. lia.
  - destruct stack as [|[u b] stack]; [done|]. cbn [dfs_while].
    unfold dfs_measure in Hm. cbn [length] in Hm.
    destruct b; [apply IH; unfold dfs_measure; lia|].
    case_bool_decide as Hu; [|apply IH; unfold dfs_measure; lia].
    unfold getitem. destruct (G !! u) as [adj|] eqn:Hadj; cbn [mbind result_bind]; [|done].
    apply IH. unfold dfs_measure. rewrite length_app, length_fmap. cbn [length].
    pose proof (weight_sum_drop (unvisited_weight visited)
                  (unvisited_weight ({[u]} ∪ visited)) G u adj (1 + length adj) Hadj) as Hd.
    assert (weight_sum (unvisited_weight ({[u]} ∪ visited)) G + (1 + length adj)
            ≤ weight_sum (unvisited_weight visited) G); [|lia].
    apply Hd.
    + unfold unvisited_weight. rewrite decide_True by set_solver.
      rewrite decide_False by done. lia.
    + intros k y _. unfold unvisited_weight.
      destruct (decide (k ∈ visited)).
      * rewrite decide_True by set_solver. lia.
      * destruct (decide (k ∈ {[u]} ∪ visited)); lia.
Qed.

Lemma post_order_fuel G vertices : post_order G vertices ≠ OutOfFuel.
Proof.
  unfold post_order.
  match goal with
  | |- mbind _ ?m ≠ _ =>
    assert (m ≠ OutOfFuel) as Hm;
      [|destruct m as [[? ?]| |]; cbn [mbind result_bind]; done]
  end.
  apply for_each_fuel. intros [visited PO] u. apply dfs_while_fuel.
  unfold dfs_measure, traversal_budget. cbn [length].
  assert (weight_sum (unvisited_weight visited) G
          ≤ weight_sum (λ _ adj, 1 + length adj) G); [|lia].
  apply weight_sum_le. intros k x _. unfold unvisited_weight.
  destruct (decide (k ∈ visited)); lia.
Qed.

Lemma visit_neighbours_measure G_T u adj (l : list obj) :
  G_T !! u = Some adj → (∀ v, v ∈ l → v ∈ adj) →
  ∀ (Q scc : list obj) (visited : gset obj) Q' scc' visited',
    foldl (λ '(Q, scc, visited) v,
             if bool_decide (v ∉ visited)
             then (Q ++ [v], set_add v scc, {[v]} ∪ visited)
             else (Q, scc, visited))
          (Q, scc, visited) l = (Q', scc', visited') →
    bfs_measure G_T Q' visited' ≤ bfs_measure G_T Q visited.
Proof.
  intros Hu. induction l as [|v l IH]; intros Hl Q scc visited Q' scc' visited' H.
  - simpl in H. by inversion H; subst.
  - simpl in H. case_bool_decide as Hv.
    + apply IH in H; [|intros x Hx; apply Hl; by right].
      etrans; [exact H|]. unfold bfs_measure. rewrite length_app. simpl.
      pose proof (weight_sum_drop (unvisited_entries visited)
                    (unvisited_entries ({[v]} ∪ visited)) G_T u adj 1 Hu) as Hd.
      assert (weight_sum (unvisited_entries ({[v]} ∪ visited)) G_T + 1
              ≤ weight_sum (unvisited_entries visited) G_T); [|lia].
      apply Hd.
      * unfold unvisited_entries.
        assert (length (filter (λ x, x ∉ {[v]} ∪ visited) adj)
                < length (filter (λ x, x ∉ visited) adj)); [|lia].
        apply (filter_length_lt _ _ _ v); [set_solver|apply Hl; by left|done|set_solver].
      * intros k y _. unfold unvisited_entries. apply filter_length_le. set_solver.
    + apply IH in H; [done|]. intros x Hx. apply Hl. by right.
Qed.

Lemma bfs_while_fuel G_T k fuel : ∀ Q scc v_SCC visited,
  bfs_measure G_T Q visited ≤ fuel →
  bfs_while fuel G_T k Q scc v_SCC visited ≠ OutOfFuel.
Proof.
  induction fuel as [|fuel IH]; intros Q scc v_SCC visited Hm.
  - destruct Q; [done|]. unfold bfs_measure in Hm. simpl in Hm. lia.
  - destruct Q as [|u Q]; [done|]. cbn [bfs_while].
    unfold getitem. destruct (G_T !! u) as [adj|] eqn:Hadj; cbn [mbind result_bind]; [|done].
    match goal with
    | |- context [foldl ?f ?a adj] => destruct (foldl f a adj) as [[Q1 scc1] visited1] eqn:Hf
    end.
    apply IH. apply (visit_neighbours_measure G_T u adj adj Hadj) in Hf; [|done].
    unfold bfs_measure in *. simpl in Hm. lia.
Qed.

Lemma kosaraju_fuel g vertices : kosaraju g vertices ≠ OutOfFuel.
Proof.
  unfold kosaraju. pose proof (post_order_fuel (G g) vertices) as Hp.
  destruct (post_order (G g) vertices) as [PO| |]; cbn [mbind result_bind]; [|done..].
  cbv zeta.
  match goal with
  | |- mbind _ ?m ≠ _ =>
    assert (m ≠ OutOfFuel) as Hm;
      [|destruct m as [?| |]; cbn [mbind result_bind]; done]
  end.
  apply for_each_fuel. intros s u. unfold scc_of_seed. case_bool_decide; [|done].
  match goal with
  | |- mbind _ ?m ≠ _ =>
    assert (m ≠ OutOfFuel) as Hm;
      [|destruct m as [[[? ?] ?]| |]; cbn [mbind result_bind]; done]
  end.
  apply bfs_while_fuel. unfold bfs_measure, traversal_budget. cbn [length].
  assert (weight_sum (unvisited_entries ({[u]} ∪ st_visited s)) (G_T g)
          ≤ weight_sum (λ _ adj, 1 + length adj) (G_T g)); [|lia].
  apply weight_sum_le. intros k x _. unfold unvisited_entries.
  pose proof (length_filter (λ v, v ∉ {[u]} ∪ st_visited s) x). lia.
Qed.

(** *** The intra-SCC search *)

Lemma intra_neighbours_measure (scc l : list obj) :
  ∀ (Q : list obj) (visited : gset obj) Q' visited',
    foldl (λ '(Q, visited) v,
             if bool_decide (v ∈ scc) && bool_decide (v ∉ visited)
             then (Q ++ [v], {[v]} ∪ visited) else (Q, visited))
          (Q, visited) l = (Q', visited') →
    intra_measure scc Q' visited' ≤ intra_measure scc Q visited.
Proof.
  induction l as [|v l IH]; intros Q visited Q' visited' H.
  - simpl in H. by inversion H; subst.
  - simpl in H. destruct (bool_decide (v ∈ scc) && bool_decide (v ∉ visited)) eqn:Hv.
    + apply andb_true_iff in Hv as [Hin Hnv].
      apply bool_decide_eq_true in Hin. apply bool_decide_eq_true in Hnv.
      apply IH in H. etrans; [exact H|].
      unfold intra_measure. rewrite length_app. simpl.
      assert (length (filter (λ x, x ∉ {[v]} ∪ visited) scc)
              < length (filter (λ x, x ∉ visited) scc)); [|lia].
      apply (filter_length_lt _ _ _ v); [set_solver|done|done|set_solver].
    + by apply IH in H.
Qed.

Lemma intra_while_fuel G scc fuel : ∀ Q visited tmp_schedule,
  intra_measure scc Q visited ≤ fuel →
  intra_while fuel G scc Q visited tmp_schedule ≠ OutOfFuel.
Proof.
  induction fuel as [|fuel IH]; intros Q visited tmp Hm.
  - destruct Q; [done|]. unfold intra_measure in Hm. simpl in Hm. lia.
  - destruct Q as [|u Q]; [done|]. cbn [intra_while].
    unfold getitem. destruct (G !! u) as [adj|]; cbn [mbind result_bind]; [|done].
    match goal with
    | |- context [foldl ?f ?a adj] => destruct (foldl f a adj) as [Q1 visited1] eqn:Hf
    end.
    apply IH. apply intra_neighbours_measure in Hf.
    unfold intra_measure in *. simpl in Hm. lia.
Qed.

(** *** The whole pass *)

Lemma bind_fuel {A B} (m : result A) (f : A → result B) :
  m ≠ OutOfFuel → (∀ a, f a ≠ OutOfFuel) → (m ≫= f) ≠ OutOfFuel.
Proof. intros Hm Hf. destruct m; simpl; [apply Hf|done|done]. Qed.

Ltac fuel_step :=
  match goal with
  | |- Ok _ ≠ OutOfFuel => discriminate
  | |- Raise _ ≠ OutOfFuel => discriminate
  | |- mbind _ _ ≠ OutOfFuel => apply bind_fuel; [|intros ?]
  | |- for_each _ _ _ ≠ OutOfFuel => apply for_each_fuel; intros ? ?
  | |- kosaraju _ _ ≠ OutOfFuel => apply kosaraju_fuel
  | |- topo_sort _ _ _ _ _ ≠ OutOfFuel => apply topo_sort_fuel
  | |- py_assert _ ≠ OutOfFuel => unfold py_assert
  | |- getitem _ _ ≠ OutOfFuel => unfold getitem
  | |- match ?x with _ => _ end ≠ OutOfFuel => destruct x
  end.

Lemma build_graph_fuel top cs : build_graph top cs ≠ OutOfFuel.
Proof.
  unfold build_graph, add_callee_port, add_nb_ifc, add_constraint, add_callee_constraint,
    add_edge, dict_append, get_raw_method.
  cbv zeta. repeat fuel_step.
Qed.

Lemma condense_fuel n E v_SCC : condense n E v_SCC ≠ OutOfFuel.
Proof. unfold condense, condense_edge. repeat fuel_step. Qed.

Lemma schedule_scc_fuel top g SCCs scc_pred s i :
  schedule_scc top g SCCs scc_pred s i ≠ OutOfFuel.
Proof.
  unfold schedule_scc. apply bind_fuel; [by destruct (SCCs !! i)|]. intros scc.
  assert (Hgen : (pred ← getitem scc_pred i;
                  Q ← entry_points (attrs top) g SCCs scc pred;
                  tmp_schedule ← intra_while (1 + length Q + length scc) (G g) scc Q
                                   (list_to_set Q) [];
                  let scc_id := sw_scc_id s + 1 in
                  variables ← trigger_variables g (constraint_objs (_dag top)) scc;
                  blk ← gen_wrapped_SCCblk tmp_schedule
                          {| src_id := scc_id; src_variables := variables;
                             src_names := scc_names (attrs top) scc |};
                  Ok {| sw_update_schedule := sw_update_schedule s ++ [blk];
                        sw_scc_id := scc_id |}) ≠ OutOfFuel).
  { apply bind_fuel; [repeat fuel_step|]. intros pred.
    apply bind_fuel; [unfold entry_points; repeat fuel_step|]. intros Q.
    apply bind_fuel.
    { apply intra_while_fuel. unfold intra_measure.
      pose proof (length_filter (λ v : obj, v ∉ (list_to_set Q : gset obj)) scc). lia. }
    intros tmp. cbv zeta.
    apply bind_fuel; [unfold trigger_variables; repeat fuel_step|]. intros vars.
    apply bind_fuel; [unfold gen_wrapped_SCCblk; repeat fuel_step|]. done. }
  destruct scc as [|u [|u' scc]]; [exact Hgen|done|exact Hgen].
Qed.

(** The pass ends: it returns its result or raises a Python exception,
    and never stops for lack of loop budget. *)
Lemma pass_fuel lt top cs : schedule_with_top_level_callee lt top cs ≠ OutOfFuel.
Proof.
  unfold schedule_with_top_level_callee.
  apply bind_fuel; [apply build_graph_fuel|]. intros g. cbv zeta.
  apply bind_fuel; [apply kosaraju_fuel|]. intros [sccs vscc].
  apply bind_fuel; [apply condense_fuel|]. intros [gnew ind].
  apply bind_fuel; [apply topo_sort_fuel|]. intros [pred sched].
  apply bind_fuel; [apply for_each_fuel; intros; apply schedule_scc_fuel|]. intros sw.
  apply bind_fuel; [|done].
  apply for_each_fuel. intros ms [i x]. unfold install_wrapper. repeat fuel_step.
Qed.

Lemma OpenLoopCLPass_call_fuel lt top : OpenLoopCLPass_call lt top ≠ OutOfFuel.
Proof.
  unfold OpenLoopCLPass_call. destruct (all_constraints _); [apply pass_fuel|done].
Qed.

(** ** C10: an SCC without trigger variables *)

Lemma for_each_ok_inv {A S} (body : S → A → result S) l : ∀ s s' x,
  for_each body l s = Ok s' → x ∈ l → ∃ s1 s2, body s1 x = Ok s2.
Proof.
  induction l as [|y l IH]; intros s s' x H Hin; [by apply elem_of_nil in Hin|].
  simpl in H. bind_inv H.
  apply elem_of_cons in Hin as [->|Hin]; [eauto|].
  eapply IH; eauto.
Qed.

(** C10: when no edge inside a non-trivial SCC carries a trigger variable,
    the condition spliced into the template is the empty string, line 9 of
    the generated text is the header [if :], compiling it raises
    [SyntaxError], and so the step of the pass that handles this SCC cannot
    succeed: once the intra-SCC order is found it raises [SyntaxError], and
    a pass that returns has scheduled no such SCC. *)
Theorem C10_no_trigger_variable_no_schedule (top : Top) (g : Graph)
    (sccs : list (list obj)) (scc_pred : gmap nat (option nat)) (s : SweepState)
    (i : nat) (scc : list obj) :
  sccs !! i = Some scc → length scc ≠ 1 →
  trigger_variables g (constraint_objs (_dag top)) scc = Ok [] →
  let src := {| src_id := sw_scc_id s + 1; src_variables := [];
                src_names := scc_names (attrs top) scc |} in
  src_checks src = "" ∧
  src_lines src !! 9 = Some "              if :" ∧
  (∀ tmp_schedule, gen_wrapped_SCCblk tmp_schedule src = Raise SyntaxError) ∧
  (∀ s', schedule_scc top g sccs scc_pred s i ≠ Ok s') ∧
  (∀ pred Q tmp_schedule,
     getitem scc_pred i = Ok pred →
     entry_points (attrs top) g sccs scc pred = Ok Q →
     intra_while (1 + length Q + length scc) (G g) scc Q (list_to_set Q) [] = Ok tmp_schedule →
     schedule_scc top g sccs scc_pred s i = Raise SyntaxError) ∧
  (∀ lt cs sch j scc_j,
     schedule_with_top_level_callee lt top cs = Ok sch →
     j ∈ scc_schedule sch → SCCs sch !! j = Some scc_j → length scc_j ≠ 1 →
     trigger_variables (graph sch) (constraint_objs (_dag top)) scc_j ≠ Ok []).
Proof.
  intros Hi Hlen Hv src. split_and!.
  - reflexivity.
  - reflexivity.
  - reflexivity.
  - intros s' H.
    destruct (schedule_scc_nontrivial _ _ _ _ _ _ _ _ Hi Hlen H) as (tmp & vars & Hv' & Hne & _).
    congruence.
  - intros pred Q tmp Hp HQ Ht. unfold schedule_scc. rewrite Hi.
    cbn [mbind result_bind].
    assert (Hgen : (pred ← getitem scc_pred i;
                  Q ← entry_points (attrs top) g sccs scc pred;
                  tmp_schedule ← intra_while (1 + length Q + length scc) (G g) scc Q
                                   (list_to_set Q) [];
                  let scc_id := sw_scc_id s + 1 in
                  variables ← trigger_variables g (constraint_objs (_dag top)) scc;
                  blk ← gen_wrapped_SCCblk tmp_schedule
                          {| src_id := scc_id; src_variables := variables;
                             src_names := scc_names (attrs top) scc |};
                  Ok {| sw_update_schedule := sw_update_schedule s ++ [blk];
                        sw_scc_id := scc_id |}) = Raise SyntaxError).
    { rewrite Hp. cbn [mbind result_bind]. rewrite HQ. cbn [mbind result_bind].
      rewrite Ht. cbn [mbind result_bind]. cbv zeta. rewrite Hv. reflexivity. }
    destruct scc as [|u [|u' scc]]; [exact Hgen|simpl in Hlen; lia|exact Hgen].
  - intros lt cs sch j scc_j Hpass Hj Hsj Hlj Hempty.
    destruct (pass_inv _ _ _ _ Hpass) as (InD & sw & _ & _ & _ & _ & Hsweep & _).
    destruct (for_each_ok_inv _ _ _ _ _ Hsweep Hj) as (s1 & s2 & Hstep).
    destruct (schedule_scc_nontrivial _ _ _ _ _ _ _ _ Hsj Hlj Hstep)
      as (tmp & vars & Hv' & Hne & _).
    congruence.
Qed.

Lemma C10_no_trigger_variable_no_schedule_witness :
  Examples.cycle_SCCs !! 0 = Some [Obj 2; Obj 1] ∧
  length [Obj 2; Obj 1] ≠ 1 ∧
  trigger_variables Examples.cycle_graph (constraint_objs (_dag Examples.cycle_no_trigger))
    [Obj 2; Obj 1] = Ok [] ∧
  schedule_scc Examples.cycle_no_trigger Examples.cycle_graph Examples.cycle_SCCs
    Examples.cycle_pred Examples.sweep_start 0 = Raise SyntaxError ∧
  OpenLoopCLPass_call true Examples.cycle_no_trigger = Raise SyntaxError.
Proof.
  assert (H1 : Examples.cycle_SCCs !! 0 = Some [Obj 2; Obj 1]) by reflexivity.
  assert (H2 : length [Obj 2; Obj 1] ≠ 1) by (simpl; lia).
  assert (H3 : trigger_variables Examples.cycle_graph
                 (constraint_objs (_dag Examples.cycle_no_trigger)) [Obj 2; Obj 1] = Ok [])
    by (vm_compute; reflexivity).
  split_and!; [exact H1|exact H2|exact H3| |vm_compute; reflexivity].
  destruct (C10_no_trigger_variable_no_schedule Examples.cycle_no_trigger
              Examples.cycle_graph Examples.cycle_SCCs Examples.cycle_pred
              Examples.sweep_start 0 _ H1 H2 H3) as (_ & _ & _ & _ & H & _).
  eapply H; vm_compute; reflexivity.
Defined.

(** * Further properties *)

(** ** The graph (lines 46-121) *)

Lemma neighbours_insert_eq G u l : neighbours (<[u := l]> G) u = l.
Proof. unfold neighbours. by rewrite lookup_insert_eq. Qed.

Lemma neighbours_insert_ne G u l x : x ≠ u → neighbours (<[u := l]> G) x = neighbours G x.
Proof. intros. unfold neighbours. by rewrite lookup_insert_ne. Qed.

Lemma neighbours_lookup G u l : G !! u = Some l → neighbours G u = l.
Proof. intros H. unfold neighbours. by rewrite H. Qed.

Lemma empty_adj_lookup (V : list obj) v :
  (list_to_map ((λ v, (v, [])) <$> V) : gmap obj (list obj)) !! v
  = if decide (v ∈ V) then Some [] else None.
Proof.
  induction V as [|x V IH].
  - simpl. rewrite lookup_empty.
    destruct (decide (v ∈ [])) as [H|]; [by apply elem_of_nil in H|done].
  - rewrite fmap_cons, list_to_map_cons. cbn [fst snd].
    destruct (decide (v = x)) as [->|Hne].
    + rewrite lookup_insert_eq. destruct (decide (x ∈ x :: V)) as [|H]; [done|].
      exfalso. apply H. by left.
    + rewrite lookup_insert_ne by done. rewrite IH.
      destruct (decide (v ∈ V)) as [Hin|Hnin]; destruct (decide (v ∈ x :: V)) as [Hin'|Hnin'];
        [done| |by apply elem_of_cons in Hin' as [?|?]|done].
      exfalso. apply Hnin'. by right.
Qed.

Lemma empty_adj_inv V E0 :
  adjacency_inv V E0 {| es_E := E0;
                        es_G := list_to_map ((λ v, (v, [])) <$> V);
                        es_G_T := list_to_map ((λ v, (v, [])) <$> V) |}.
Proof.
  assert (Hn : ∀ u, neighbours (list_to_map ((λ v, (v, [])) <$> V)) u = []).
  { intros u. unfold neighbours. rewrite empty_adj_lookup. by destruct (decide _). }
  split; cbn [es_E es_G es_G_T].
  - intros v. rewrite empty_adj_lookup. destruct (decide (v ∈ V)); split; eauto.
    + by intros [? ?].
    + done.
  - intros v. rewrite empty_adj_lookup. destruct (decide (v ∈ V)); split; eauto.
    + by intros [? ?].
    + done.
  - intros u v. rewrite !Hn. split; intros H; by apply elem_of_nil in H.
  - intros u v. rewrite Hn. split; [auto|]. intros [?|H]; [done|by apply elem_of_nil in H].
  - intros u v. rewrite Hn. intros H. by apply elem_of_nil in H.
Qed.

(** With both ends among the vertices, adding an edge cannot fail and keeps
    the invariant. *)
Lemma add_edge_adjacency V E0 s u v :
  adjacency_inv V E0 s → u ∈ V → v ∈ V →
  ∃ s', add_edge s u v = Ok s' ∧ adjacency_inv V E0 s' ∧
        ∀ a b, b ∈ neighbours (es_G s') a ↔ (a = u ∧ b = v) ∨ b ∈ neighbours (es_G s) a.
Proof.
  intros [Hd HdT Ht HE HV] Hu Hv. unfold add_edge, dict_append, getitem.
  destruct (proj2 (Hd u) Hu) as [lu Hlu]. destruct (proj2 (HdT v) Hv) as [lv Hlv].
  rewrite Hlu. cbn [mbind result_bind]. rewrite Hlv. cbn [mbind result_bind].
  eexists. split; [reflexivity|].
  assert (HG : ∀ a b, b ∈ neighbours (<[u := lu ++ [v]]> (es_G s)) a
                      ↔ (a = u ∧ b = v) ∨ b ∈ neighbours (es_G s) a).
  { intros a b. destruct (decide (a = u)) as [->|Hne].
    - rewrite neighbours_insert_eq, (neighbours_lookup _ _ _ Hlu), elem_of_app,
        list_elem_of_singleton. tauto.
    - rewrite neighbours_insert_ne by done. split; [auto|]. by intros [[? _]|?]. }
  assert (HGT : ∀ a b, a ∈ neighbours (<[v := lv ++ [u]]> (es_G_T s)) b
                       ↔ (a = u ∧ b = v) ∨ a ∈ neighbours (es_G_T s) b).
  { intros a b. destruct (decide (b = v)) as [->|Hne].
    - rewrite neighbours_insert_eq, (neighbours_lookup _ _ _ Hlv), elem_of_app,
        list_elem_of_singleton. tauto.
    - rewrite neighbours_insert_ne by done. split; [auto|]. by intros [[_ ?]|?]. }
  split; [split; cbn [es_E es_G es_G_T]|exact HG].
  - intros x. rewrite lookup_insert_is_Some, Hd. split; [intros [->|[_ ?]]; done|].
    intros Hx. destruct (decide (u = x)); auto.
  - intros x. rewrite lookup_insert_is_Some, HdT. split; [intros [->|[_ ?]]; done|].
    intros Hx. destruct (decide (v = x)); auto.
  - intros a b. rewrite HG, HGT, Ht. done.
  - intros a b. rewrite elem_of_set_add, HG, HE.
    split.
    + intros [Heq|[?|?]]; [inversion Heq; auto|auto..].
    + intros [?|[[-> ->]|?]]; auto.
  - intros a b. rewrite HG. intros [[-> ->]|H]; [done|by apply HV].
Qed.

Lemma add_constraint_adjacency V E0 s c :
  adjacency_inv V E0 s →
  ∃ s', add_constraint V s c = Ok s' ∧ adjacency_inv V E0 s' ∧
        ∀ a b, b ∈ neighbours (es_G s') a
               ↔ (c = (a, b) ∧ a ∈ V ∧ b ∈ V) ∨ b ∈ neighbours (es_G s) a.
Proof.
  intros Hinv. destruct c as [u v]. unfold add_constraint.
  destruct (decide (u ∈ V)) as [Hu|Hu]; [destruct (decide (v ∈ V)) as [Hv|Hv]|].
  - rewrite !bool_decide_eq_true_2 by done. simpl.
    destruct (add_edge_adjacency V E0 s u v Hinv Hu Hv) as (s' & Hs' & Hinv' & Hin).
    exists s'. split_and!; [done|done|].
    intros a b. rewrite Hin. split.
    + intros [[-> ->]|?]; auto.
    + intros [(Heq & _ & _)|?]; [inversion Heq; auto|auto].
  - rewrite (bool_decide_eq_false_2 (v ∈ V)) by done. rewrite andb_false_r.
    exists s. split_and!; [done|done|]. intros a b. split; [auto|].
    intros [(Heq & _ & ?)|?]; [inversion Heq; by subst|done].
  - rewrite (bool_decide_eq_false_2 (u ∈ V)) by done. simpl.
    exists s. split_and!; [done|done|]. intros a b. split; [auto|].
    intros [(Heq & ? & _)|?]; [inversion Heq; by subst|done].
Qed.

Lemma constraints_adjacency V E0 (f : obj * obj → obj * obj) l : ∀ s,
  adjacency_inv V E0 s →
  ∃ s', for_each (λ s c, add_constraint V s (f c)) l s = Ok s' ∧ adjacency_inv V E0 s' ∧
        ∀ a b, b ∈ neighbours (es_G s') a
               ↔ (∃ c, c ∈ l ∧ f c = (a, b) ∧ a ∈ V ∧ b ∈ V) ∨ b ∈ neighbours (es_G s) a.
Proof.
  induction l as [|c l IH]; intros s Hinv.
  - exists s. split_and!; [done|done|]. intros a b. split; [auto|].
    intros [(c & Hc & _)|?]; [by apply elem_of_nil in Hc|done].
  - destruct (add_constraint_adjacency V E0 s (f c) Hinv) as (s1 & Hs1 & Hinv1 & Hc1).
    destruct (IH s1 Hinv1) as (s' & Hs' & Hinv' & Hc').
    exists s'. simpl. rewrite Hs1. cbn [mbind result_bind].
    split_and!; [done|done|].
    intros a b. rewrite Hc', Hc1. split.
    + intros [(c' & Hin & ?)|[(? & ? & ?)|?]]; [|left; exists c|auto].
      * left. exists c'. split; [by right|done].
      * split; [by left|done].
    + intros [(c' & [->|Hin]%elem_of_cons & ? & ? & ?)|?]; [auto| |auto].
      left. exists c'. auto.
Qed.

Lemma for_each_ext {A S} (f g : S → A → result S) l :
  (∀ s x, f s x = g s x) → ∀ s, for_each f l s = for_each g l s.
Proof.
  intros Hfg. induction l as [|x l IH]; intros s; simpl; [done|].
  rewrite Hfg. destruct (g s x); simpl; auto.
Qed.

Lemma add_callee_constraint_redirect V mcm mgm s c :
  add_callee_constraint V mcm mgm s c = add_constraint V s (redirect mcm mgm c).
Proof. by destruct c. Qed.

(** The interface loop adds the two ports of every interface to [V] and
    the edge from the guard to the method to [E], and nothing else. *)
Lemma nb_ifcs_loop a l : ∀ s s',
  for_each (add_nb_ifc a) l s = Ok s' →
  (∀ e, e ∈ nb_E s' ↔ e ∈ nb_E s ∨ ∃ x, x ∈ l ∧ e = (ifc_rdy x, ifc_method x)) ∧
  (∀ v, v ∈ nb_V s' ↔ v ∈ nb_V s ∨ ∃ x, x ∈ l ∧ (v = ifc_rdy x ∨ v = ifc_method x)).
Proof.
  induction l as [|x l IH]; intros s s' H.
  - inversion H; subst. split; intros y; (split; [auto|]);
      (intros [?|(x & Hx & _)]; [done|by apply elem_of_nil in Hx]).
  - simpl in H. destruct (add_nb_ifc a s x) as [s1| |] eqn:H1;
      cbn [mbind result_bind] in H; [|done..].
    destruct (IH _ _ H) as [HE HV]. unfold add_nb_ifc in H1.
    destruct (get_raw_method a (ifc_method x)); cbn [mbind result_bind] in H1; [|done..].
    destruct (get_raw_method a (ifc_rdy x)); cbn [mbind result_bind] in H1; [|done..].
    destruct (py_assert _); cbn [mbind result_bind] in H1; [|done..].
    inversion H1; subst s1; clear H1. cbn [nb_E nb_V] in HE, HV.
    split.
    + intros e. rewrite HE, elem_of_set_add. split.
      * intros [[->|?]|(y & Hy & ->)]; [right; exists x; split; [by left|done]|auto|].
        right. exists y. split; [by right|done].
      * intros [?|(y & [->|Hy]%elem_of_cons & ->)]; [auto|auto|].
        right. by exists y.
    + intros v. rewrite HV, !elem_of_set_add. split.
      * intros [[->|[->|?]]|(y & Hy & Hv)]; [right; exists x; split; [by left|auto]..|auto|].
        right. exists y. split; [by right|done].
      * intros [?|(y & [->|Hy]%elem_of_cons & Hv)]; [auto| |].
        -- left. destruct Hv as [->| ->]; auto.
        -- right. by exists y.
Qed.

(** The stages of a graph construction that returns. *)
Lemma build_graph_inv top cs g :
  build_graph top cs = Ok g →
  ∃ V1 mcm1 nb es1 es2,
    for_each (add_callee_port (attrs top)) (top_level_callee_ports top)
      (list_difference (final_upblks (_dag top)) (get_all_update_ff top), ∅) = Ok (V1, mcm1) ∧
    for_each (add_nb_ifc (attrs top)) (top_level_nb_ifcs top)
      {| nb_V := V1; nb_E := []; nb_mcm := mcm1; nb_mgm := ∅; nb_gmm := ∅ |} = Ok nb ∧
    for_each (add_constraint (nb_V nb)) cs
      {| es_E := nb_E nb; es_G := list_to_map ((λ v, (v, [])) <$> nb_V nb);
         es_G_T := list_to_map ((λ v, (v, [])) <$> nb_V nb) |} = Ok es1 ∧
    for_each (add_callee_constraint (nb_V nb) (nb_mcm nb) (nb_mgm nb))
      (top_level_callee_constraints (_dag top)) es1 = Ok es2 ∧
    g = {| V := nb_V nb; E := es_E es2; G := es_G es2; G_T := es_G_T es2;
           method_callee_mapping := nb_mcm nb; method_guard_mapping := nb_mgm nb;
           guard_method_mapping := nb_gmm nb |}.
Proof.
  unfold build_graph. intros H. cbv zeta in H.
  match type of H with
  | mbind _ ?m = _ => destruct m as [[V1 mcm1]| |] eqn:H1; cbn [mbind result_bind] in H; [|done..]
  end.
  match type of H with
  | mbind _ ?m = _ => destruct m as [nb| |] eqn:Hnb; cbn [mbind result_bind] in H; [|done..]
  end.
  match type of H with
  | mbind _ ?m = _ => destruct m as [es1| |] eqn:Hes1; cbn [mbind result_bind] in H; [|done..]
  end.
  match type of H with
  | mbind _ ?m = _ => destruct m as [es2| |] eqn:Hes2; cbn [mbind result_bind] in H; [|done..]
  end.
  inversion H; subst g; clear H.
  exists V1, mcm1, nb, es1, es2. split_and!; done.
Qed.

(** What the graph construction establishes about its two edge loops. *)
Lemma build_graph_edges top cs g :
  build_graph top cs = Ok g →
  adjacency_inv (V g) (E g) {| es_E := E g; es_G := G g; es_G_T := G_T g |} ∧
  (∀ u v, (u, v) ∈ E g ↔
     v ∈ neighbours (G g) u ∨
     ∃ x, x ∈ top_level_nb_ifcs top ∧ u = ifc_rdy x ∧ v = ifc_method x) ∧
  (∀ u v, v ∈ neighbours (G g) u ↔
     u ∈ V g ∧ v ∈ V g ∧
     ((u, v) ∈ cs ∨
      ∃ c, c ∈ top_level_callee_constraints (_dag top) ∧
           redirect (method_callee_mapping g) (method_guard_mapping g) c = (u, v))) ∧
  (∀ x, x ∈ top_level_nb_ifcs top → ifc_rdy x ∈ V g ∧ ifc_method x ∈ V g).
Proof.
  intros H. destruct (build_graph_inv _ _ _ H) as (V1 & mcm1 & nb & es1 & es2 & _ & Hnb & H1 & H2 & ->).
  cbn [V E G G_T method_callee_mapping method_guard_mapping].
  apply nb_ifcs_loop in Hnb as [HnE HnV]. cbn [nb_E nb_V] in HnE, HnV.
  destruct (constraints_adjacency (nb_V nb) (nb_E nb) id cs _ (empty_adj_inv (nb_V nb) (nb_E nb)))
    as (es1' & H1' & Hinv1 & Hedges1).
  change (λ s c, add_constraint (nb_V nb) s (id c)) with (add_constraint (nb_V nb)) in H1'.
  rewrite H1 in H1'. inversion H1'; subst es1'; clear H1'.
  destruct (constraints_adjacency (nb_V nb) (nb_E nb) (redirect (nb_mcm nb) (nb_mgm nb))
              (top_level_callee_constraints (_dag top)) _ Hinv1)
    as (es2' & H2' & Hinv2 & Hedges2).
  rewrite (for_each_ext _ (add_callee_constraint (nb_V nb) (nb_mcm nb) (nb_mgm nb))) in H2'.
  2:{ intros s c. by rewrite add_callee_constraint_redirect. }
  rewrite H2 in H2'. inversion H2'; subst es2'; clear H2'.
  cbn [es_G] in Hedges1.
  assert (Hempty : ∀ a, neighbours (list_to_map ((λ v, (v, [])) <$> nb_V nb)) a = []).
  { intros a. unfold neighbours. rewrite empty_adj_lookup. by destruct (decide _). }
  assert (HE : ∀ u v, (u, v) ∈ es_E es2 ↔
     v ∈ neighbours (es_G es2) u ∨
     ∃ x, x ∈ top_level_nb_ifcs top ∧ u = ifc_rdy x ∧ v = ifc_method x).
  { intros u v. rewrite (adj_E _ _ _ Hinv2), HnE. split.
    - intros [[H0|(x & Hx & Heq)]|?]; [by apply elem_of_nil in H0| |auto].
      inversion Heq; subst. right. by exists x.
    - intros [?|(x & Hx & -> & ->)]; [auto|]. left. right. by exists x. }
  split_and!.
  - destruct Hinv2 as [Hd HdT Ht HE2 HV2]. split; cbn [es_E es_G es_G_T]; try done.
    intros u v. split; [auto|]. intros [?|?]; [done|]. apply HE2. auto.
  - exact HE.
  - intros u v. rewrite Hedges2, Hedges1, Hempty. unfold id. split.
    + intros [(c & Hc & Heq & ? & ?)|[(c & Hc & -> & ? & ?)|H0]];
        [split_and!; [done..|right; by exists c]|split_and!; [done..|by left]
        |by apply elem_of_nil in H0].
    + intros (Hu & Hv & [Hc|(c & Hc & Heq)]); [right; left; by exists (u, v)|].
      left. by exists c.
  - intros x Hx. split; apply HnV; right; exists x; auto.
Qed.

(** ** Kosaraju's algorithm (lines 133-174) *)

Lemma pending_unvisited (adj : list obj) stack :
  pending (((λ v, (v, false)) <$> adj) ++ stack) = pending stack.
Proof.
  unfold pending. rewrite filter_app.
  replace (filter (λ p : obj * bool, p.2 = true) ((λ v, (v, false)) <$> adj)) with (@nil (obj * bool));
    [done|].
  induction adj as [|v adj IH]; [done|]. rewrite fmap_cons, filter_cons_False; done.
Qed.

Lemma pending_cons u b stack :
  pending ((u, b) :: stack) = if b then u :: pending stack else pending stack.
Proof.
  unfold pending. destruct b.
  - by rewrite filter_cons_True.
  - by rewrite filter_cons_False.
Qed.

Lemma elem_of_pending u stack : u ∈ pending stack ↔ (u, true) ∈ stack.
Proof.
  unfold pending. rewrite list_elem_of_fmap. split.
  - intros ([v b] & -> & [Hb Hin]%list_elem_of_filter). simpl in *. by subst.
  - intros Hin. exists (u, true). split; [done|]. by apply list_elem_of_filter.
Qed.

(** The first pass: what one run of the [while stack] loop leaves. *)
Lemma dfs_while_inv G fuel : ∀ stack visited PO visited' PO',
  dfs_while fuel G stack visited PO = Ok (visited', PO') →
  dfs_inv stack visited PO →
  (∀ x, x ∈ visited → is_Some (G !! x)) →
  dfs_inv [] visited' PO' ∧
  (∀ x, x ∈ visited → x ∈ visited') ∧
  (∀ v b, (v, b) ∈ stack → v ∈ visited') ∧
  (∀ x, x ∈ visited' → is_Some (G !! x)).
Proof.
  induction fuel as [|fuel IH]; intros stack visited PO visited' PO' H [Hnd Hv] Hk.
  - simpl in H. destruct stack as [|[u b] stack]; [|done]. inversion H; subst.
    split_and!; [by split|done| |done]. intros v b Hin. by apply elem_of_nil in Hin.
  - simpl in H. destruct stack as [|[u b] stack].
    { inversion H; subst. split_and!; [by split|done| |done].
      intros v b Hin. by apply elem_of_nil in Hin. }
    destruct b.
    + (* second visit *)
      rewrite pending_cons in Hnd. setoid_rewrite pending_cons in Hv.
      apply IH in H as (HI & Hm & Hs & Hk'); [| |done].
      * split_and!; [done|done| |done].
        intros v b [Heq|Hin]%elem_of_cons; [|by eapply Hs].
        inversion Heq; subst. apply Hm, Hv. right. by left.
      * split.
        -- rewrite <- app_assoc. simpl. done.
        -- intros x. rewrite Hv, elem_of_app, list_elem_of_singleton, elem_of_cons. tauto.
    + rewrite pending_cons in Hnd. setoid_rewrite pending_cons in Hv.
      case_bool_decide as Hu.
      * (* first visit *)
        destruct (getitem G u) as [adj| |] eqn:Hadj; cbn [mbind result_bind] in H; [|done..].
        apply IH in H as (HI & Hm & Hs & Hk').
        -- split_and!; [done| | |done].
           ++ intros x Hx. apply Hm, elem_of_union. auto.
           ++ intros v b [Heq|Hin]%elem_of_cons.
              ** inversion Heq; subst. apply Hm, elem_of_union. left. by apply elem_of_singleton.
              ** eapply Hs. apply elem_of_app. right. right. done.
        -- split.
           ++ rewrite pending_unvisited, pending_cons.
              apply NoDup_app in Hnd as (H1 & H2 & H3).
              apply NoDup_app. split_and!; [done| |].
              ** intros x Hx [->|Hin]%elem_of_cons; [|by eapply H2].
                 apply Hu, Hv. auto.
              ** apply NoDup_cons. split; [|done]. intros Hin. apply Hu, Hv. auto.
           ++ intros x. rewrite pending_unvisited, pending_cons, elem_of_cons.
              rewrite elem_of_union, elem_of_singleton, Hv. tauto.
        -- intros x [Hx%elem_of_singleton|Hx]%elem_of_union; [subst x|auto].
           unfold getitem in Hadj. destruct (G !! u); [eauto|done].
      * apply IH in H as (HI & Hm & Hs & Hk'); [|by split|done].
        split_and!; [done|done| |done].
        intros v b [Heq|Hin]%elem_of_cons; [|by eapply Hs].
        inversion Heq; subst. by apply Hm.
Qed.

(** The post-order lists every vertex it was started from, each vertex at
    most once, and only keys of [G]. *)
Lemma post_order_spec G vertices PO :
  post_order G vertices = Ok PO →
  NoDup PO ∧ (∀ u, u ∈ vertices → u ∈ PO) ∧ (∀ u, u ∈ PO → is_Some (G !! u)).
Proof.
  unfold post_order. intros H.
  match type of H with
  | mbind _ ?m = _ => destruct m as [[visited PO1]| |] eqn:Hf; cbn [mbind result_bind] in H; [|done..]
  end.
  inversion H; subst PO1; clear H.
  destruct (for_each_invariant
              (λ s : gset obj * list obj,
                 dfs_inv [] s.1 s.2 ∧ ∀ x, x ∈ s.1 → is_Some (G !! x))
              (λ s u, u ∈ s.1)
              (λ '(visited, PO) u, dfs_while (traversal_budget G) G [(u, false)] visited PO)
              vertices) with (s := (∅, []) : gset obj * list obj) (s' := (visited, PO))
    as ([[Hnd Hv] Hk] & _ & Hall); [| |done|].
  - intros [vis po] u [vis' po'] [[Hnd Hv] Hk] Hstep. cbn [fst snd] in *.
    apply dfs_while_inv in Hstep as (HI & Hm & Hs & Hk'); [| |done].
    + split_and!; [done|done| |].
      * eapply Hs. by left.
      * intros y. apply Hm.
    + split; [by rewrite pending_cons|]. intros x. by rewrite pending_cons.
  - simpl. split; [|set_solver]. split; [constructor|].
    intros u. rewrite elem_of_empty. split; [done|].
    intros [H|H]; by apply elem_of_nil in H.
  - simpl in *. unfold pending in Hnd, Hv. simpl in Hnd, Hv. rewrite app_nil_r in Hnd.
    split_and!; [done| |].
    + intros u Hu. apply Hall in Hu. apply Hv in Hu as [?|Hu]; [done|by apply elem_of_nil in Hu].
    + intros u Hu. apply Hk, Hv. auto.
Qed.

Lemma NoDup_set_add {A} `{EqDecision A} (x : A) (s : list A) :
  NoDup s → NoDup (set_add x s).
Proof.
  intros Hnd. unfold set_add. destruct (decide (x ∈ s)); [done|].
  apply NoDup_app. split_and!; [done| |apply NoDup_singleton].
  intros y Hy Hy'%list_elem_of_singleton. by subst.
Qed.

Section second_pass_partition.
Context (G_T : gmap obj (list obj)) (done : list (list obj)).
Local Abbreviation visit := (λ '(Q, scc, visited) (v : obj),
           if bool_decide (v ∉ (visited : gset obj))
           then (Q ++ [v], set_add v scc, {[v]} ∪ visited)
           else (Q, scc, visited)).

Lemma visit_neighbours_inv (v_SCC : gmap obj nat) (adj : list obj) :
  ∀ (Q scc : list obj) (visited : gset obj) Q' scc' visited',
  foldl visit (Q, scc, visited) adj = (Q', scc', visited') →
  bfs_inv G_T done Q scc v_SCC visited →
  bfs_inv G_T done Q' scc' v_SCC visited' ∧
  (∀ x, x ∈ scc → x ∈ scc') ∧ (∀ x, x ∈ visited → x ∈ visited').
Proof.
  induction adj as [|v adj IH]; intros Q scc visited Q' scc' visited' H Hinv.
  - simpl in H. by inversion H; subst.
  - simpl in H. case_bool_decide as Hv.
    + apply IH in H as (HI & Hs & Hm).
      * split_and!; [done| |].
        -- intros x Hx. apply Hs, elem_of_set_add. auto.
        -- intros x Hx. apply Hm, elem_of_union. auto.
      * destruct Hinv as [Hvis Hdone Hrange Hcur [HQ HQn] Hnd Hkeys].
        assert (Hnum : v_SCC !! v = None).
        { destruct (v_SCC !! v) eqn:E; [|done]. exfalso. apply Hv, Hvis. eauto. }
        assert (HvQ : v ∉ Q) by (intros Hin; apply Hv, Hvis; auto).
        split; try done.
        -- intros x. rewrite elem_of_union, elem_of_singleton, Hvis, elem_of_app,
             list_elem_of_singleton. tauto.
        -- intros x. rewrite elem_of_set_add, Hcur, elem_of_app, list_elem_of_singleton. tauto.
        -- split.
           ++ apply NoDup_app. split_and!; [done| |apply NoDup_singleton].
              intros x Hx Hx'%list_elem_of_singleton. by subst.
           ++ intros x [Hx|Hx%list_elem_of_singleton]%elem_of_app; [auto|by subst].
        -- by apply NoDup_set_add.
    + by apply IH in H.
Qed.

Lemma bfs_while_inv fuel : ∀ Q scc v_SCC visited scc' v_SCC' visited',
  bfs_while fuel G_T (length done) Q scc v_SCC visited = Ok (scc', v_SCC', visited') →
  bfs_inv G_T done Q scc v_SCC visited →
  bfs_inv G_T done [] scc' v_SCC' visited' ∧
  (∀ x, x ∈ scc → x ∈ scc') ∧ (∀ x, x ∈ visited → x ∈ visited').
Proof.
  induction fuel as [|fuel IH]; intros Q scc v_SCC visited scc' v_SCC' visited' H Hinv.
  - simpl in H. destruct Q; [|done]. by inversion H; subst.
  - simpl in H. destruct Q as [|u Q]; [by inversion H; subst|].
    destruct (getitem G_T u) as [adj| |] eqn:Hadj; cbn [mbind result_bind] in H; [|done..].
    match type of H with
    | context [foldl ?f ?a adj] => destruct (foldl f a adj) as [[Q1 scc1] visited1] eqn:Hf
    end.
    assert (Hpop : bfs_inv G_T done Q scc (<[u := length done]> v_SCC) visited).
    { destruct Hinv as [Hvis Hdone Hrange Hcur [HQ HQn] Hnd Hkeys].
      apply NoDup_cons in HQ as [HuQ HQ].
      assert (Hun : v_SCC !! u = None) by (apply HQn; by left).
      split.
      - intros x. rewrite Hvis, lookup_insert_is_Some, elem_of_cons.
        split; [intros [?|[->|?]]|intros [[->|[_ ?]]|?]]; auto.
        destruct (decide (u = x)); auto.
      - intros x j Hj. destruct (decide (x = u)) as [->|Hne].
        + rewrite lookup_insert_eq. split; [intros Heq; inversion Heq; lia|].
          intros Hs. apply Hdone in Hs; [congruence|done].
        + rewrite lookup_insert_ne by done. by apply Hdone.
      - intros x j. destruct (decide (x = u)) as [->|Hne].
        + rewrite lookup_insert_eq. intros Heq. inversion Heq. lia.
        + rewrite lookup_insert_ne by done. apply Hrange.
      - intros x. rewrite Hcur, elem_of_cons. destruct (decide (x = u)) as [->|Hne].
        + rewrite lookup_insert_eq. split; auto.
        + rewrite lookup_insert_ne by done. split; [intros [?|[?|?]]|intros [?|?]]; auto.
          done.
      - split; [done|]. intros x Hx. rewrite lookup_insert_ne; [apply HQn; by right|].
        intros ->. done.
      - done.
      - intros x. rewrite lookup_insert_is_Some. intros [<-|[_ Hx]]; [|auto].
        unfold getitem in Hadj. destruct (G_T !! u); [eauto|done]. }
    apply (visit_neighbours_inv (<[u := length done]> v_SCC)) in Hf as (Hinv1 & Hs1 & Hm1);
      [|done].
    apply IH in H as (HI & Hs & Hm); [|done].
    split_and!; [done|auto|auto].
Qed.
End second_pass_partition.

Lemma scc_of_seed_inv G_T s u s' :
  scc_of_seed G_T s u = Ok s' → scc_inv G_T s →
  scc_inv G_T s' ∧ u ∈ st_visited s' ∧ (∀ x, x ∈ st_visited s → x ∈ st_visited s').
Proof.
  unfold scc_of_seed. intros H Hinv. case_bool_decide as Hu.
  2:{ inversion H; subst. done. }
  destruct (bfs_while _ _ _ _ _ _ _) as [[[scc v_SCC] visited]| |] eqn:Hb;
    cbn [mbind result_bind] in H; [|done..].
  inversion H; subst s'; clear H. cbn [st_SCCs st_v_SCC st_visited].
  destruct Hinv as [Hvis Hmem Hne Hkeys].
  assert (Hlt : ∀ x j, st_v_SCC s !! x = Some j → j < length (st_SCCs s)).
  { intros x j Hj. apply Hmem in Hj as (scc0 & Hs & _). by eapply lookup_lt_Some. }
  apply bfs_while_inv in Hb as (HI & Hs & Hm).
  - destruct HI as [Hvis' Hdone' Hrange' Hcur' _ Hnd' Hkeys'].
    split_and!.
    + split; cbn [st_SCCs st_v_SCC st_visited].
      * intros x. rewrite Hvis'. split; [intros [?|Hx]; [done|by apply elem_of_nil in Hx]|auto].
      * intros x j. destruct (decide (j < length (st_SCCs s))) as [Hj|Hj].
        -- rewrite (Hdone' x j Hj). split; intros (s0 & Hs0 & Hin); exists s0.
           ++ split; [by apply lookup_app_l_Some|done].
           ++ split; [|done]. by rewrite lookup_app_l in Hs0.
        -- split.
           ++ intros Hx. pose proof (Hrange' _ _ Hx).
              assert (j = length (st_SCCs s)) as -> by lia.
              exists scc. split; [|apply Hcur'; auto].
              rewrite lookup_app_r by done. by rewrite Nat.sub_diag.
           ++ intros (s0 & Hs0 & Hin).
              rewrite lookup_app_r in Hs0 by lia.
              destruct (j - length (st_SCCs s)) as [|d] eqn:Hd; [|by destruct d].
              simpl in Hs0. inversion Hs0; subst s0.
              assert (j = length (st_SCCs s)) as -> by lia.
              apply Hcur' in Hin as [?|Hin]; [done|by apply elem_of_nil in Hin].
      * intros j scc0 [Hs0|[Hlen Hs0]]%lookup_app_Some; [by eapply Hne|].
        destruct (j - length (st_SCCs s)) as [|d]; [|by destruct d].
        simpl in Hs0. inversion Hs0; subst scc0. split; [|done].
        intros ->. assert (Hin : u ∈ @nil obj); [|by apply elem_of_nil in Hin].
        apply Hs, elem_of_set_add. auto.
      * done.
    + apply Hm, elem_of_union. left. by apply elem_of_singleton.
    + intros x Hx. apply Hm, elem_of_union. auto.
  - assert (Hun : st_v_SCC s !! u = None).
    { destruct (st_v_SCC s !! u) eqn:E; [|done]. exfalso. apply Hu, Hvis. eauto. }
    split.
    + intros x. rewrite elem_of_union, elem_of_singleton, Hvis, list_elem_of_singleton. tauto.
    + intros x j Hj. apply Hmem.
    + intros x j Hj. apply Nat.lt_le_incl. by eapply Hlt.
    + intros x. unfold set_add. simpl. rewrite list_elem_of_singleton. split; [auto|].
      intros [Hx|?]; [|done]. apply Hlt in Hx. lia.
    + split; [apply NoDup_singleton|]. intros x ->%list_elem_of_singleton. done.
    + unfold set_add. simpl. apply NoDup_singleton.
    + done.
Qed.

(** The sets of [SCCs] partition the vertices handed to the algorithm: a
    vertex carries the number of the one set it lies in. *)
Lemma kosaraju_spec g vertices SCCs v_SCC :
  kosaraju g vertices = Ok (SCCs, v_SCC) →
  (∀ u, u ∈ vertices → is_Some (v_SCC !! u)) ∧
  (∀ x j, v_SCC !! x = Some j ↔ ∃ scc, SCCs !! j = Some scc ∧ x ∈ scc) ∧
  (∀ j scc, SCCs !! j = Some scc → scc ≠ [] ∧ NoDup scc) ∧
  (∀ x, is_Some (v_SCC !! x) → is_Some (G_T g !! x)).
Proof.
  unfold kosaraju. intros H.
  destruct (post_order (G g) vertices) as [PO| |] eqn:HPO; cbn [mbind result_bind] in H; [|done..].
  cbv zeta in H.
  match type of H with
  | mbind _ ?m = _ => destruct m as [st| |] eqn:Hst; cbn [mbind result_bind] in H; [|done..]
  end.
  inversion H; subst; clear H.
  apply post_order_spec in HPO as (HPOnd & HPOall & HPOk).
  destruct (for_each_invariant
              (scc_inv (G_T g))
              (λ s u, u ∈ st_visited s)
              (scc_of_seed (G_T g)) (reverse PO)) with
      (s := {| st_SCCs := []; st_v_SCC := ∅; st_visited := ∅ |}) (s' := st)
    as (Hinv & _ & Hall); [| |done|].
  - intros s x s' HP Hs.
    destruct (scc_of_seed_inv _ _ _ _ Hs HP) as (HP' & Hx & Hm).
    split_and!; [done|done|auto].
  - split; cbn [st_SCCs st_v_SCC st_visited].
    + intros x. rewrite lookup_empty. split; [set_solver|]. by intros [? ?].
    + intros x j. rewrite lookup_empty. split; [done|]. by intros (? & ? & _).
    + intros j scc Hj. done.
    + intros x. rewrite lookup_empty. by intros [? ?].
  - destruct Hinv as [Hvis Hmem Hne Hkeys]. split_and!; [|done|done|done].
    intros u Hu. apply Hvis, Hall, elem_of_reverse, HPOall, Hu.
Qed.

(** ** The topological sort (lines 189-219) *)

Section kahn_progress.
Context (mgm gmm : gmap obj obj) (G_new : gmap nat (list nat)) (n : nat) (InD0 : gmap nat Z).
Hypothesis wf : wf_condensed n G_new InD0.

Lemma relax_ok u s v d :
  ts_InD s !! v = Some d →
  ∃ s1, relax u s v = Ok s1 ∧ ts_InD s1 = <[v := (d - 1)%Z]> (ts_InD s).
Proof.
  intros Hd. unfold relax, getitem. rewrite Hd. cbn [mbind result_bind].
  case_bool_decide; eexists; split; reflexivity.
Qed.

Lemma relax_all_ok u l : ∀ s,
  (∀ v, v ∈ l → is_Some (ts_InD s !! v)) → ∃ s', for_each (relax u) l s = Ok s'.
Proof.
  induction l as [|v l IH]; intros s Hl; [by eexists|].
  destruct (Hl v) as [d Hd]; [by left|].
  destruct (relax_ok u s v d Hd) as (s1 & Hs1 & HI).
  cbn [for_each]. rewrite Hs1. cbn [mbind result_bind]. apply IH. intros x Hx. rewrite HI.
  apply lookup_insert_is_Some. destruct (decide (v = x)); [auto|].
  right. split; [done|]. apply Hl. by right.
Qed.

(** While the frontier is not empty an iteration of the loop cannot raise. *)
Lemma topo_step_ok s :
  topo_inv n G_new s → ts_Q s ≠ [] → ∃ s', topo_step mgm gmm G_new s = Ok s'.
Proof.
  intros [Hnd Hr HI Hrdy Hord] HQ.
  destruct (ts_Q s) as [|u Q'] eqn:EQ; [done|]. clear HQ.
  unfold topo_step. rewrite EQ, pop_preferred_head. cbn [ts_u].
  assert (Hu : u < n) by (apply Hr; rewrite elem_of_app, elem_of_cons; auto).
  destruct (proj2 (wf_dom _ _ _ wf u) Hu) as [l Hl].
  unfold getitem. rewrite Hl. cbn [mbind result_bind].
  apply relax_all_ok. cbn [ts_InD]. intros v Hv.
  rewrite (HI v); [eauto|]. by apply (wf_sets _ _ _ wf u l Hl).
Qed.

Lemma topo_while_no_raise fuel : ∀ s e,
  topo_inv n G_new s → topo_while fuel mgm gmm G_new s ≠ Raise e.
Proof.
  induction fuel as [|fuel IH]; intros s e Hinv; simpl.
  - by destruct (ts_Q s).
  - destruct (ts_Q s) as [|u Q'] eqn:EQ; [done|].
    destruct (topo_step_ok s Hinv) as [s1 Hs1]; [by rewrite EQ|].
    rewrite Hs1. cbn [mbind result_bind]. apply IH.
    eapply topo_step_inv; [done|done| |done]. by rewrite EQ.
Qed.

Lemma initial_frontier_ok l : ∀ Q,
  (∀ i, i ∈ l → i < n) →
  ∃ Q', for_each (λ Q i, d ← getitem InD0 i;
                        Ok (if bool_decide (d = 0%Z) then Q ++ [i] else Q)) l Q = Ok Q'.
Proof.
  induction l as [|x l IH]; intros Q Hl; [by eexists|].
  assert (Hg : getitem InD0 x = Ok (Z.of_nat (preds_in G_new (seq 0 n) x))).
  { unfold getitem. by rewrite (wf_InD _ _ _ wf x) by (apply Hl; by left). }
  cbn [for_each]. rewrite Hg. cbn [mbind result_bind]. apply IH. intros i Hi. apply Hl. by right.
Qed.

Lemma initial_topo_inv :
  topo_inv n G_new
    {| ts_Q := filter (λ i, InD0 !! i = Some 0%Z) (seq 0 n); ts_InD := InD0;
       ts_pred := foldl (λ p x, <[x := None]> p) ∅
                    (filter (λ i, InD0 !! i = Some 0%Z) (seq 0 n));
       ts_schedule := []; ts_u := None |}.
Proof.
  split; cbn [ts_schedule ts_Q ts_InD].
  - simpl. apply NoDup_filter, NoDup_seq.
  - intros x [_ Hx]%list_elem_of_filter. apply elem_of_seq in Hx. lia.
  - intros b Hb. rewrite (wf_InD _ _ _ wf b Hb).
    change (preds_in G_new [] b) with 0. f_equal. lia.
  - intros b Hb. simpl. rewrite list_elem_of_filter, (wf_InD _ _ _ wf b Hb), elem_of_seq.
    change (preds_in G_new [] b) with 0. split.
    + intros [Heq _]. inversion Heq. lia.
    + intros Heq. split; [f_equal; lia|lia].
  - intros j b Hj. done.
Qed.

(** The stages of the sort: the first frontier, the loop, the assertion. *)
Lemma topo_sort_stages :
  ∃ s, topo_while (topo_budget (filter (λ i, InD0 !! i = Some 0%Z) (seq 0 n)) InD0)
         mgm gmm G_new
         {| ts_Q := filter (λ i, InD0 !! i = Some 0%Z) (seq 0 n); ts_InD := InD0;
            ts_pred := foldl (λ p x, <[x := None]> p) ∅
                         (filter (λ i, InD0 !! i = Some 0%Z) (seq 0 n));
            ts_schedule := []; ts_u := None |} = Ok s ∧
       topo_inv n G_new s ∧ ts_Q s = [] ∧
       topo_sort n mgm gmm G_new InD0 =
         (_ ← py_assert (bool_decide (length (ts_schedule s) = n)); Ok (ts_pred s, ts_schedule s)).
Proof.
  destruct (initial_frontier_ok (seq 0 n) []) as [Q HQ].
  { intros i Hi. apply elem_of_seq in Hi. lia. }
  pose proof (initial_frontier _ _ _ _ HQ) as HQe. simpl in HQe. subst Q.
  pose proof initial_topo_inv as Hinit.
  match type of Hinit with
  | topo_inv _ _ ?s0 =>
    destruct (topo_while (topo_budget (ts_Q s0) InD0) mgm gmm G_new s0) as [s|e|] eqn:Hw
  end.
  - destruct (topo_while_inv mgm gmm G_new n InD0 wf _ _ _ Hinit Hw) as [Hinv HQ'].
    exists s. split_and!; [exact Hw|done|done|].
    unfold topo_sort. rewrite HQ. cbn [mbind result_bind]. cbv zeta.
    cbn [ts_Q] in Hw. rewrite Hw. reflexivity.
  - exfalso. by eapply topo_while_no_raise.
  - exfalso. eapply topo_while_fuel; [|exact Hw].
    unfold topo_measure, topo_budget. cbn [ts_Q ts_InD]. lia.
Qed.

(** With every predecessor of [b] scheduled, [b] is on the frontier or
    scheduled: at the end of the loop, scheduled. *)
Lemma ranked_scheduled s (rank : nat → nat) :
  topo_inv n G_new s → ts_Q s = [] →
  (∀ a b, b ∈ succs G_new a → rank a < rank b) →
  ∀ k b, rank b < k → b < n → b ∈ ts_schedule s.
Proof.
  intros [Hnd Hr HI Hrdy Hord] HQ Hrank. rewrite HQ, app_nil_r in Hnd, Hr, Hrdy.
  induction k as [|k IH]; intros b Hk Hb; [lia|].
  apply (Hrdy b Hb).
  destruct (cnt_bound G_new n (ts_schedule s) b Hnd Hr) as [Hle _].
  apply Nat.le_antisymm; [done|].
  unfold preds_in.
  destruct (count_sub (λ a, b ∈ succs G_new a)
              (filter (λ a, b ∈ succs G_new a) (seq 0 n)) (ts_schedule s)) as [Hc _].
  - apply NoDup_filter, NoDup_seq.
  - intros a [Hab Ha]%list_elem_of_filter. apply IH.
    + specialize (Hrank a b Hab). lia.
    + apply elem_of_seq in Ha. lia.
  - rewrite list_filter_filter in Hc.
    erewrite (filter_ext_in _ (λ a, b ∈ succs G_new a)) in Hc; [exact Hc|].
    intros x _. tauto.
Qed.

Lemma topo_sort_cases :
  (acyclic G_new → ∃ r, topo_sort n mgm gmm G_new InD0 = Ok r) ∧
  (¬ acyclic G_new → topo_sort n mgm gmm G_new InD0 = Raise AssertionError) ∧
  (∀ r, topo_sort n mgm gmm G_new InD0 = Ok r → acyclic G_new).
Proof.
  destruct topo_sort_stages as (s & Hw & Hinv & HQ & Hsort).
  assert (Hsound : ∀ r, topo_sort n mgm gmm G_new InD0 = Ok r → acyclic G_new).
  { intros [pred sched] Hr.
    destruct (topo_sort_sorted mgm gmm G_new n InD0 wf _ _ Hr) as (Hnd & _ & Hall & Hord).
    exists (λ a, from_option fst 0 (list_find (λ x, x = a) sched)).
    intros a b Hab.
    assert (Ha : a < n).
    { apply (wf_dom _ _ _ wf). unfold succs in Hab.
      destruct (G_new !! a); [eauto|by apply elem_of_nil in Hab]. }
    destruct (Hord a b Ha Hab) as (i & j & Hij & Hi & Hj).
    assert (Hfind : ∀ k x, sched !! k = Some x →
                           list_find (λ y, y = x) sched = Some (k, x)).
    { intros k x Hk. apply list_find_Some. split_and!; [done|done|].
      intros k' y Hk' Hlt ->. pose proof (NoDup_lookup _ _ _ _ Hnd Hk Hk'). lia. }
    rewrite (Hfind _ _ Hi), (Hfind _ _ Hj). simpl. done. }
  assert (Hcomplete : acyclic G_new → length (ts_schedule s) = n).
  { intros [rank Hrank].
    pose proof Hinv as [Hnd Hr _ _ _]. rewrite HQ, app_nil_r in Hnd, Hr.
    assert (ts_schedule s ⊆+ seq 0 n) as Hsub.
    { apply NoDup_submseteq; [done|]. intros x Hx. apply elem_of_seq.
      specialize (Hr x Hx). lia. }
    assert (seq 0 n ⊆+ ts_schedule s) as Hsup.
    { apply NoDup_submseteq; [apply NoDup_seq|]. intros x Hx. apply elem_of_seq in Hx.
      apply (ranked_scheduled s rank Hinv HQ Hrank (S (rank x))); lia. }
    apply submseteq_length in Hsub, Hsup. rewrite length_seq in Hsub, Hsup. lia. }
  split_and!; [| |exact Hsound].
  - intros Hac. exists (ts_pred s, ts_schedule s).
    rewrite Hsort.
    destruct (bool_decide (length (ts_schedule s) = n)) eqn:E; [reflexivity|].
    apply bool_decide_eq_false in E. by apply Hcomplete in Hac.
  - intros Hcyc. rewrite Hsort. case_bool_decide as Hlen; [|done].
    exfalso. apply Hcyc. apply (Hsound (ts_pred s, ts_schedule s)).
    rewrite Hsort. reflexivity.
Qed.

(** *** The predecessor recorded for every SCC *)

Lemma relax_pred u s v s' :
  relax u s v = Ok s' →
  ts_schedule s' = ts_schedule s ∧
  ((ts_Q s' = ts_Q s ++ [v] ∧ ts_pred s' = <[v := Some u]> (ts_pred s)) ∨
   (ts_Q s' = ts_Q s ∧ ts_pred s' = ts_pred s)).
Proof.
  unfold relax, getitem. intros H.
  destruct (ts_InD s !! v) as [d|]; [|done]. cbn [mbind result_bind] in H.
  case_bool_decide; inversion H; subst; simpl; auto.
Qed.

Lemma relax_pred_inv u s v s' :
  relax u s v = Ok s' → v ∈ succs G_new u → u ∈ ts_schedule s →
  pred_inv G_new InD0 s → pred_inv G_new InD0 s'.
Proof.
  intros H Hv Hu [Hdom Hsome Hnone].
  apply relax_pred in H as [HS [[HQ HP]|[HQ HP]]]; split; rewrite ?HS, ?HQ, ?HP.
  - intros x. rewrite app_assoc, elem_of_app, list_elem_of_singleton, lookup_insert_is_Some.
    intros [Hx| ->]; [|auto]. destruct (decide (v = x)); auto.
  - intros x w. destruct (decide (x = v)) as [->|Hne].
    + rewrite lookup_insert_eq. intros Heq. inversion Heq; subst. done.
    + rewrite lookup_insert_ne by done. apply Hsome.
  - intros x. destruct (decide (x = v)) as [->|Hne].
    + rewrite lookup_insert_eq. done.
    + rewrite lookup_insert_ne by done. apply Hnone.
  - done.
  - done.
  - done.
Qed.

Lemma relax_all_pred_inv u l : ∀ s s',
  for_each (relax u) l s = Ok s' → (∀ v, v ∈ l → v ∈ succs G_new u) → u ∈ ts_schedule s →
  pred_inv G_new InD0 s → pred_inv G_new InD0 s'.
Proof.
  induction l as [|v l IH]; intros s s' H Hl Hu Hinv; [by inversion H; subst|].
  simpl in H. destruct (relax u s v) as [s1| |] eqn:H1; cbn [mbind result_bind] in H; [|done..].
  apply (IH s1); [done| | |].
  - intros x Hx. apply Hl. by right.
  - apply relax_pred in H1 as [-> _]. done.
  - eapply relax_pred_inv; [done| |done|done]. apply Hl. by left.
Qed.

Lemma topo_step_pred_inv s s' :
  ts_Q s ≠ [] → topo_step mgm gmm G_new s = Ok s' →
  pred_inv G_new InD0 s → pred_inv G_new InD0 s'.
Proof.
  intros HQ Hstep [Hdom Hsome Hnone].
  destruct (ts_Q s) as [|u Q'] eqn:EQ; [done|]. clear HQ.
  unfold topo_step in Hstep. rewrite EQ, pop_preferred_head in Hstep.
  cbn [ts_u] in Hstep. unfold getitem in Hstep.
  destruct (G_new !! u) as [l|] eqn:Hl; cbn [mbind result_bind] in Hstep; [|done].
  eapply relax_all_pred_inv; [exact Hstep| | |].
  - intros v Hv. unfold succs. by rewrite Hl.
  - cbn [ts_schedule]. apply elem_of_app. right. by left.
  - split; cbn [ts_schedule ts_Q ts_pred].
    + intros v Hv. apply Hdom. by rewrite <- app_assoc in Hv.
    + intros v w Hvw. destruct (Hsome v w Hvw). split; [done|]. apply elem_of_app. auto.
    + done.
Qed.

Lemma topo_while_pred_inv fuel : ∀ s s',
  topo_while fuel mgm gmm G_new s = Ok s' →
  pred_inv G_new InD0 s → pred_inv G_new InD0 s'.
Proof.
  induction fuel as [|fuel IH]; intros s s' H Hinv.
  - simpl in H. destruct (ts_Q s); [|done]. by inversion H; subst.
  - simpl in H. destruct (ts_Q s) as [|u Q'] eqn:EQ; [by inversion H; subst|].
    destruct (topo_step mgm gmm G_new s) as [s1| |] eqn:Hstep;
      cbn [mbind result_bind] in H; [|done..].
    apply (IH s1); [done|]. eapply topo_step_pred_inv; [|done|done]. by rewrite EQ.
Qed.

Lemma frontier_pred_lookup (Q : list nat) v :
  foldl (λ p x, <[x := None]> p) (∅ : gmap nat (option nat)) Q !! v
  = if decide (v ∈ Q) then Some None else None.
Proof.
  induction Q as [|x Q IH] using rev_ind.
  - simpl. rewrite lookup_empty.
    destruct (decide (v ∈ [])) as [H|]; [by apply elem_of_nil in H|done].
  - rewrite foldl_app. simpl. destruct (decide (v = x)) as [->|Hne].
    + rewrite lookup_insert_eq. destruct (decide (x ∈ Q ++ [x])) as [|H]; [done|].
      exfalso. apply H, elem_of_app. right. by left.
    + rewrite lookup_insert_ne by done. rewrite IH.
      destruct (decide (v ∈ Q)) as [Hin|Hnin]; destruct (decide (v ∈ Q ++ [x])) as [Hin'|Hnin'];
        [done| | |done].
      * exfalso. apply Hnin', elem_of_app. auto.
      * apply elem_of_app in Hin' as [?|Hx%list_elem_of_singleton]; done.
Qed.

Lemma unpreceded b :
  b < n → InD0 !! b = Some 0%Z → ∀ a, b ∉ succs G_new a.
Proof.
  intros Hb H0 a Hab.
  assert (Ha : a < n).
  { apply (wf_dom _ _ _ wf). unfold succs in Hab.
    destruct (G_new !! a); [eauto|by apply elem_of_nil in Hab]. }
  rewrite (wf_InD _ _ _ wf b Hb) in H0. inversion H0 as [H1].
  assert (a ∈ filter (λ a, b ∈ succs G_new a) (seq 0 n)) as Hin.
  { apply list_elem_of_filter. split; [done|]. apply elem_of_seq. lia. }
  unfold preds_in in H1.
  destruct (filter (λ a, b ∈ succs G_new a) (seq 0 n)); [by apply elem_of_nil in Hin|].
  simpl in H1. lia.
Qed.

(** What [scc_pred] holds for every SCC once the sort has returned. *)
Lemma topo_sort_pred pred sched v :
  topo_sort n mgm gmm G_new InD0 = Ok (pred, sched) → v < n →
  (pred !! v = Some None ∧ ∀ a, v ∉ succs G_new a) ∨
  (∃ u, pred !! v = Some (Some u) ∧ v ∈ succs G_new u ∧
        ∃ i j, i < j ∧ sched !! i = Some u ∧ sched !! j = Some v).
Proof.
  intros Hsort Hv.
  destruct (topo_sort_sorted mgm gmm G_new n InD0 wf _ _ Hsort) as (Hnd & _ & Hall & Hord).
  destruct topo_sort_stages as (s & Hw & Hinv & HQ & Hst).
  rewrite Hst in Hsort. unfold py_assert in Hsort.
  destruct (bool_decide _); cbn [mbind result_bind] in Hsort; [|done].
  inversion Hsort; subst pred sched; clear Hsort.
  apply topo_while_pred_inv in Hw as [Hdom Hsome Hnone].
  2:{ split; cbn [ts_schedule ts_Q ts_pred].
      - intros x Hx. simpl in Hx. rewrite frontier_pred_lookup.
        destruct (decide _); [eauto|done].
      - intros x u. rewrite frontier_pred_lookup. by destruct (decide _).
      - intros x. rewrite frontier_pred_lookup.
        destruct (decide _) as [Hin|]; [|done].
        by apply list_elem_of_filter in Hin as [? _]. }
  rewrite HQ, app_nil_r in Hdom.
  destruct (Hdom v) as [[u|] Hp]; [by apply Hall| |].
  - right. exists u. destruct (Hsome v u Hp) as [Hvu Hu]. split_and!; [done|done|].
    apply Hord; [|done]. by apply Hall.
  - left. split; [done|]. apply unpreceded; [done|]. by apply Hnone.
Qed.
End kahn_progress.

(** ** The graph stages cannot fail *)

Lemma result_ok {A} (r : result A) :
  r ≠ OutOfFuel → (∀ e, r ≠ Raise e) → ∃ a, r = Ok a.
Proof. intros H1 H2. destruct r as [a|e|]; [eauto|by destruct (H2 e)|done]. Qed.

Lemma for_each_no_raise {A S} (P : S → Prop) (body : S → A → result S) (l : list A) :
  (∀ s x, P s → x ∈ l → (∀ e, body s x ≠ Raise e) ∧ ∀ s', body s x = Ok s' → P s') →
  ∀ s e, P s → for_each body l s ≠ Raise e.
Proof.
  induction l as [|x l IH]; intros Hb s e HP; [done|].
  simpl. destruct (Hb s x HP) as [Hne Hok]; [by left|].
  destruct (body s x) as [s1|e1|] eqn:Hs; cbn [mbind result_bind]; [|by destruct (Hne e1)|done].
  apply IH; [|by apply Hok]. intros s0 y HP0 Hy. apply Hb; [done|by right].
Qed.

(** *** [random.shuffle] keeps the elements *)

Lemma elem_of_swap (x : list obj) i j y : y ∈ swap x i j ↔ y ∈ x.
Proof.
  unfold swap. destruct (x !! i) as [xi|] eqn:Hi; [|done].
  destruct (x !! j) as [xj|] eqn:Hj; [|done].
  pose proof (lookup_lt_Some _ _ _ Hi) as Hil. pose proof (lookup_lt_Some _ _ _ Hj) as Hjl.
  rewrite !list_elem_of_lookup. split.
  - intros [k Hk]. apply list_lookup_insert_Some in Hk as [(-> & -> & _)|[Hkj Hk]]; [eauto|].
    apply list_lookup_insert_Some in Hk as [(-> & -> & _)|[Hki Hk]]; eauto.
  - intros [k Hk]. destruct (decide (k = i)) as [->|Hki].
    + exists j. rewrite Hi in Hk. inversion Hk; subst.
      apply list_lookup_insert_Some. left. split_and!; [done..|].
      by rewrite length_insert.
    + destruct (decide (k = j)) as [->|Hkj].
      * exists i. rewrite Hj in Hk. inversion Hk; subst.
        apply list_lookup_insert_Some. right. split; [done|].
        apply list_lookup_insert_Some. left. done.
      * exists k. apply list_lookup_insert_Some. right. split; [done|].
        apply list_lookup_insert_Some. right. done.
Qed.

Lemma elem_of_shuffle rnd (x : list obj) y : y ∈ shuffle rnd x ↔ y ∈ x.
Proof.
  unfold shuffle. generalize (length x - 1). intros i. revert x.
  induction i as [|i IH]; intros x; [done|].
  cbn [shuffle_from]. rewrite IH. apply elem_of_swap.
Qed.

(** *** Kosaraju's algorithm *)

Lemma dfs_while_no_raise G fuel : ∀ stack visited PO e,
  closed G → (∀ v b, (v, b) ∈ stack → is_Some (G !! v)) →
  dfs_while fuel G stack visited PO ≠ Raise e.
Proof.
  induction fuel as [|fuel IH]; intros stack visited PO e Hc Hs; simpl.
  - by destruct stack as [|[]].
  - destruct stack as [|[u b] stack]; [done|].
    assert (Hs' : ∀ v b, (v, b) ∈ stack → is_Some (G !! v)).
    { intros v b' Hin. apply (Hs v b'). by right. }
    destruct b; [by apply IH|].
    case_bool_decide; [|by apply IH].
    destruct (Hs u false) as [adj Hadj]; [by left|].
    unfold getitem. rewrite Hadj. cbn [mbind result_bind]. apply IH; [done|].
    intros v b [Hin|Hin]%elem_of_app.
    + apply list_elem_of_fmap in Hin as (w & Heq & Hw). inversion Heq; subst. by eapply Hc.
    + apply elem_of_cons in Hin as [Heq|Hin]; [inversion Heq; subst; eauto|by eapply Hs'].
Qed.

Lemma post_order_ok G vertices :
  closed G → (∀ u, u ∈ vertices → is_Some (G !! u)) → ∃ PO, post_order G vertices = Ok PO.
Proof.
  intros Hc Hv. apply result_ok; [apply post_order_fuel|]. intros e. unfold post_order.
  match goal with
  | |- mbind _ ?m ≠ _ => assert (∀ e, m ≠ Raise e) as Hm
  end.
  { intros e'. apply (for_each_no_raise (λ _, True)); [|done].
    intros [visited PO] u _ Hu. split; [|done].
    intros e0. apply dfs_while_no_raise; [done|].
    intros v b [Heq|Hin]%elem_of_cons; [inversion Heq; subst; auto|by apply elem_of_nil in Hin]. }
  match goal with
  | |- mbind _ ?m ≠ _ => destruct m as [[visited PO]|e'|]; cbn [mbind result_bind];
                         [done|by destruct (Hm e')|done]
  end.
Qed.

Lemma bfs_while_no_raise G_T k fuel : ∀ Q scc v_SCC visited e,
  closed G_T → (∀ x, x ∈ Q → is_Some (G_T !! x)) →
  bfs_while fuel G_T k Q scc v_SCC visited ≠ Raise e.
Proof.
  induction fuel as [|fuel IH]; intros Q scc v_SCC visited e Hc HQ; simpl.
  - by destruct Q.
  - destruct Q as [|u Q]; [done|].
    destruct (HQ u) as [adj Hadj]; [by left|].
    unfold getitem. rewrite Hadj. cbn [mbind result_bind].
    match goal with
    | |- context [foldl ?f ?a adj] => destruct (foldl f a adj) as [[Q1 scc1] visited1] eqn:Hf
    end.
    apply IH; [done|].
    assert (Hgen : ∀ (l : list obj) Q0 scc0 (visited0 : gset obj) Q1 scc1 visited1,
              foldl (λ '(Q, scc, visited) v,
                       if bool_decide (v ∉ visited)
                       then (Q ++ [v], set_add v scc, {[v]} ∪ visited)
                       else (Q, scc, visited)) (Q0, scc0, visited0) l = (Q1, scc1, visited1) →
              ∀ x, x ∈ Q1 → x ∈ Q0 ∨ x ∈ l).
    { clear. induction l as [|v l IHl]; intros Q0 scc0 visited0 Q1 scc1 visited1 H x Hx.
      - simpl in H. inversion H; subst. auto.
      - simpl in H. destruct (bool_decide (v ∉ visited0)).
        + destruct (IHl _ _ _ _ _ _ H x Hx) as [Hin|Hin]; [|right; by right].
          apply elem_of_app in Hin as [?|Hin%list_elem_of_singleton]; [auto|].
          subst. right. by left.
        + destruct (IHl _ _ _ _ _ _ H x Hx); [auto|right; by right]. }
    intros x Hx. destruct (Hgen _ _ _ _ _ _ _ Hf x Hx) as [Hin|Hin].
    + apply HQ. by right.
    + by eapply Hc.
Qed.

Lemma kosaraju_ok g vertices :
  closed (G g) → closed (G_T g) →
  (∀ u, u ∈ vertices → is_Some (G g !! u)) →
  (∀ u, is_Some (G g !! u) → is_Some (G_T g !! u)) →
  ∃ SCCs v_SCC, kosaraju g vertices = Ok (SCCs, v_SCC).
Proof.
  intros Hc HcT Hv Hk.
  destruct (result_ok (kosaraju g vertices)) as [[SCCs v_SCC] H];
    [apply kosaraju_fuel| |by eauto].
  intros e. unfold kosaraju.
  destruct (post_order_ok (G g) vertices Hc Hv) as [PO HPO]. rewrite HPO.
  apply post_order_spec in HPO as (_ & _ & HPOk).
  cbn [mbind result_bind]. cbv zeta.
  match goal with
  | |- mbind _ ?m ≠ _ => assert (∀ e, m ≠ Raise e) as Hm
  end.
  { intros e'. apply (for_each_no_raise (λ _, True)); [|done].
    intros s u _ Hu. split; [|done].
    intros e0. unfold scc_of_seed. case_bool_decide; [|done].
    match goal with
    | |- mbind _ ?m ≠ _ => assert (∀ e, m ≠ Raise e) as Hb
    end.
    { intros e1. apply bfs_while_no_raise; [done|].
      intros x ->%list_elem_of_singleton. apply Hk, HPOk. by apply elem_of_reverse. }
    match goal with
    | |- mbind _ ?m ≠ _ => destruct m as [[[? ?] ?]|e1|]; cbn [mbind result_bind];
                           [done|by destruct (Hb e1)|done]
    end. }
  match goal with
  | |- mbind _ ?m ≠ _ => destruct m as [st|e'|]; cbn [mbind result_bind];
                         [done|by destruct (Hm e')|done]
  end.
Qed.

(** *** The condensation *)

Lemma condense_edge_ok n v_SCC G I e :
  wf_condensed n G I →
  (∃ cu cv, v_SCC !! e.1 = Some cu ∧ v_SCC !! e.2 = Some cv ∧ cu < n ∧ cv < n) →
  ∃ s', condense_edge v_SCC (G, I) e = Ok s'.
Proof.
  intros Hwf (cu & cv & Hu & Hv & Hcu & Hcv). destruct e as [u v]. simpl in *.
  unfold condense_edge, getitem. rewrite Hu, Hv. cbn [mbind result_bind].
  case_bool_decide; [|by eexists].
  destruct (proj2 (wf_dom _ _ _ Hwf cu) Hcu) as [l Hl]. rewrite Hl. cbn [mbind result_bind].
  case_bool_decide; [|by eexists].
  rewrite (wf_InD _ _ _ Hwf cv Hcv). cbn [mbind result_bind]. by eexists.
Qed.

Lemma condense_ok n E v_SCC :
  (∀ e, e ∈ E → ∃ cu cv, v_SCC !! e.1 = Some cu ∧ v_SCC !! e.2 = Some cv ∧ cu < n ∧ cv < n) →
  ∃ G I, condense n E v_SCC = Ok (G, I).
Proof.
  intros HE.
  destruct (result_ok (condense n E v_SCC)) as [[G I] H]; [apply condense_fuel| |by eauto].
  intros e. unfold condense.
  apply (for_each_no_raise (λ s : gmap nat (list nat) * gmap nat Z, wf_condensed n s.1 s.2)).
  - intros [G I] x Hwf Hx. simpl in Hwf.
    destruct (condense_edge_ok n v_SCC G I x Hwf (HE x Hx)) as [[G' I'] Hs].
    rewrite Hs. split; [done|]. intros s' Heq. inversion Heq; subst s'.
    by destruct (condense_edge_inv _ _ _ _ _ _ _ Hwf Hs) as (? & _).
  - destruct (condense_spec n [] v_SCC (dict_range n []) (dict_range n 0%Z)) as [Hwf _];
      [reflexivity|done].
Qed.

(** The edges of the condensed graph are the edges of [E] between two
    different SCCs, and nothing else. *)
Lemma condense_edges n E v_SCC G I :
  condense n E v_SCC = Ok (G, I) →
  ∀ cu cv, cv ∈ succs G cu ↔
           cu ≠ cv ∧ ∃ u v, (u, v) ∈ E ∧ v_SCC !! u = Some cu ∧ v_SCC !! v = Some cv.
Proof.
  intros H cu cv. split.
  - revert H. unfold condense.
    assert (Hgen : ∀ l s s',
      for_each (condense_edge v_SCC) l s = Ok s' →
      cv ∈ succs s'.1 cu →
      cv ∈ succs s.1 cu ∨
      (cu ≠ cv ∧ ∃ u v, (u, v) ∈ l ∧ v_SCC !! u = Some cu ∧ v_SCC !! v = Some cv)).
    { induction l as [|[u v] l IHl]; intros s s' Hs Hin.
      - inversion Hs; subst. auto.
      - simpl in Hs. destruct s as [G0 I0].
        destruct (condense_edge v_SCC (G0, I0) (u, v)) as [[G1 I1]| |] eqn:H1;
          cbn [mbind result_bind] in Hs; [|done..].
        destruct (IHl _ _ Hs Hin) as [Hin1|(Hne & u' & v' & Hl & ? & ?)].
        2:{ right. split; [done|]. exists u', v'. split; [by right|done]. }
        simpl in Hin1. unfold condense_edge in H1.
        destruct (getitem v_SCC u) as [su| |] eqn:Hu; cbn [mbind result_bind] in H1; [|done..].
        destruct (getitem v_SCC v) as [sv| |] eqn:Hv; cbn [mbind result_bind] in H1; [|done..].
        unfold getitem in Hu, Hv.
        destruct (v_SCC !! u) as [su'|] eqn:Hu'; [|done]. inversion Hu; subst su'.
        destruct (v_SCC !! v) as [sv'|] eqn:Hv'; [|done]. inversion Hv; subst sv'.
        case_bool_decide as Hne; [|inversion H1; subst; auto].
        destruct (getitem G0 su) as [l0| |] eqn:Hl0; cbn [mbind result_bind] in H1; [|done..].
        case_bool_decide as Hnin; [|inversion H1; subst; auto].
        destruct (getitem I0 sv) as [d| |]; cbn [mbind result_bind] in H1; [|done..].
        inversion H1; subst G1 I1; clear H1.
        unfold getitem in Hl0. destruct (G0 !! su) as [l0'|] eqn:Hl0'; [|done].
        inversion Hl0; subst l0'.
        destruct (decide (cu = su)) as [->|Hcu].
        + rewrite succs_insert_eq in Hin1. apply elem_of_set_add in Hin1 as [->|Hin1].
          * right. split; [done|]. exists u, v. split; [by left|done].
          * left. simpl. unfold succs. by rewrite Hl0'.
        + rewrite succs_insert_ne in Hin1 by done. auto. }
    intros H Hin. destruct (Hgen _ _ _ H Hin) as [Hin0|?]; [|done].
    simpl in Hin0. unfold succs in Hin0. rewrite dict_range_lookup in Hin0.
    destruct (decide (cu < n)); by apply elem_of_nil in Hin0.
  - intros (Hne & u & v & Huv & Hu & Hv).
    apply condense_spec in H as [_ Hedges].
    destruct (Hedges _ Huv) as (cu' & cv' & Hu' & Hv' & Hin). simpl in *.
    rewrite Hu in Hu'. rewrite Hv in Hv'. inversion Hu'; inversion Hv'; subst.
    by apply Hin.
Qed.


Lemma build_graph_closed top cs g :
  build_graph top cs = Ok g →
  closed (G g) ∧ closed (G_T g) ∧
  (∀ u, is_Some (G g !! u) ↔ u ∈ V g) ∧ (∀ u, is_Some (G_T g !! u) ↔ u ∈ V g).
Proof.
  intros H. destruct (build_graph_edges _ _ _ H) as ([Hd HdT Ht HE HV] & _).
  cbn [es_G es_G_T es_E] in *. split_and!; [| |done|done].
  - intros u adj v Hu Hv. apply Hd. apply (HV u v). by rewrite (neighbours_lookup _ _ _ Hu).
  - intros u adj v Hu Hv. apply HdT.
    assert (u ∈ neighbours (G g) v) as Huv.
    { apply Ht. by rewrite (neighbours_lookup _ _ _ Hu). }
    by apply HV in Huv as [? _].
Qed.

(** On the graph that the pass has built, Kosaraju's algorithm and the
    condensation return: no subscript of theirs can fail. *)
Lemma graph_stages_ok top cs g :
  build_graph top cs = Ok g →
  ∃ SCCs v_SCC G_new InD,
    kosaraju g (shuffle (randbelow top) (V g)) = Ok (SCCs, v_SCC) ∧
    condense (length SCCs) (E g) v_SCC = Ok (G_new, InD) ∧
    wf_condensed (length SCCs) G_new InD ∧
    (∀ u, u ∈ V g ↔ is_Some (v_SCC !! u)).
Proof.
  intros H. destruct (build_graph_closed _ _ _ H) as (Hc & HcT & Hk & HkT).
  destruct (build_graph_edges _ _ _ H) as ([_ _ _ _ HV] & HE & _ & Hifc).
  cbn [es_G] in HV.
  destruct (kosaraju_ok g (shuffle (randbelow top) (V g))) as (SCCs & v_SCC & Hkos);
    [done|done| |by intros u; rewrite Hk, HkT|].
  { intros u Hu. apply Hk. by apply elem_of_shuffle in Hu. }
  pose proof (kosaraju_spec _ _ _ _ Hkos) as (Hall & Hmem & _ & Hkeys).
  assert (Hnum : ∀ u, u ∈ V g → ∃ c, v_SCC !! u = Some c ∧ c < length SCCs).
  { intros u Hu. destruct (Hall u) as [c Hc']; [by apply elem_of_shuffle|].
    exists c. split; [done|]. apply Hmem in Hc' as (scc & Hs & _). by eapply lookup_lt_Some. }
  destruct (condense_ok (length SCCs) (E g) v_SCC) as (G_new & InD & Hcond).
  { intros [u v] Huv. simpl.
    assert (u ∈ V g ∧ v ∈ V g) as [Hu Hv].
    { apply HE in Huv as [Huv|(x & Hx & -> & ->)]; [by apply HV|].
      destruct (Hifc x Hx). done. }
    destruct (Hnum u Hu) as (cu & ? & ?). destruct (Hnum v Hv) as (cv & ? & ?).
    exists cu, cv. done. }
  exists SCCs, v_SCC, G_new, InD. split_and!; [done|done| |].
  - by apply condense_spec in Hcond as [? _].
  - intros u. split.
    + intros Hu. destruct (Hnum u Hu) as (c & -> & _). eauto.
    + intros Hu. apply HkT, Hkeys, Hu.
Qed.

(** ** The installation of the wrappers (lines 431-450) *)

Section installation.
Context (a : ObjAttrs).
Local Abbreviation nc := (λ x : block, is_callee a x = false).

Lemma mapping_is_Some (l : list block) b : b ∈ l → is_Some (mapping l b).
Proof.
  induction l as [|x l IH] using rev_ind; intros Hb; [by apply elem_of_nil in Hb|].
  rewrite mapping_snoc. destruct (decide (x = b)); [eauto|].
  apply IH. apply elem_of_app in Hb as [?|Hb%list_elem_of_singleton]; [done|by subst].
Qed.

(** A step of the loop returns, or raises [IndexError] when only callee
    ports follow the port it handles. *)
Lemma install_wrapper_cases schedule ms i x :
  schedule !! i = Some x →
  (∃ ms', install_wrapper a schedule (filter nc schedule) ms (i, x) = Ok ms') ∨
  (install_wrapper a schedule (filter nc schedule) ms (i, x) = Raise IndexError ∧
   is_callee a x = true ∧ filter nc (drop (i + 1) schedule) = []).
Proof.
  intros Hx. unfold install_wrapper. destruct x as [o| |]; [|left; by eexists..].
  destruct (is_CalleePort a o) eqn:Ho; [|left; by eexists].
  destruct (skip_callees_count a (drop (i + 1) schedule) (i + 1)) as (d & -> & Hd & Hf & Hl).
  destruct (schedule !! (i + 1 + d)) as [nf|] eqn:Hnf.
  - left. cbn [mbind result_bind].
    assert (is_callee a nf = false) as Hnc by (apply Hl; by rewrite lookup_drop).
    destruct (mapping_is_Some (filter nc schedule) nf) as [k Hk].
    { apply list_elem_of_filter. split; [done|]. by eapply list_elem_of_lookup_2. }
    rewrite Hk. cbn [mbind result_bind]. by eexists.
  - right. cbn [mbind result_bind]. split_and!; [done|done|].
    apply lookup_ge_None in Hnf.
    rewrite take_ge in Hf; [done|]. rewrite length_drop. lia.
Qed.

Lemma install_loop_cases schedule l : ∀ k ms,
  (∀ i x, l !! i = Some x → schedule !! (k + i) = Some x) →
  (∃ ms', for_each (install_wrapper a schedule (filter nc schedule)) (imap (λ i, pair (k + i)) l) ms
          = Ok ms') ∨
  (for_each (install_wrapper a schedule (filter nc schedule)) (imap (λ i, pair (k + i)) l) ms
   = Raise IndexError ∧
   ∃ i x, schedule !! i = Some x ∧ is_callee a x = true ∧ filter nc (drop (i + 1) schedule) = []).
Proof.
  induction l as [|x l IH]; intros k ms Hl; [left; by eexists|].
  cbn [imap for_each].
  assert (Hx : schedule !! (k + 0) = Some x) by (by apply Hl).
  destruct (install_wrapper_cases schedule ms (k + 0) x Hx) as [[ms1 H1]|(H1 & Hc & Hf)].
  - rewrite H1. cbn [mbind result_bind].
    destruct (IH (S k) ms1) as [Hok|Hraise].
    + intros i y Hy. replace (S k + i) with (k + S i) by lia. by apply Hl.
    + left. destruct Hok as [ms' Hms']. exists ms'. rewrite <- Hms'. f_equal.
      apply imap_ext. intros i y _. simpl. f_equal. lia.
    + right. destruct Hraise as [Hr Hex]. split; [|done]. rewrite <- Hr. f_equal.
      apply imap_ext. intros i y _. simpl. f_equal. lia.
  - right. rewrite H1. split; [done|]. by exists (k + 0), x.
Qed.

Lemma last_callee schedule i x :
  schedule !! i = Some x → is_callee a x = true → filter nc (drop (i + 1) schedule) = [] →
  ∃ y, last schedule = Some y ∧ is_callee a y = true.
Proof.
  intros Hx Hc Hf.
  rewrite <- (take_drop (i + 1) schedule).
  destruct (drop (i + 1) schedule) as [|z rest] eqn:Hd using rev_ind.
  - rewrite app_nil_r. rewrite Nat.add_1_r, (take_S_r _ _ _ Hx), last_snoc. eauto.
  - clear IHrest. rewrite app_assoc, last_snoc. exists z. split; [done|].
    destruct (is_callee a z) eqn:Hz; [done|].
    assert (z ∈ filter nc (rest ++ [z])) as Hin.
    { apply list_elem_of_filter. split; [done|]. apply elem_of_app. right. by left. }
    rewrite Hf in Hin. by apply elem_of_nil in Hin.
Qed.

Lemma callee_last schedule y :
  last schedule = Some y → is_callee a y = true →
  ∃ i, schedule !! i = Some y ∧ drop (i + 1) schedule = [].
Proof.
  intros Hl Hy. exists (length schedule - 1).
  destruct schedule as [|z rest] using rev_ind; [done|]. clear IHrest.
  rewrite last_snoc in Hl. inversion Hl; subst z.
  rewrite length_app. simpl. replace (length rest + 1 - 1) with (length rest) by lia.
  split.
  - rewrite lookup_app_r by lia. by rewrite Nat.sub_diag.
  - apply drop_ge. rewrite length_app. simpl. lia.
Qed.

(** The loop returns exactly when the schedule does not end with a callee
    port; otherwise it raises [IndexError] at line 445. *)
Lemma install_loop_total schedule :
  let r := for_each (install_wrapper a schedule (filter nc schedule)) (imap pair schedule) ∅ in
  ((∀ y, last schedule = Some y → is_callee a y = false) → ∃ ms, r = Ok ms) ∧
  (∀ y, last schedule = Some y → is_callee a y = true → r = Raise IndexError).
Proof.
  intros r.
  destruct (install_loop_cases schedule schedule 0 ∅) as [Hok|[Hr (i & x & Hx & Hc & Hf)]];
    [done| |].
  - split; [done|]. intros y Hl Hy. exfalso.
    destruct (callee_last schedule y Hl Hy) as (i & Hi & Hd).
    assert (Hin : (i, y) ∈ imap pair schedule).
    { apply list_elem_of_lookup. exists i. by rewrite list_lookup_imap, Hi. }
    destruct Hok as [ms Hms].
    destruct (for_each_ok_inv _ _ _ _ _ Hms Hin) as (s1 & s2 & Hstep).
    destruct (install_wrapper_cases schedule s1 i y Hi) as [_|(_ & _ & _)]; [|].
    + unfold install_wrapper in Hstep. destruct y as [o| |]; [|done..]. simpl in Hy.
      rewrite Hy in Hstep.
      destruct (skip_callees_count a (drop (i + 1) schedule) (i + 1)) as (d & Hs & Hd' & _).
      rewrite Hs in Hstep. rewrite Hd in Hd'. simpl in Hd'.
      assert (schedule !! (i + 1 + d) = None) as Hn.
      { apply lookup_ge_None. apply lookup_lt_Some in Hi.
        assert (length (drop (i + 1) schedule) = 0) by (by rewrite Hd).
        rewrite length_drop in *. lia. }
      rewrite Hn in Hstep. done.
    + unfold install_wrapper in Hstep. destruct y as [o| |]; [|done..]. simpl in Hy.
      rewrite Hy in Hstep.
      destruct (skip_callees_count a (drop (i + 1) schedule) (i + 1)) as (d & Hs & Hd' & _).
      rewrite Hs in Hstep. rewrite Hd in Hd'. simpl in Hd'.
      assert (schedule !! (i + 1 + d) = None) as Hn.
      { apply lookup_ge_None. apply lookup_lt_Some in Hi.
        assert (length (drop (i + 1) schedule) = 0) by (by rewrite Hd).
        rewrite length_drop in *. lia. }
      rewrite Hn in Hstep. done.
  - split; [|done].
    intros Hlast. exfalso.
    destruct (last_callee schedule i x Hx Hc Hf) as (y & Hy & Hyc).
    specialize (Hlast y Hy). congruence.
Qed.
End installation.

(** ** The update sweep (lines 230-338) *)




Lemma elem_of_insert_by_name a x l y : y ∈ insert_by_name a x l ↔ y = x ∨ y ∈ l.
Proof.
  induction l as [|z l IH]; simpl.
  - rewrite list_elem_of_singleton. split; [auto|]. intros [?|H]; [done|by apply elem_of_nil in H].
  - destruct (String.ltb _ _).
    + rewrite !elem_of_cons, IH. tauto.
    + rewrite !elem_of_cons. tauto.
Qed.

Lemma elem_of_sorted_by_name a l y : y ∈ sorted_by_name a l ↔ y ∈ l.
Proof.
  unfold sorted_by_name. induction l as [|x l IH]; [done|].
  simpl. rewrite elem_of_insert_by_name, IH, elem_of_cons. done.
Qed.

Lemma max_by_key_elem InD keys x : max_by_key InD keys = Some x → x ∈ keys.
Proof.
  destruct keys as [|k keys]; [done|]. simpl. intros H. inversion H as [H1]. clear H H1.
  assert (Hgen : ∀ l b, foldl (λ best x,
                   if bool_decide (default 0 (InD !! best) < default 0 (InD !! x))%Z
                   then x else best) b l ∈ b :: l).
  { induction l as [|y l IHl]; intros b; [by left|].
    simpl. specialize (IHl (if bool_decide (default 0 (InD !! b) < default 0 (InD !! y))%Z
                            then y else b)).
    apply elem_of_cons in IHl as [->|Hin].
    - case_bool_decide; [right; by left|by left].
    - right. by right. }
  apply Hgen.
Qed.



Lemma intra_visit_members (scc adj : list obj) : ∀ (Q : list obj) (visited : gset obj) Q' visited',
  foldl (λ '(Q, visited) v,
           if bool_decide (v ∈ scc) && bool_decide (v ∉ visited)
           then (Q ++ [v], {[v]} ∪ visited) else (Q, visited))
        (Q, visited) adj = (Q', visited') →
  (∀ x, x ∈ Q → x ∈ scc) → ∀ x, x ∈ Q' → x ∈ scc.
Proof.
  induction adj as [|v adj IH]; intros Q visited Q' visited' H HQ.
  - simpl in H. by inversion H; subst.
  - simpl in H. case_bool_decide as Hv; simpl in H; [|by eapply IH].
    case_bool_decide; simpl in H; [|by eapply IH].
    eapply IH; [done|]. intros x [?|Hx%list_elem_of_singleton]%elem_of_app; [auto|by subst].
Qed.

(** The intra-SCC order holds members of the SCC only. *)
Lemma intra_while_members G scc fuel : ∀ Q visited tmp tmp',
  intra_while fuel G scc Q visited tmp = Ok tmp' →
  (∀ x, x ∈ Q → x ∈ scc) → (∀ x, x ∈ tmp → x ∈ scc) → ∀ x, x ∈ tmp' → x ∈ scc.
Proof.
  induction fuel as [|fuel IH]; intros Q visited tmp tmp' H HQ Ht.
  - simpl in H. destruct Q; [|done]. by inversion H; subst.
  - simpl in H. destruct Q as [|u Q]; [by inversion H; subst|].
    destruct (getitem G u) as [adj| |]; cbn [mbind result_bind] in H; [|done..].
    match type of H with
    | context [foldl ?f ?a adj] => destruct (foldl f a adj) as [Q1 visited1] eqn:Hf
    end.
    eapply IH; [done| |].
    + eapply intra_visit_members; [done|]. intros x Hx. apply HQ. by right.
    + intros x [?|Hx%list_elem_of_singleton]%elem_of_app; [auto|]. subst. apply HQ. by left.
Qed.



(** ** When the pass returns *)

Lemma pass_unfold lt top cs g SCCs v_SCC G_new InD :
  build_graph top cs = Ok g →
  kosaraju g (shuffle (randbelow top) (V g)) = Ok (SCCs, v_SCC) →
  condense (length SCCs) (E g) v_SCC = Ok (G_new, InD) →
  schedule_with_top_level_callee lt top cs =
  ('(scc_pred, scc_schedule) ←
     topo_sort (length SCCs) (method_guard_mapping g) (guard_method_mapping g) G_new InD;
   sw ← for_each (schedule_scc top g SCCs scc_pred) scc_schedule
          {| sw_update_schedule := []; sw_scc_id := 0 |};
   let update_schedule := sw_update_schedule sw in
   let schedule :=
     [Blk (clear_cl_trace (_tracing top))]
     ++ update_schedule
     ++ (if lt then [PrintLineTrace] else [])
     ++ tail_blocks top in
   let schedule_no_method := filter (λ x, is_callee (attrs top) x = false) schedule in
   methods ← for_each (install_wrapper (attrs top) schedule schedule_no_method)
               (imap pair schedule) ∅;
   Ok {| graph := g; SCCs := SCCs; v_SCC := v_SCC; G_new := G_new;
         scc_pred := scc_pred; scc_schedule := scc_schedule;
         update_schedule := update_schedule; schedule := schedule;
         schedule_no_method := schedule_no_method; methods := methods |}).
Proof.
  intros Hg Hk Hc. unfold schedule_with_top_level_callee.
  rewrite Hg. cbn [mbind result_bind]. cbv zeta. rewrite Hk. cbn [mbind result_bind].
  rewrite Hc. cbn [mbind result_bind]. reflexivity.
Qed.

(** A design whose condensed graph has a cycle is rejected by the
    assertion of line 219. *)
Lemma pass_cyclic lt top cs g SCCs v_SCC G_new InD :
  build_graph top cs = Ok g →
  kosaraju g (shuffle (randbelow top) (V g)) = Ok (SCCs, v_SCC) →
  condense (length SCCs) (E g) v_SCC = Ok (G_new, InD) →
  ¬ acyclic G_new →
  schedule_with_top_level_callee lt top cs = Raise AssertionError.
Proof.
  intros Hg Hk Hc Hcyc. rewrite (pass_unfold _ _ _ _ _ _ _ _ Hg Hk Hc).
  pose proof (condense_spec _ _ _ _ _ Hc) as [Hwf _].
  destruct (topo_sort_cases (method_guard_mapping g) (guard_method_mapping g) G_new
              (length SCCs) InD Hwf) as (_ & Hraise & _).
  by rewrite (Hraise Hcyc).
Qed.



Lemma entry_points_members a g SCCs scc pred Q :
  entry_points a g SCCs scc pred = Ok Q → ∀ x, x ∈ Q → x ∈ scc.
Proof.
  unfold entry_points. destruct pred as [p|].
  - destruct (SCCs !! p) as [pred_scc|]; cbn [mbind result_bind]; [|done].
    assert (Hgen : ∀ l Q0 Q1,
      for_each (λ Q x, adj ← getitem (G_T g) x;
                Ok (foldl (λ Q v, if bool_decide (v ∈ pred_scc) then Q ++ [x] else Q) Q adj))
              l Q0 = Ok Q1 →
      (∀ x, x ∈ l → x ∈ scc) → (∀ x, x ∈ Q0 → x ∈ scc) → ∀ x, x ∈ Q1 → x ∈ scc).
    { induction l as [|x l IHl]; intros Q0 Q1 H Hl HQ; [by inversion H; subst|].
      cbn [for_each] in H. cbv beta in H.
      destruct (getitem (G_T g) x) as [adj| |]; cbn [mbind result_bind] in H; [|done..].
      eapply IHl; [exact H|intros y Hy; apply Hl; by right|].
      assert (Hx : x ∈ scc) by (apply Hl; by left).
      clear -HQ Hx. revert Q0 HQ. induction adj as [|v adj IHa]; intros Q HQ; [done|].
      simpl. apply IHa. case_bool_decide; [|done].
      intros y [?|Hy%list_elem_of_singleton]%elem_of_app; [auto|by subst]. }
    intros H. eapply Hgen; [exact H| |].
    + intros x. by rewrite elem_of_sorted_by_name.
    + intros x Hx. by apply elem_of_nil in Hx.
  - intros H.
    match type of H with
    | mbind _ ?m = _ => destruct m as [InD| |]; cbn [mbind result_bind] in H; [|done..]
    end.
    destruct (max_by_key InD scc) as [x|] eqn:Hm; [|done].
    inversion H; subst Q. intros y Hy%list_elem_of_singleton. subst y.
    by eapply max_by_key_elem.
Qed.

(** What one step of the sweep appends. *)
Lemma schedule_scc_result top g SCCs scc_pred s i s' :
  schedule_scc top g SCCs scc_pred s i = Ok s' →
  ∃ scc, SCCs !! i = Some scc ∧
    ((∃ u, scc = [u] ∧
           s' = {| sw_update_schedule := sw_update_schedule s ++ [Blk u];
                   sw_scc_id := sw_scc_id s |}) ∨
     (length scc ≠ 1 ∧ ∃ tmp variables,
        s' = {| sw_update_schedule :=
                  sw_update_schedule s
                  ++ [WrappedSCC (sw_scc_id s + 1) tmp variables (scc_names (attrs top) scc)];
                sw_scc_id := sw_scc_id s + 1 |} ∧
        (∀ x, x ∈ tmp → x ∈ scc) ∧
        trigger_variables g (constraint_objs (_dag top)) scc = Ok variables ∧
        variables ≠ [])).
Proof.
  intros H. destruct (SCCs !! i) as [scc|] eqn:Hi.
  2:{ unfold schedule_scc in H. by rewrite Hi in H. }
  exists scc. split; [done|].
  destruct (decide (length scc = 1)) as [Hlen|Hlen].
  - left. destruct scc as [|u [|u' scc]]; [done| |done].
    unfold schedule_scc in H. rewrite Hi in H. cbn [mbind result_bind] in H.
    inversion H; subst. by exists u.
  - right. split; [done|].
    destruct (schedule_scc_nontrivial _ _ _ _ _ _ _ _ Hi Hlen H) as (tmp & vars & Hv & Hne & Hs').
    exists tmp, vars. split_and!; [done| |done|done].
    unfold schedule_scc in H. rewrite Hi in H. cbn [mbind result_bind] in H.
    assert (Hgen : (pred ← getitem scc_pred i;
                  Q ← entry_points (attrs top) g SCCs scc pred;
                  tmp_schedule ← intra_while (1 + length Q + length scc) (G g) scc Q
                                   (list_to_set Q) [];
                  let scc_id := sw_scc_id s + 1 in
                  variables ← trigger_variables g (constraint_objs (_dag top)) scc;
                  blk ← gen_wrapped_SCCblk tmp_schedule
                          {| src_id := scc_id; src_variables := variables;
                             src_names := scc_names (attrs top) scc |};
                  Ok {| sw_update_schedule := sw_update_schedule s ++ [blk];
                        sw_scc_id := scc_id |}) = Ok s').
    { destruct scc as [|u [|u' scc]]; [exact H|simpl in Hlen; lia|exact H]. }
    clear H.
    destruct (getitem scc_pred i) as [pred| |]; cbn [mbind result_bind] in Hgen; [|done..].
    destruct (entry_points (attrs top) g SCCs scc pred) as [Q| |] eqn:HQ;
      cbn [mbind result_bind] in Hgen; [|done..].
    destruct (intra_while (1 + length Q + length scc) (G g) scc Q (list_to_set Q) [])
      as [tmp'| |] eqn:Ht; cbn [mbind result_bind] in Hgen; [|done..].
    cbv zeta in Hgen. rewrite Hv in Hgen. cbn [mbind result_bind] in Hgen.
    unfold gen_wrapped_SCCblk in Hgen. case_bool_decide; [done|].
    cbn [mbind result_bind src_id src_variables src_names] in Hgen.
    rewrite Hs' in Hgen. inversion Hgen as [Heq].
    apply app_inj_tail in Heq as [_ Heq]. inversion Heq; subst tmp'.
    eapply intra_while_members; [exact Ht| |].
    + by eapply entry_points_members.
    + intros x Hx. by apply elem_of_nil in Hx.
Qed.

Lemma sweep_step_inv top g SCCs scc_pred done s i s' :
  (∀ x i j s1 s2, SCCs !! i = Some s1 → SCCs !! j = Some s2 → x ∈ s1 → x ∈ s2 → i = j) →
  i ∉ done → schedule_scc top g SCCs scc_pred s i = Ok s' →
  sweep_inv SCCs done s → sweep_inv SCCs (done ++ [i]) s'.
Proof.
  intros Hpart Hi Hstep [Hnd Hids Hv Hnt].
  apply schedule_scc_result in Hstep
    as (scc & Hscc & [(u & -> & ->)|(Hlen & tmp & vars & -> & _)]);
    split; cbn [sw_update_schedule sw_scc_id].
  - apply NoDup_app. split_and!; [done| |apply NoDup_singleton].
    intros b Hb Hb'%list_elem_of_singleton. subst b.
    destruct (Hv u Hb) as (j & Hj & Hsj).
    assert (j = i) as -> by (eapply (Hpart u); [done|done|by left|by left]). done.
  - intros id tmp vars names [Hin|Hin%list_elem_of_singleton]%elem_of_app; [eauto|done].
  - intros w [Hin|Hin%list_elem_of_singleton]%elem_of_app.
    + destruct (Hv w Hin) as (j & Hj & Hsj). exists j. split; [|done]. apply elem_of_app. auto.
    + inversion Hin; subst w. exists i. split; [|done]. apply elem_of_app. right. by left.
  - intros [Hin|Hin%list_elem_of_singleton]%elem_of_app; done.
  - apply NoDup_app. split_and!; [done| |apply NoDup_singleton].
    intros b Hb Hb'%list_elem_of_singleton. subst b. apply Hids in Hb. lia.
  - intros id tmp' vars' names [Hin|Hin%list_elem_of_singleton]%elem_of_app.
    + apply Hids in Hin. lia.
    + inversion Hin; subst. lia.
  - intros w [Hin|Hin%list_elem_of_singleton]%elem_of_app; [|done].
    destruct (Hv w Hin) as (j & Hj & Hsj). exists j. split; [|done]. apply elem_of_app. auto.
  - intros [Hin|Hin%list_elem_of_singleton]%elem_of_app; done.
Qed.

Lemma sweep_loop_inv top g SCCs scc_pred l : ∀ done s sw,
  (∀ x i j s1 s2, SCCs !! i = Some s1 → SCCs !! j = Some s2 → x ∈ s1 → x ∈ s2 → i = j) →
  NoDup (done ++ l) →
  for_each (schedule_scc top g SCCs scc_pred) l s = Ok sw →
  sweep_inv SCCs done s → sweep_inv SCCs (done ++ l) sw.
Proof.
  induction l as [|i l IH]; intros done s sw Hpart Hnd H Hinv.
  - inversion H; subst. by rewrite app_nil_r.
  - simpl in H.
    destruct (schedule_scc top g SCCs scc_pred s i) as [s1| |] eqn:H1;
      cbn [mbind result_bind] in H; [|done..].
    rewrite cons_middle, app_assoc. apply (IH _ s1); [done|by rewrite <- app_assoc|done|].
    eapply sweep_step_inv; [done| |done|done].
    apply NoDup_app in Hnd as (_ & Hnin & _). intros Hin. apply (Hnin i Hin). by left.
Qed.

(** The partition of the vertices into SCCs, as the sweep uses it. *)
Lemma kosaraju_disjoint g vertices SCCs v_SCC :
  kosaraju g vertices = Ok (SCCs, v_SCC) →
  ∀ x i j s1 s2, SCCs !! i = Some s1 → SCCs !! j = Some s2 → x ∈ s1 → x ∈ s2 → i = j.
Proof.
  intros H x i j s1 s2 Hi Hj H1 H2.
  destruct (kosaraju_spec _ _ _ _ H) as (_ & Hmem & _).
  assert (v_SCC !! x = Some i) as Ei by (apply Hmem; eauto).
  assert (v_SCC !! x = Some j) as Ej by (apply Hmem; eauto).
  congruence.
Qed.


(** The update sweep of a pass that returns holds no block twice; its
    vertices are vertices of the graph, and it does not hold the line
    trace. *)
Lemma update_sweep_nodup lt top cs s :
  schedule_with_top_level_callee lt top cs = Ok s →
  NoDup (update_schedule s) ∧
  (∀ u, Blk u ∈ update_schedule s → u ∈ V (graph s)) ∧
  PrintLineTrace ∉ update_schedule s.
Proof.
  intros Hpass.
  destruct (pass_inv _ _ _ _ Hpass)
    as (InD & sw & Hg & Hk & Hcond & Htopo & Hsweep & Hupd & _).
  apply condense_spec in Hcond as [Hwf _].
  destruct (topo_sort_sorted _ _ _ _ _ Hwf _ _ Htopo) as (Hnd & _ & _ & _).
  destruct (sweep_loop_inv top (graph s) (SCCs s) (scc_pred s) (scc_schedule s) []
              {| sw_update_schedule := []; sw_scc_id := 0 |} sw)
    as [Hn Hids Hv Hnt].
  - by eapply kosaraju_disjoint.
  - done.
  - done.
  - split; cbn [sw_update_schedule]; [constructor|..];
      try (intros; exfalso; eapply not_elem_of_nil; eassumption).
    apply not_elem_of_nil.
  - rewrite Hupd. split_and!; [done| |done].
    intros u Hu. destruct (Hv u Hu) as (i & _ & Hi).
    destruct (build_graph_closed _ _ _ Hg) as (_ & _ & _ & HkGT).
    destruct (kosaraju_spec _ _ _ _ Hk) as (_ & Hmem & _ & Hkeys).
    apply HkGT, Hkeys. exists i. apply Hmem. exists [u]. split; [done|by left].
Qed.


(** The whole schedule holds no block twice as soon as the blocks of the
    collaborators are distinct from one another and from the vertices. *)
Lemma schedule_nodup lt top cs s :
  schedule_with_top_level_callee lt top cs = Ok s →
  NoDup (Blk (clear_cl_trace (_tracing top)) :: tail_blocks top) →
  (∀ u, u ∈ V (graph s) → Blk u ∉ Blk (clear_cl_trace (_tracing top)) :: tail_blocks top) →
  NoDup (schedule s).
Proof.
  intros Hpass Hnd Hdis.
  destruct (update_sweep_nodup _ _ _ _ Hpass) as (Hu & HV & Hnt).
  destruct (pass_inv _ _ _ _ Hpass) as (InD & sw & _ & _ & _ & _ & _ & _ & Hsched & _).
  rewrite Hsched. fold (tail_blocks top).
  assert (Htb : ∀ b, b ∈ tail_blocks top → ∃ o, b = Blk o).
  { intros b. unfold tail_blocks, optional. rewrite !elem_of_app.
    intros [Hb|[Hb|[Hb|Hb]]].
    - apply list_elem_of_fmap in Hb as (o & -> & _). eauto.
    - destruct (vcd_func _); [|by apply elem_of_nil in Hb].
      apply list_elem_of_singleton in Hb. eauto.
    - destruct (collect_text_sigs _); [|by apply elem_of_nil in Hb].
      apply list_elem_of_singleton in Hb. eauto.
    - apply list_elem_of_fmap in Hb as (o & -> & _). eauto. }
  apply NoDup_cons in Hnd as [Hc Hnd].
  assert (Hut : ∀ b, b ∈ update_schedule s → b ∉ tail_blocks top).
  { intros b Hb Hb'. destruct (Htb b Hb') as [o ->].
    apply (Hdis o); [by apply HV|]. by right. }
  simpl. apply NoDup_cons. split.
  - rewrite !elem_of_app. intros [Hin|[Hin|Hin]].
    + apply (Hdis (clear_cl_trace (_tracing top))); [by apply HV|by left].
    + destruct lt; [by apply list_elem_of_singleton in Hin|by apply elem_of_nil in Hin].
    + done.
  - apply NoDup_app. split_and!; [done| |].
    + intros b Hb [Hin|Hin]%elem_of_app; [|by eapply Hut].
      destruct lt; [|by apply elem_of_nil in Hin].
      apply list_elem_of_singleton in Hin. by subst.
    + apply NoDup_app. split_and!; [destruct lt; [apply NoDup_singleton|constructor]| |done].
      intros b Hb Hb'. destruct (Htb b Hb') as [o ->].
      destruct lt; [by apply list_elem_of_singleton in Hb|by apply elem_of_nil in Hb].
Qed.

(** ** The trigger variables of an SCC (lines 279-283) *)

Lemma NoDup_set_update {A} `{EqDecision A} (xs s : list A) :
  NoDup s → NoDup (set_update xs s).
Proof.
  unfold set_update. revert s. induction xs as [|x xs IH]; intros s Hs; [done|].
  simpl. apply IH. by apply NoDup_set_add.
Qed.

Lemma elem_of_set_update {A} `{EqDecision A} (xs s : list A) y :
  y ∈ set_update xs s ↔ y ∈ s ∨ y ∈ xs.
Proof.
  unfold set_update. revert s. induction xs as [|x xs IH]; intros s.
  - simpl. split; [auto|]. intros [?|H0]; [done|by apply elem_of_nil in H0].
  - simpl. rewrite IH, elem_of_set_add, elem_of_cons. tauto.
Qed.

Lemma trigger_variables_loop (co : gmap (obj * obj) (list SignalRef)) (scc : list obj) l :
  ∀ vars,
  (∃ u v, (u, v) ∈ l ∧ u ∈ scc ∧ v ∈ scc ∧ co !! (u, v) = None ∧
          for_each (λ variables '(u, v),
              if bool_decide (u ∈ scc) && bool_decide (v ∈ scc)
              then vars ← getitem co (u, v); Ok (set_update vars variables)
              else Ok variables) l vars = Raise KeyError) ∨
  (∃ vars', for_each (λ variables '(u, v),
              if bool_decide (u ∈ scc) && bool_decide (v ∈ scc)
              then vars ← getitem co (u, v); Ok (set_update vars variables)
              else Ok variables) l vars = Ok vars' ∧
            (∀ u v, (u, v) ∈ l → u ∈ scc → v ∈ scc → is_Some (co !! (u, v))) ∧
            (NoDup vars → NoDup vars') ∧
            ∀ var, var ∈ vars' ↔
                   var ∈ vars ∨ ∃ u v c, (u, v) ∈ l ∧ u ∈ scc ∧ v ∈ scc ∧
                                        co !! (u, v) = Some c ∧ var ∈ c).
Proof.
  set (f := λ (variables : list SignalRef) '(u, v),
              if bool_decide (u ∈ scc) && bool_decide (v ∈ scc)
              then vars ← getitem co (u, v); Ok (set_update vars variables)
              else Ok variables).
  induction l as [|[u v] l IH]; intros vars.
  - right. exists vars. split_and!; [done| |done|].
    + intros u v H0. by apply elem_of_nil in H0.
    + intros var. split; [auto|]. intros [?|(u & v & c & H0 & _)]; [done|].
      by apply elem_of_nil in H0.
  - change (for_each f ((u, v) :: l) vars) with (f vars (u, v) ≫= λ s', for_each f l s').
    destruct (decide (u ∈ scc ∧ v ∈ scc)) as [[Hu Hv]|Hout].
    + destruct (co !! (u, v)) as [c|] eqn:Hc.
      * assert (Hf : f vars (u, v) = Ok (set_update c vars)).
        { unfold f, getitem. rewrite !bool_decide_eq_true_2 by done. by rewrite Hc. }
        rewrite Hf. cbn [mbind result_bind].
        destruct (IH (set_update c vars)) as [(u' & v' & Hin & ? & ? & ? & Hr)|
                                               (vars' & Hok & Hall & Hnd & Hmem)].
        -- left. exists u', v'. split_and!; [by right|done..].
        -- right. exists vars'. split_and!; [done| | |].
           ++ intros a b [Heq|Hin]%elem_of_cons ? ?; [inversion Heq; subst; eauto|eauto].
           ++ intros Hv0. by apply Hnd, NoDup_set_update.
           ++ intros var. rewrite Hmem, elem_of_set_update. split.
              ** intros [[?|Hvc]|(a & b & c' & Hin & ? & ? & ? & ?)]; [auto| |].
                 --- right. exists u, v, c. split_and!; [by left|done..].
                 --- right. exists a, b, c'. split_and!; [by right|done..].
              ** intros [?|(a & b & c' & [Heq|Hin]%elem_of_cons & ? & ? & Hab & ?)]; [auto| |].
                 --- inversion Heq; subst. rewrite Hc in Hab. inversion Hab; subst. auto.
                 --- right. exists a, b, c'. done.
      * assert (Hf : f vars (u, v) = Raise KeyError).
        { unfold f, getitem. rewrite !bool_decide_eq_true_2 by done. by rewrite Hc. }
        rewrite Hf. left. exists u, v. split_and!; [by left|done..].
    + assert (Hf : f vars (u, v) = Ok vars).
      { unfold f. destruct (decide (u ∈ scc)); [|by rewrite bool_decide_eq_false_2].
        rewrite (bool_decide_eq_false_2 (v ∈ scc)); [by rewrite andb_false_r|]. tauto. }
      rewrite Hf. cbn [mbind result_bind].
      destruct (IH vars) as [(u' & v' & Hin & ? & ? & ? & Hr)|(vars' & Hok & Hall & Hnd & Hmem)].
      * left. exists u', v'. split_and!; [by right|done..].
      * right. exists vars'. split_and!; [done| |done|].
        -- intros a b [Heq|Hin]%elem_of_cons ? ?; [inversion Heq; subst; tauto|eauto].
        -- intros var. rewrite Hmem. split.
           ++ intros [?|(a & b & c' & Hin & ?)]; [auto|].
              right. exists a, b, c'. split; [by right|done].
           ++ intros [?|(a & b & c' & [Heq|Hin]%elem_of_cons & ? & ? & ?)]; [auto| |].
              ** inversion Heq; subst. tauto.
              ** right. exists a, b, c'. done.
Qed.

(** ** The assertions of the graph construction (lines 67-88) *)

Lemma add_callee_port_cases a s x :
  add_callee_port a s x = Raise AssertionError ∨
  ∃ s', add_callee_port a s x = Ok s' ∧
        (∀ m, is_Some (s.2 !! m) → is_Some (s'.2 !! m)) ∧
        (in_non_blocking_interface a x = false →
         s.2 !! port_method a x = None ∧ is_Some (s'.2 !! port_method a x)).
Proof.
  destruct s as [V mcm]. unfold add_callee_port, get_raw_method.
  destruct (in_non_blocking_interface a x); simpl.
  - right. eexists. split_and!; [done|done|done].
  - destruct (is_CalleePort a x); cbn [py_assert mbind result_bind]; [|by left].
    case_bool_decide as Hm; cbn [py_assert mbind result_bind]; [|by left].
    right. eexists. split; [done|]. simpl. split.
    + intros m Hs. apply lookup_insert_is_Some. destruct (decide (port_method a x = m)); auto.
    + intros _. split; [done|]. rewrite lookup_insert_eq. eauto.
Qed.

Lemma callee_ports_known a l : ∀ s y,
  y ∈ l → in_non_blocking_interface a y = false → is_Some (s.2 !! port_method a y) →
  for_each (add_callee_port a) l s = Raise AssertionError.
Proof.
  induction l as [|x l IH]; intros s y Hy Hnb Hm; [by apply elem_of_nil in Hy|].
  simpl. destruct (add_callee_port_cases a s x) as [->|(s' & Hs' & Hmono & Hx)]; [done|].
  rewrite Hs'. cbn [mbind result_bind].
  apply elem_of_cons in Hy as [<-|Hy].
  - destruct (Hx Hnb) as [Hnone _]. rewrite Hnone in Hm. by destruct Hm.
  - eapply IH; [done|done|]. by apply Hmono.
Qed.

Lemma callee_ports_shared a l : ∀ s i j x y,
  l !! i = Some x → l !! j = Some y → i < j →
  in_non_blocking_interface a x = false → in_non_blocking_interface a y = false →
  port_method a x = port_method a y →
  for_each (add_callee_port a) l s = Raise AssertionError.
Proof.
  induction l as [|z l IH]; intros s i j x y Hi Hj Hij Hx Hy Heq; [done|].
  simpl. destruct (add_callee_port_cases a s z) as [->|(s' & Hs' & Hmono & Hz)]; [done|].
  rewrite Hs'. cbn [mbind result_bind].
  destruct j as [|j]; [lia|]. simpl in Hj.
  destruct i as [|i].
  - simpl in Hi. inversion Hi; subst z.
    apply (callee_ports_known a l s' y); [by eapply list_elem_of_lookup_2|done|].
    rewrite <- Heq. by apply Hz.
  - simpl in Hi. eapply (IH s' i j x y); [done|done|lia|done..].
Qed.

(** * The graph, its SCCs and the sort: further properties *)

Lemma callee_ports_loop a l : ∀ s s',
  for_each (add_callee_port a) l s = Ok s' →
  ∀ v, v ∈ s'.1 ↔ v ∈ s.1 ∨ (v ∈ l ∧ in_non_blocking_interface a v = false).
Proof.
  induction l as [|x l IH]; intros s s' H v.
  - inversion H; subst. split; [auto|]. intros [?|[Hv _]]; [done|by apply elem_of_nil in Hv].
  - simpl in H. destruct (add_callee_port a s x) as [s1| |] eqn:H1;
      cbn [mbind result_bind] in H; [|done..].
    rewrite (IH _ _ H v). destruct s as [V0 mcm]. unfold add_callee_port in H1.
    destruct (in_non_blocking_interface a x) eqn:Hx; simpl in H1.
    + inversion H1; subst s1. simpl. rewrite elem_of_cons. split.
      * intros [?|[? ?]]; auto.
      * intros [?|[[->|?] ?]]; [auto|congruence|auto].
    + destruct (get_raw_method a x); cbn [mbind result_bind] in H1; [|done..].
      destruct (py_assert _); cbn [mbind result_bind] in H1; [|done..].
      inversion H1; subst s1. simpl. rewrite elem_of_set_add, elem_of_cons. split.
      * intros [[->|?]|[? ?]]; auto.
      * intros [?|[[->|?] ?]]; auto.
Qed.

(** X1: the vertex set of a graph that the pass has built holds exactly
    the update blocks that are not flip-flop blocks, the top-level callee
    ports outside a non-blocking interface, and the method and the guard
    of every top-level non-blocking interface; [G] and [G_T] have exactly
    these vertices as keys. *)
Theorem graph_vertices (top : Top) (cs : list (obj * obj)) (g : Graph) :
  build_graph top cs = Ok g →
  (∀ v, v ∈ V g ↔
     (v ∈ final_upblks (_dag top) ∧ v ∉ get_all_update_ff top) ∨
     (v ∈ top_level_callee_ports top ∧ in_non_blocking_interface (attrs top) v = false) ∨
     (∃ x, x ∈ top_level_nb_ifcs top ∧ (v = ifc_rdy x ∨ v = ifc_method x))) ∧
  (∀ v, is_Some (G g !! v) ↔ v ∈ V g) ∧
  (∀ v, is_Some (G_T g !! v) ↔ v ∈ V g).
Proof.
  intros H. destruct (build_graph_closed _ _ _ H) as (_ & _ & Hk & HkT).
  split_and!; [|done|done].
  destruct (build_graph_inv _ _ _ H) as (V1 & mcm1 & nb & es1 & es2 & H1 & Hnb & _ & _ & ->).
  cbn [V]. apply nb_ifcs_loop in Hnb as [_ HnV]. cbn [nb_V] in HnV.
  pose proof (callee_ports_loop _ _ _ _ H1) as HV1. cbn [fst] in HV1.
  intros v. rewrite HnV, HV1, list_elem_of_difference. tauto.
Qed.

Lemma graph_vertices_witness :
  build_graph guard_cycle [] = Ok guard_cycle_graph ∧
  ∀ v, v ∈ V guard_cycle_graph ↔
     (v ∈ final_upblks (_dag guard_cycle) ∧ v ∉ get_all_update_ff guard_cycle) ∨
     (v ∈ top_level_callee_ports guard_cycle ∧
      in_non_blocking_interface (attrs guard_cycle) v = false) ∨
     (∃ x, x ∈ top_level_nb_ifcs guard_cycle ∧ (v = ifc_rdy x ∨ v = ifc_method x)).
Proof.
  assert (H : build_graph guard_cycle [] = Ok guard_cycle_graph) by (vm_compute; reflexivity).
  split; [exact H|]. exact (proj1 (graph_vertices _ _ _ H)).
Defined.

(** X2: in a graph that the pass has built, [G_T] is the transpose of [G],
    and [v] is a successor of [u] in [G] exactly when both are vertices and
    [(u, v)] is one of the constraints or what lines 108-116 make of a
    top-level callee constraint. *)
Theorem adjacency_lists (top : Top) (cs : list (obj * obj)) (g : Graph) :
  build_graph top cs = Ok g →
  (∀ u v, v ∈ neighbours (G g) u ↔ u ∈ neighbours (G_T g) v) ∧
  (∀ u v, v ∈ neighbours (G g) u ↔
     u ∈ V g ∧ v ∈ V g ∧
     ((u, v) ∈ cs ∨
      ∃ c, c ∈ top_level_callee_constraints (_dag top) ∧
           redirect (method_callee_mapping g) (method_guard_mapping g) c = (u, v))).
Proof.
  intros H. destruct (build_graph_edges _ _ _ H) as ([_ _ Ht _ _] & _ & HG & _).
  cbn [es_G es_G_T] in Ht. done.
Qed.

Lemma adjacency_lists_witness :
  build_graph guard_cycle [] = Ok guard_cycle_graph ∧
  neighbours (G guard_cycle_graph) (Obj 10) = [Obj 1] ∧
  neighbours (G_T guard_cycle_graph) (Obj 1) = [Obj 10] ∧
  ∀ u v, v ∈ neighbours (G guard_cycle_graph) u ↔ u ∈ neighbours (G_T guard_cycle_graph) v.
Proof.
  assert (H : build_graph guard_cycle [] = Ok guard_cycle_graph) by (vm_compute; reflexivity).
  split_and!; [exact H|vm_compute; reflexivity|vm_compute; reflexivity|].
  exact (proj1 (adjacency_lists _ _ _ H)).
Defined.

(** X3: the edge set [E] of a graph that the pass has built holds the
    edges of the adjacency lists and, for every top-level non-blocking
    interface, the edge from its guard to its method, which line 79 adds
    to [E] alone: it is in [G] only if a constraint puts it there.  Both
    ends of every edge are vertices. *)
Theorem edge_set (top : Top) (cs : list (obj * obj)) (g : Graph) :
  build_graph top cs = Ok g →
  (∀ u v, (u, v) ∈ E g ↔
     v ∈ neighbours (G g) u ∨
     ∃ x, x ∈ top_level_nb_ifcs top ∧ u = ifc_rdy x ∧ v = ifc_method x) ∧
  (∀ u v, (u, v) ∈ E g → u ∈ V g ∧ v ∈ V g).
Proof.
  intros H. destruct (build_graph_edges _ _ _ H) as ([_ _ _ _ HV] & HE & _ & Hifc).
  cbn [es_G] in HV. split; [done|].
  intros u v [Huv|(x & Hx & -> & ->)]%HE; [by apply HV|by apply Hifc].
Qed.

Lemma edge_set_witness :
  build_graph guard_cycle [] = Ok guard_cycle_graph ∧
  (Obj 11, Obj 10) ∈ E guard_cycle_graph ∧
  neighbours (G guard_cycle_graph) (Obj 11) = [] ∧
  ∀ u v, (u, v) ∈ E guard_cycle_graph → u ∈ V guard_cycle_graph ∧ v ∈ V guard_cycle_graph.
Proof.
  assert (H : build_graph guard_cycle [] = Ok guard_cycle_graph) by (vm_compute; reflexivity).
  split_and!; [exact H| |vm_compute; reflexivity|].
  - apply (proj1 (edge_set _ _ _ H)). right.
    exists {| ifc_method := Obj 10; ifc_rdy := Obj 11 |}. split_and!; [by left|done|done].
  - exact (proj2 (edge_set _ _ _ H)).
Defined.

(** X4: two top-level callee ports outside a non-blocking interface that
    wrap the same raw method make the graph construction fail with the
    assertion of line 71. *)
Theorem shared_raw_method_rejected (top : Top) (cs : list (obj * obj))
    (i j : nat) (x y : obj) :
  top_level_callee_ports top !! i = Some x →
  top_level_callee_ports top !! j = Some y → i < j →
  in_non_blocking_interface (attrs top) x = false →
  in_non_blocking_interface (attrs top) y = false →
  port_method (attrs top) x = port_method (attrs top) y →
  build_graph top cs = Raise AssertionError.
Proof.
  intros Hi Hj Hij Hx Hy Heq. unfold build_graph. cbv zeta.
  by rewrite (callee_ports_shared _ _ _ i j x y Hi Hj Hij Hx Hy Heq).
Qed.

Lemma shared_raw_method_rejected_witness :
  build_graph shared_method [] = Raise AssertionError.
Proof.
  apply (shared_raw_method_rejected shared_method [] 0 1 (Obj 5) (Obj 6));
    [reflexivity|reflexivity|lia|reflexivity|reflexivity|reflexivity].
Defined.

(** X5: the sets that the second pass of Kosaraju's algorithm collects are
    a partition: every vertex the algorithm was started from has a number,
    [v_SCC] maps a vertex to [j] exactly when it lies in [SCCs[j]], no set
    is empty, and no vertex lies in two sets. *)
Theorem sccs_partition (g : Graph) (vertices : list obj)
    (SCCs : list (list obj)) (v_SCC : gmap obj nat) :
  kosaraju g vertices = Ok (SCCs, v_SCC) →
  (∀ u, u ∈ vertices → is_Some (v_SCC !! u)) ∧
  (∀ x j, v_SCC !! x = Some j ↔ ∃ scc, SCCs !! j = Some scc ∧ x ∈ scc) ∧
  (∀ j scc, SCCs !! j = Some scc → scc ≠ [] ∧ NoDup scc) ∧
  (∀ x i j s1 s2, SCCs !! i = Some s1 → SCCs !! j = Some s2 → x ∈ s1 → x ∈ s2 → i = j).
Proof.
  intros H. destruct (kosaraju_spec _ _ _ _ H) as (H1 & H2 & H3 & _).
  split_and!; [done..|]. by eapply kosaraju_disjoint.
Qed.

Lemma sccs_partition_witness :
  kosaraju Examples.cycle_graph [Obj 1; Obj 2]
    = Ok ([[Obj 1; Obj 2]], <[Obj 1 := 0]> (<[Obj 2 := 0]> ∅)) ∧
  ∀ x j, (<[Obj 1 := 0]> (<[Obj 2 := 0]> ∅) : gmap obj nat) !! x = Some j ↔
         ∃ scc, [[Obj 1; Obj 2]] !! j = Some scc ∧ x ∈ scc.
Proof.
  assert (H : kosaraju Examples.cycle_graph [Obj 1; Obj 2]
              = Ok ([[Obj 1; Obj 2]], <[Obj 1 := 0]> (<[Obj 2 := 0]> ∅)))
    by (vm_compute; reflexivity).
  split; [exact H|]. exact (proj1 (proj2 (sccs_partition _ _ _ _ H))).
Defined.

(** X6: on a graph that the pass has built, Kosaraju's algorithm and the
    condensation return: no subscript of lines 133-185 can fail, every
    vertex gets an SCC number, and nothing else does. *)
Theorem graph_stages_return (top : Top) (cs : list (obj * obj)) (g : Graph) :
  build_graph top cs = Ok g →
  ∃ SCCs v_SCC G_new InD,
    kosaraju g (shuffle (randbelow top) (V g)) = Ok (SCCs, v_SCC) ∧
    condense (length SCCs) (E g) v_SCC = Ok (G_new, InD) ∧
    (∀ u, u ∈ V g ↔ is_Some (v_SCC !! u)).
Proof.
  intros H. destruct (graph_stages_ok _ _ _ H) as (SCCs & v_SCC & G_new & InD & ? & ? & _ & ?).
  by exists SCCs, v_SCC, G_new, InD.
Qed.

Lemma graph_stages_return_witness :
  build_graph guard_cycle [] = Ok guard_cycle_graph ∧
  ∃ SCCs v_SCC G_new InD,
    kosaraju guard_cycle_graph (shuffle (randbelow guard_cycle) (V guard_cycle_graph))
      = Ok (SCCs, v_SCC) ∧
    condense (length SCCs) (E guard_cycle_graph) v_SCC = Ok (G_new, InD) ∧
    (∀ u, u ∈ V guard_cycle_graph ↔ is_Some (v_SCC !! u)).
Proof.
  assert (H : build_graph guard_cycle [] = Ok guard_cycle_graph) by (vm_compute; reflexivity).
  split; [exact H|]. exact (graph_stages_return _ _ _ H).
Defined.

(** X7: the condensed graph has an edge from SCC [cu] to SCC [cv] exactly
    when the two differ and some edge of [E] leads from a vertex numbered
    [cu] to a vertex numbered [cv]; its keys are the SCC numbers, and
    [InD] counts, for every SCC, the SCCs that have an edge to it. *)
Theorem condensed_graph_edges (n : nat) (E0 : list (obj * obj)) (v_SCC : gmap obj nat)
    (G_new : gmap nat (list nat)) (InD : gmap nat Z) :
  condense n E0 v_SCC = Ok (G_new, InD) →
  (∀ cu cv, cv ∈ succs G_new cu ↔
            cu ≠ cv ∧ ∃ u v, (u, v) ∈ E0 ∧ v_SCC !! u = Some cu ∧ v_SCC !! v = Some cv) ∧
  (∀ a, is_Some (G_new !! a) ↔ a < n) ∧
  (∀ b, b < n → InD !! b = Some (Z.of_nat (preds_in G_new (seq 0 n) b))).
Proof.
  intros H. split; [by eapply condense_edges|].
  apply condense_spec in H as [[Hd _ _ HI] _]. done.
Qed.

Lemma condensed_graph_edges_witness :
  condense 3 (E guard_cycle_graph) guard_cycle_v_SCC = Ok guard_cycle_condensed ∧
  succs guard_cycle_condensed.1 2 = [0] ∧
  ∀ cu cv, cv ∈ succs guard_cycle_condensed.1 cu ↔
           cu ≠ cv ∧ ∃ u v, (u, v) ∈ E guard_cycle_graph ∧
                            guard_cycle_v_SCC !! u = Some cu ∧ guard_cycle_v_SCC !! v = Some cv.
Proof.
  assert (H : condense 3 (E guard_cycle_graph) guard_cycle_v_SCC
              = Ok (guard_cycle_condensed.1, guard_cycle_condensed.2))
    by (vm_compute; reflexivity).
  split_and!; [vm_compute; reflexivity|vm_compute; reflexivity|].
  exact (proj1 (condensed_graph_edges _ _ _ _ _ H)).
Defined.

(** X8: on a condensed graph, the topological sort returns exactly when
    the graph has no cycle; when it has one, the sort ends with fewer SCCs
    scheduled than there are and the assertion of line 219 fails. *)
Theorem topo_sort_iff_acyclic (n : nat) (E0 : list (obj * obj)) (v_SCC : gmap obj nat)
    (mgm gmm : gmap obj obj) (G_new : gmap nat (list nat)) (InD : gmap nat Z) :
  condense n E0 v_SCC = Ok (G_new, InD) →
  (acyclic G_new ↔ ∃ r, topo_sort n mgm gmm G_new InD = Ok r) ∧
  (¬ acyclic G_new ↔ topo_sort n mgm gmm G_new InD = Raise AssertionError).
Proof.
  intros H. apply condense_spec in H as [Hwf _].
  destruct (topo_sort_cases mgm gmm G_new n InD Hwf) as (Hok & Hraise & Hac).
  split; split.
  - exact Hok.
  - intros [r Hr]. by eapply Hac.
  - exact Hraise.
  - intros Hr Ha. destruct (Hok Ha) as [r Hr']. congruence.
Qed.

Lemma guard_cycle_cyclic : ¬ acyclic guard_cycle_condensed.1.
Proof.
  intros [rank Hr].
  assert (H01 : 1 ∈ succs guard_cycle_condensed.1 0) by (vm_compute; by left).
  assert (H12 : 2 ∈ succs guard_cycle_condensed.1 1) by (vm_compute; by left).
  assert (H20 : 0 ∈ succs guard_cycle_condensed.1 2) by (vm_compute; by left).
  apply Hr in H01, H12, H20. lia.
Qed.

Lemma topo_sort_iff_acyclic_witness :
  condense 3 (E guard_cycle_graph) guard_cycle_v_SCC
    = Ok (guard_cycle_condensed.1, guard_cycle_condensed.2) ∧
  topo_sort 3 (method_guard_mapping guard_cycle_graph) (guard_method_mapping guard_cycle_graph)
    guard_cycle_condensed.1 guard_cycle_condensed.2 = Raise AssertionError.
Proof.
  assert (H : condense 3 (E guard_cycle_graph) guard_cycle_v_SCC
              = Ok (guard_cycle_condensed.1, guard_cycle_condensed.2))
    by (vm_compute; reflexivity).
  split; [exact H|].
  apply (topo_sort_iff_acyclic 3 _ _ (method_guard_mapping guard_cycle_graph)
           (guard_method_mapping guard_cycle_graph) _ _ H).
  exact guard_cycle_cyclic.
Defined.

(** X9: after the topological sort, every SCC has an entry in [scc_pred]:
    [None] when no SCC has an edge to it, and otherwise one of its
    predecessors in the condensed graph, which stands earlier in
    [scc_schedule]. *)
Theorem scc_pred_entries (n : nat) (E0 : list (obj * obj)) (v_SCC : gmap obj nat)
    (mgm gmm : gmap obj obj) (G_new : gmap nat (list nat)) (InD : gmap nat Z)
    (pred : gmap nat (option nat)) (sched : list nat) (v : nat) :
  condense n E0 v_SCC = Ok (G_new, InD) →
  topo_sort n mgm gmm G_new InD = Ok (pred, sched) → v < n →
  (pred !! v = Some None ∧ ∀ a, v ∉ succs G_new a) ∨
  (∃ u, pred !! v = Some (Some u) ∧ v ∈ succs G_new u ∧
        ∃ i j, i < j ∧ sched !! i = Some u ∧ sched !! j = Some v).
Proof.
  intros H Hs Hv. apply condense_spec in H as [Hwf _].
  exact (topo_sort_pred mgm gmm G_new n InD Hwf pred sched v Hs Hv).
Qed.

Lemma scc_pred_entries_witness :
  let s := Examples.chain_scheduled in
  (scc_pred s !! 0 = Some None ∧ ∀ a, 0 ∉ succs (G_new s) a) ∨
  (∃ u, scc_pred s !! 0 = Some (Some u) ∧ 0 ∈ succs (G_new s) u ∧
        ∃ i j, i < j ∧ scc_schedule s !! i = Some u ∧ scc_schedule s !! j = Some 0).
Proof.
  intros s.
  apply (scc_pred_entries 3 (E (graph s)) (v_SCC s) (method_guard_mapping (graph s))
           (guard_method_mapping (graph s)) (G_new s)
           (value_or (∅, ∅) (condense 3 (E (graph s)) (v_SCC s))).2);
    [vm_compute; reflexivity|vm_compute; reflexivity|lia].
Defined.

(** X10: when the graph construction, Kosaraju's algorithm and the
    condensation have returned and the condensed graph has a cycle, the
    pass ends with the assertion error of line 219.  Such a cycle exists
    in [guard_cycle], where the edge from the guard to the method, which
    is in [E] but not in [G], closes a cycle that the SCCs do not see. *)
Theorem cyclic_condensation_rejected (lt : bool) (top : Top) (cs : list (obj * obj))
    (g : Graph) (SCCs : list (list obj)) (v_SCC : gmap obj nat)
    (G_new : gmap nat (list nat)) (InD : gmap nat Z) :
  build_graph top cs = Ok g →
  kosaraju g (shuffle (randbelow top) (V g)) = Ok (SCCs, v_SCC) →
  condense (length SCCs) (E g) v_SCC = Ok (G_new, InD) →
  ¬ acyclic G_new →
  schedule_with_top_level_callee lt top cs = Raise AssertionError.
Proof. apply pass_cyclic. Qed.

Lemma cyclic_condensation_rejected_witness :
  E guard_cycle_graph = [(Obj 11, Obj 10); (Obj 10, Obj 1); (Obj 1, Obj 11)] ∧
  schedule_with_top_level_callee true guard_cycle [] = Raise AssertionError.
Proof.
  split; [vm_compute; reflexivity|].
  apply (cyclic_condensation_rejected true guard_cycle [] guard_cycle_graph
           [[Obj 10]; [Obj 1]; [Obj 11]] guard_cycle_v_SCC
           guard_cycle_condensed.1 guard_cycle_condensed.2);
    [vm_compute; reflexivity|vm_compute; reflexivity|vm_compute; reflexivity|].
  exact guard_cycle_cyclic.
Defined.

(** X11: the loop that installs the wrappers returns exactly when the
    schedule does not end with a callee port; when it does, no block that
    is not a callee port follows the last port, [schedule[next_func]] of
    line 445 is out of range and the loop raises [IndexError]. *)
Theorem install_loop_index_error (a : ObjAttrs) (schedule : list block) :
  let r := for_each (install_wrapper a schedule
                       (filter (λ x, is_callee a x = false) schedule))
                    (imap pair schedule) ∅ in
  ((∀ y, last schedule = Some y → is_callee a y = false) → ∃ ms, r = Ok ms) ∧
  (∀ y, last schedule = Some y → is_callee a y = true → r = Raise IndexError).
Proof. apply install_loop_total. Qed.



(** X13: collecting the trigger variables of an SCC either raises
    [KeyError], which happens exactly when some edge of [E] inside the SCC
    has no entry in [constraint_objs], or returns a duplicate-free
    collection that holds exactly the constraint objects of the edges of
    [E] inside the SCC. *)
Theorem trigger_variables_cases (g : Graph)
    (constraint_objs : gmap (obj * obj) (list SignalRef)) (scc : list obj) :
  (trigger_variables g constraint_objs scc = Raise KeyError ∧
   ∃ u v, (u, v) ∈ E g ∧ u ∈ scc ∧ v ∈ scc ∧ constraint_objs !! (u, v) = None) ∨
  (∃ variables,
     trigger_variables g constraint_objs scc = Ok variables ∧
     (∀ u v, (u, v) ∈ E g → u ∈ scc → v ∈ scc → is_Some (constraint_objs !! (u, v))) ∧
     NoDup variables ∧
     ∀ var, var ∈ variables ↔
            ∃ u v c, (u, v) ∈ E g ∧ u ∈ scc ∧ v ∈ scc ∧
                     constraint_objs !! (u, v) = Some c ∧ var ∈ c).
Proof.
  unfold trigger_variables.
  destruct (trigger_variables_loop constraint_objs scc (E g) [])
    as [(u & v & Hin & Hu & Hv & Hc & Hr)|(vars & Hok & Hall & Hnd & Hmem)].
  - left. split; [exact Hr|]. by exists u, v.
  - right. exists vars. split_and!; [exact Hok|exact Hall|apply Hnd; constructor|].
    intros var. rewrite Hmem. split; [|auto].
    intros [H0|?]; [by apply elem_of_nil in H0|done].
Qed.

(** X14: the update sweep of a pass that returns holds no block twice, and
    the vertices in it are vertices of the graph; the whole schedule holds
    no block twice as soon as the blocks around the sweep ([clear_cl_trace],
    the flip-flop, tracing and posedge blocks) are distinct from one
    another and from the vertices. *)
Theorem schedule_no_duplicates (lt : bool) (top : Top) (cs : list (obj * obj))
    (s : Scheduled) :
  schedule_with_top_level_callee lt top cs = Ok s →
  NoDup (update_schedule s) ∧
  (∀ u, Blk u ∈ update_schedule s → u ∈ V (graph s)) ∧
  (NoDup (Blk (clear_cl_trace (_tracing top)) :: tail_blocks top) →
   (∀ u, u ∈ V (graph s) → Blk u ∉ Blk (clear_cl_trace (_tracing top)) :: tail_blocks top) →
   NoDup (schedule s)).
Proof.
  intros H. destruct (update_sweep_nodup _ _ _ _ H) as (Hnd & HV & _).
  split_and!; [done|done|]. intros Hc Hd. by eapply schedule_nodup.
Qed.

Lemma schedule_no_duplicates_witness :
  schedule_with_top_level_callee true Examples.guarded [] = Ok Examples.guarded_scheduled ∧
  NoDup (schedule Examples.guarded_scheduled).
Proof.
  assert (H : schedule_with_top_level_callee true Examples.guarded []
              = Ok Examples.guarded_scheduled) by (vm_compute; reflexivity).
  split; [exact H|].
  destruct (schedule_no_duplicates _ _ _ _ H) as (_ & _ & Hs). apply Hs.
  - vm_compute. apply NoDup_singleton.
  - intros u Hu Hin. vm_compute in Hin. apply list_elem_of_singleton in Hin.
    inversion Hin; subst u. vm_compute in Hu.
    repeat (apply elem_of_cons in Hu as [Hu|Hu]; [discriminate Hu|]).
    by apply elem_of_nil in Hu.
Defined.



(** X16: the pass always comes to an end: for every design it returns a
    schedule or raises, none of its [while] loops (the two traversals of
    Kosaraju's algorithm, the topological sort, the intra-SCC search) runs
    for ever. *)
Theorem pass_comes_to_an_end (lt : bool) (top : Top) :
  (∃ s, OpenLoopCLPass_call lt top = Ok s) ∨ (∃ e, OpenLoopCLPass_call lt top = Raise e).
Proof.
  pose proof (OpenLoopCLPass_call_fuel lt top) as H.
  destruct (OpenLoopCLPass_call lt top) as [s|e|]; [left; by exists s|right; by exists e|done].
Qed.

(** ** Kosaraju's algorithm finds the strongly connected components *)

Section dfs_order.
Context (G : gmap obj (list obj)).

Lemma split_pushed (adj : list obj) u (st above : list (obj * bool)) g below :
  above ++ (g, true) :: below = ((λ v, (v, false)) <$> adj) ++ (u, true) :: st →
  (above = ((λ v, (v, false)) <$> adj) ∧ g = u ∧ below = st) ∨
  (∃ above', above = ((λ v : obj, (v, false)) <$> adj) ++ (u, true) :: above' ∧
             st = above' ++ (g, true) :: below).
Proof.
  revert above. induction adj as [|v adj IH]; intros above H; simpl in H.
  - destruct above as [|a above]; simpl in H.
    + inversion H; subst. by left.
    + inversion H; subst. right. by exists above.
  - destruct above as [|a above]; simpl in H; [inversion H|].
    inversion H as [[Ha Hrest]]. subst a.
    destruct (IH above Hrest) as [(-> & -> & ->)|(above' & -> & ->)]; [by left|].
    right. by exists above'.
Qed.

Lemma dfs_inv_second u stack visited PO :
  dfs_inv ((u, true) :: stack) visited PO → dfs_inv stack visited (PO ++ [u]).
Proof.
  intros [Hnd Hv]. rewrite pending_cons in Hnd. setoid_rewrite pending_cons in Hv. split.
  - rewrite <- app_assoc. simpl. done.
  - intros x. rewrite Hv, elem_of_app, list_elem_of_singleton, elem_of_cons. tauto.
Qed.

Lemma dfs_inv_skip u stack visited PO :
  dfs_inv ((u, false) :: stack) visited PO → dfs_inv stack visited PO.
Proof.
  intros [Hnd Hv]. rewrite pending_cons in Hnd. setoid_rewrite pending_cons in Hv. by split.
Qed.

Lemma dfs_inv_first u (adj : list obj) stack visited PO :
  u ∉ visited → dfs_inv ((u, false) :: stack) visited PO →
  dfs_inv (((λ v, (v, false)) <$> adj) ++ (u, true) :: stack) ({[u]} ∪ visited) PO.
Proof.
  intros Hu [Hnd Hv]. rewrite pending_cons in Hnd. setoid_rewrite pending_cons in Hv. split.
  - rewrite pending_unvisited, pending_cons.
    apply NoDup_app in Hnd as (H1 & H2 & H3).
    apply NoDup_app. split_and!; [done| |].
    + intros x Hx [->|Hin]%elem_of_cons; [|by eapply H2].
      apply Hu, Hv. auto.
    + apply NoDup_cons. split; [|done]. intros Hin. apply Hu, Hv. auto.
  - intros x. rewrite pending_unvisited, pending_cons, elem_of_cons.
    rewrite elem_of_union, elem_of_singleton, Hv. tauto.
Qed.

Lemma good_po_snoc PO u k :
  good_po G PO → k ≤ length PO →
  (∀ x, x ∈ drop k PO → reach G u x) →
  (∀ x y, x ∈ take k PO → edge G x y → (y ∉ drop k PO) ∧ y ≠ u) →
  good_po G (PO ++ [u]).
Proof.
  intros Hg Hk Hr He i m Hi.
  destruct (decide (i < length PO)) as [Hlt|Hge].
  - rewrite lookup_app_l in Hi by done.
    destruct (Hg i m Hi) as (k0 & Hk0 & Hr0 & He0). exists k0. split; [done|].
    rewrite (take_app_le PO [u] (S i)), (take_app_le PO [u] k0) by lia. done.
  - pose proof (lookup_lt_Some _ _ _ Hi) as Hb. rewrite length_app in Hb. simpl in Hb.
    assert (i = length PO) as -> by lia.
    rewrite lookup_app_r, Nat.sub_diag in Hi by lia. simpl in Hi. inversion Hi; subst m.
    exists k. split; [done|].
    rewrite (take_ge (PO ++ [u])) by (rewrite length_app; simpl; lia).
    rewrite (drop_app_le PO [u] k), (take_app_le PO [u] k) by done.
    split.
    + intros x [Hx|Hx%list_elem_of_singleton]%elem_of_app; [auto|subst; apply rtc_refl].
    + intros x y Hx Hxy [Hy|Hy%list_elem_of_singleton]%elem_of_app;
        destruct (He x y Hx Hxy); done.
Qed.

Lemma order_second u stack visited PO :
  dfs_inv ((u, true) :: stack) visited PO →
  dfs_order_inv G ((u, true) :: stack) visited PO →
  dfs_order_inv G stack visited (PO ++ [u]).
Proof.
  intros [Hnd Hv] [Hc Hp Hb Hs Hg]. rewrite pending_cons in Hnd. split.
  - intros above g below -> v b Hin.
    apply (Hc ((u, true) :: above) g below eq_refl v b). by right.
  - intros above g below -> y Hy.
    destruct (Hp ((u, true) :: above) g below eq_refl y Hy) as [?|[Heq|?]%elem_of_cons];
      [auto|done|auto].
  - intros x y [Hx|Hx%list_elem_of_singleton]%elem_of_app Hxy; [eauto|subst x].
    destruct (Hp [] u stack eq_refl y Hxy) as [?|Hin]; [done|by apply elem_of_nil in Hin].
  - intros above g below ->.
    destruct (Hs ((u, true) :: above) g below eq_refl) as (k & Hk & Hr & He).
    exists k. split_and!.
    + rewrite length_app. simpl. lia.
    + intros x. rewrite drop_app_le by done.
      intros [?|Hx%list_elem_of_singleton]%elem_of_app; [auto|subst x].
      apply (Hc ((u, true) :: above) g below eq_refl u true). by left.
    + intros x y. rewrite take_app_le by done. apply He.
  - destruct (Hs [] u stack eq_refl) as (k & Hk & Hr & He).
    apply (good_po_snoc PO u k); [done|done|done|].
    intros x y Hx Hxy.
    apply NoDup_app in Hnd as (HPO & Hdis & Hpend).
    apply NoDup_cons in Hpend as [Hu Hpend].
    assert (Hdrop : ∀ z, z ∈ drop k PO → z ∈ PO).
    { intros z Hz. rewrite <- (take_drop k PO). apply elem_of_app. auto. }
    destruct (He x y Hx Hxy) as [Hy|Hy].
    + split.
      * rewrite <- (take_drop k PO) in HPO. apply NoDup_app in HPO as (_ & HPO & _). by apply HPO.
      * intros ->. apply (Hdis u); [|by left].
        rewrite <- (take_drop k PO). apply elem_of_app. auto.
    + split.
      * intros Hin. apply (Hdis y); [by apply Hdrop|by right].
      * intros ->. done.
Qed.

Lemma order_skip u stack visited PO :
  u ∈ visited → dfs_order_inv G ((u, false) :: stack) visited PO →
  dfs_order_inv G stack visited PO.
Proof.
  intros Hu [Hc Hp Hb Hs Hg]. split; [| |done| |done].
  - intros above g below -> v b Hin.
    apply (Hc ((u, false) :: above) g below eq_refl v b). by right.
  - intros above g below -> y Hy.
    destruct (Hp ((u, false) :: above) g below eq_refl y Hy) as [?|[Heq|?]%elem_of_cons];
      [auto| |auto].
    inversion Heq; subst. auto.
  - intros above g below ->. exact (Hs ((u, false) :: above) g below eq_refl).
Qed.

Lemma order_first u adj stack visited PO :
  G !! u = Some adj → u ∉ visited →
  dfs_inv ((u, false) :: stack) visited PO →
  dfs_order_inv G ((u, false) :: stack) visited PO →
  dfs_order_inv G (((λ v, (v, false)) <$> adj) ++ (u, true) :: stack) ({[u]} ∪ visited) PO.
Proof.
  intros Hadj Hu [Hnd Hv] [Hc Hp Hb Hs Hg].
  assert (Hn : neighbours G u = adj) by (unfold neighbours; by rewrite Hadj).
  split; [| | | |done].
  - intros above g below Heq v b Hin. symmetry in Heq.
    apply split_pushed in Heq as [(-> & -> & ->)|(above' & -> & ->)].
    + apply list_elem_of_fmap in Hin as (w & Hw & Hin). inversion Hw; subst v b.
      apply rtc_once. unfold edge. by rewrite Hn.
    + assert (Hgu : reach G g u).
      { apply (Hc ((u, false) :: above') g below eq_refl u false). by left. }
      apply elem_of_app in Hin as [Hin|[Hin|Hin]%elem_of_cons].
      * apply list_elem_of_fmap in Hin as (w & Hw & Hin). inversion Hw; subst v b.
        eapply rtc_r; [exact Hgu|]. unfold edge. by rewrite Hn.
      * inversion Hin; subst v b. done.
      * apply (Hc ((u, false) :: above') g below eq_refl v b). by right.
  - intros above g below Heq y Hy. symmetry in Heq.
    apply split_pushed in Heq as [(-> & -> & ->)|(above' & -> & ->)].
    + right. apply list_elem_of_fmap. exists y. split; [done|].
      unfold edge in Hy. by rewrite Hn in Hy.
    + destruct (Hp ((u, false) :: above') g below eq_refl y Hy) as [?|[Heq|?]%elem_of_cons].
      * left. apply elem_of_union. auto.
      * inversion Heq; subst y. left. apply elem_of_union. left. by apply elem_of_singleton.
      * right. apply elem_of_app. right. by right.
  - intros x y Hx Hxy. apply elem_of_union. right. eauto.
  - intros above g below Heq. symmetry in Heq.
    apply split_pushed in Heq as [(-> & -> & ->)|(above' & -> & ->)].
    + exists (length PO). split_and!; [done| |].
      * intros x. rewrite drop_all. intros H0. by apply elem_of_nil in H0.
      * intros x y. rewrite take_ge by done. intros Hx Hxy.
        apply (Hb x y Hx) in Hxy. apply Hv in Hxy as [?|Hxy]; [auto|].
        right. by rewrite pending_cons in Hxy.
    + exact (Hs ((u, false) :: above') g below eq_refl).
Qed.

Lemma dfs_while_order fuel : ∀ stack visited PO visited' PO',
  dfs_while fuel G stack visited PO = Ok (visited', PO') →
  dfs_inv stack visited PO → dfs_order_inv G stack visited PO →
  dfs_order_inv G [] visited' PO'.
Proof.
  induction fuel as [|fuel IH]; intros stack visited PO visited' PO' H Hd Ho.
  - simpl in H. destruct stack as [|[u b] stack]; [|done]. by inversion H; subst.
  - simpl in H. destruct stack as [|[u b] stack]; [by inversion H; subst|].
    destruct b.
    + eapply IH; [exact H|by apply dfs_inv_second|by apply order_second].
    + case_bool_decide as Hu.
      * destruct (getitem G u) as [adj| |] eqn:Hadj; cbn [mbind result_bind] in H; [|done..].
        assert (G !! u = Some adj) as Hadj'.
        { unfold getitem in Hadj. destruct (G !! u); by inversion Hadj. }
        eapply IH; [exact H|by apply dfs_inv_first|by apply order_first].
      * eapply IH; [exact H|by eapply dfs_inv_skip|by eapply order_skip].
Qed.

Lemma order_start u visited PO :
  dfs_order_inv G [] visited PO → dfs_order_inv G [(u, false)] visited PO.
Proof.
  intros [Hc Hp Hb Hs Hg].
  assert (Hno : ∀ above g below, [(u, false)] = above ++ (g, true) :: below → False).
  { intros [|a [|a' above]] g below H; inversion H. }
  split; [| |done| |done]; intros above g below Heq; destruct (Hno _ _ _ Heq).
Qed.

Lemma order_empty : dfs_order_inv G [] ∅ [].
Proof.
  assert (Hno : ∀ (above : list (obj * bool)) g below, [] = above ++ (g, true) :: below → False).
  { intros [|a above] g below H; inversion H. }
  split.
  - intros above g below Heq. destruct (Hno _ _ _ Heq).
  - intros above g below Heq. destruct (Hno _ _ _ Heq).
  - intros x y Hx. by apply elem_of_nil in Hx.
  - intros above g below Heq. destruct (Hno _ _ _ Heq).
  - intros i m Hi. done.
Qed.

(** The post-order of the first pass. *)
Lemma post_order_good vertices PO :
  post_order G vertices = Ok PO →
  good_po G PO ∧ ∀ x y, x ∈ PO → edge G x y → y ∈ PO.
Proof.
  unfold post_order. intros H.
  match type of H with
  | mbind _ ?m = _ => destruct m as [[visited PO1]| |] eqn:Hf; cbn [mbind result_bind] in H; [|done..]
  end.
  inversion H; subst PO1; clear H.
  destruct (for_each_invariant
              (λ s : gset obj * list obj,
                 dfs_inv [] s.1 s.2 ∧ (∀ x, x ∈ s.1 → is_Some (G !! x)) ∧
                 dfs_order_inv G [] s.1 s.2)
              (λ s u, True)
              (λ '(visited, PO) u, dfs_while (traversal_budget G) G [(u, false)] visited PO)
              vertices) with (s := (∅, []) : gset obj * list obj) (s' := (visited, PO))
    as (([Hnd Hv] & Hk & [_ _ Hb _ Hg]) & _); [| |done|].
  - intros [vis po] u [vis' po'] ([Hnd Hv] & Hk & Ho) Hstep. cbn [fst snd] in *.
    assert (Hd : dfs_inv [(u, false)] vis po).
    { split; [by rewrite pending_cons|]. intros x. by rewrite pending_cons. }
    pose proof (dfs_while_order _ _ _ _ _ _ Hstep Hd (order_start u _ _ Ho)) as Ho'.
    apply dfs_while_inv in Hstep as (HI & Hm & Hs & Hk'); [|done|done].
    split_and!; done.
  - simpl. split_and!; [|set_solver|apply order_empty]. split; [constructor|].
    intros u. rewrite elem_of_empty. split; [done|].
    intros [H|H]; by apply elem_of_nil in H.
  - cbn [fst snd] in *. split; [done|]. intros x y Hx Hxy.
    apply (Hb x y Hx) in Hxy. apply Hv in Hxy as [?|Hxy]; [done|].
    unfold pending in Hxy. simpl in Hxy. by apply elem_of_nil in Hxy.
Qed.

(** A vertex [m] reaches every vertex that reaches it along vertices
    listed no later than [m] in the post-order. *)
Lemma good_po_back (A B : list obj) m x :
  good_po G (A ++ m :: B) →
  rtc (λ a b, edge G a b ∧ a ∈ A ++ [m]) x m → reach G m x.
Proof.
  intros Hg Hpath.
  destruct (Hg (length A) m) as (k & Hk & Hr & He).
  { rewrite lookup_app_r, Nat.sub_diag by lia. done. }
  assert (Htake : take (S (length A)) (A ++ m :: B) = A ++ [m]).
  { rewrite cons_middle, app_assoc. rewrite take_app_le by (rewrite length_app; simpl; lia).
    apply take_ge. rewrite length_app. simpl. lia. }
  rewrite Htake in Hr, He.
  assert (Hk' : take k (A ++ m :: B) = take k (A ++ [m])).
  { rewrite <- Htake, take_take. f_equal. lia. }
  rewrite Hk' in He.
  apply Hr. revert x Hpath. apply rtc_ind_l.
  - rewrite <- (take_drop k A), <- app_assoc.
    rewrite drop_app_le by (rewrite length_take; lia).
    apply elem_of_app. right. apply elem_of_app. right. by left.
  - intros x y [Hxy Hx] _ Hy.
    rewrite <- (take_drop k (A ++ [m])) in Hx. apply elem_of_app in Hx as [Hx|Hx]; [|done].
    destruct (He x y Hx Hxy Hy).
Qed.
End dfs_order.

Section second_pass_reach.
Context (G G_T : gmap obj (list obj)).
Hypothesis transposed : ∀ u v, edge G_T u v ↔ edge G v u.

Local Abbreviation collect := (λ '(Q, scc, visited) (v : obj),
           if bool_decide (v ∉ (visited : gset obj))
           then (Q ++ [v], set_add v scc, {[v]} ∪ visited)
           else (Q, scc, visited)).

Lemma closed_reach (W : gset obj) :
  (∀ x y, x ∈ W → edge G_T x y → y ∈ W) → ∀ x y, x ∈ W → reach G y x → y ∈ W.
Proof.
  intros Hc x y Hx Hr. revert y Hr. apply rtc_ind_l; [done|].
  intros y1 y2 Hy _ Hy2. apply (Hc y2 y1 Hy2). by apply transposed.
Qed.

Lemma visit_reach seed W0 u' (adj : list obj) :
  ∀ (Q scc : list obj) (visited : gset obj) Q' scc' visited',
  foldl collect (Q, scc, visited) adj = (Q', scc', visited') →
  (∀ v, v ∈ adj → edge G v u') → u' ∈ scc →
  bfs_reach G G_T seed W0 (u' :: Q) Q scc visited →
  bfs_reach G G_T seed W0 (u' :: Q') Q' scc' visited' ∧
  (∀ v, v ∈ adj → v ∈ visited') ∧ (∀ x, x ∈ visited → x ∈ visited').
Proof.
  induction adj as [|v adj IH]; intros Q scc visited Q' scc' visited' H Hadj Hu' Hinv.
  - simpl in H. inversion H; subst. split_and!; [done| |done].
    intros v Hv. by apply elem_of_nil in Hv.
  - simpl in H. case_bool_decide as Hv.
    + apply IH in H as (HI & Hall & Hm).
      * split_and!; [done| |].
        -- intros w [->|Hw]%elem_of_cons; [|auto].
           apply Hm, elem_of_union. left. by apply elem_of_singleton.
        -- intros x Hx. apply Hm, elem_of_union. auto.
      * intros w Hw. apply Hadj. by right.
      * apply elem_of_set_add. auto.
      * destruct Hinv as [Hvis Hfresh Hseed Hpath Hclosed Hq].
        assert (Hsub : ∀ x y, edge G x y ∧ x ∈ scc → edge G x y ∧ x ∈ set_add v scc).
        { intros x y [? ?]. split; [done|]. apply elem_of_set_add. auto. }
        split.
        -- intros x. rewrite elem_of_union, elem_of_singleton, Hvis, elem_of_set_add. tauto.
        -- intros x [->|Hx]%elem_of_set_add; [|auto]. intros Hin. apply Hv, Hvis. auto.
        -- apply elem_of_set_add. auto.
        -- intros x [->|Hx]%elem_of_set_add.
           ++ eapply rtc_l.
              ** split; [apply Hadj; by left|]. apply elem_of_set_add. auto.
              ** eapply rtc_subrel; [exact Hsub|]. by apply Hpath.
           ++ eapply rtc_subrel; [exact Hsub|]. by apply Hpath.
        -- intros x [Hx%elem_of_singleton|Hx]%elem_of_union.
           ++ subst x. left. right. apply elem_of_app. right. by left.
           ++ destruct (Hclosed x Hx) as [[->|Hin]%elem_of_cons|Hc].
              ** left. by left.
              ** left. right. apply elem_of_app. auto.
              ** right. intros y Hy. apply elem_of_union. right. by apply Hc.
        -- intros x [Hx|Hx%list_elem_of_singleton]%elem_of_app; apply elem_of_set_add; [auto|].
           subst. auto.
    + apply IH in H as (HI & Hall & Hm); [|intros w Hw; apply Hadj; by right|done|done].
      split_and!; [done| |done].
      intros w [->|Hw]%elem_of_cons; [|auto]. by apply Hm.
Qed.

Lemma bfs_while_reach seed W0 fuel k : ∀ Q scc v_SCC visited scc' v_SCC' visited',
  bfs_while fuel G_T k Q scc v_SCC visited = Ok (scc', v_SCC', visited') →
  bfs_reach G G_T seed W0 Q Q scc visited →
  bfs_reach G G_T seed W0 [] [] scc' visited'.
Proof.
  induction fuel as [|fuel IH]; intros Q scc v_SCC visited scc' v_SCC' visited' H Hinv.
  - simpl in H. destruct Q; [|done]. by inversion H; subst.
  - simpl in H. destruct Q as [|u Q]; [by inversion H; subst|].
    destruct (getitem G_T u) as [adj| |] eqn:Hadj; cbn [mbind result_bind] in H; [|done..].
    match type of H with
    | context [foldl ?f ?a adj] => destruct (foldl f a adj) as [[Q1 scc1] visited1] eqn:Hf
    end.
    assert (Hn : neighbours G_T u = adj).
    { unfold neighbours. unfold getitem in Hadj. destruct (G_T !! u); by inversion Hadj. }
    apply (visit_reach seed W0 u) in Hf as (Hinv1 & Hall & Hm).
    + eapply IH; [exact H|].
      destruct Hinv1 as [Hvis Hfresh Hseed Hpath Hclosed Hq]. split; try done.
      intros x Hx. destruct (Hclosed x Hx) as [[->|Hin]%elem_of_cons|Hc]; [|auto|auto].
      right. intros y Hy. apply Hall. unfold edge in Hy. by rewrite Hn in Hy.
    + intros v Hv. apply transposed. unfold edge. by rewrite Hn.
    + destruct Hinv as [_ _ _ _ _ Hq]. apply Hq. by left.
    + destruct Hinv as [Hvis Hfresh Hseed Hpath Hclosed Hq]. split; try done.
      intros x Hx. apply Hq. by right.
Qed.

Lemma scc_of_seed_correct PO pre u rest s s' :
  good_po G PO → (∀ x y, edge G x y → x ∈ PO) →
  reverse PO = pre ++ u :: rest →
  (∀ x, x ∈ pre → x ∈ st_visited s) →
  scc_of_seed G_T s u = Ok s' →
  kos_inv G G_T s →
  kos_inv G G_T s' ∧ ∀ x, x ∈ pre ++ [u] → x ∈ st_visited s'.
Proof.
  intros Hgood Hall Hrev Hpre H Hinv. unfold scc_of_seed in H. case_bool_decide as Hu.
  2:{ inversion H; subst s'. split; [done|].
      intros x [Hx|Hx%list_elem_of_singleton]%elem_of_app; [auto|]. by subst. }
  destruct (bfs_while _ _ _ _ _ _ _) as [[[scc v_SCC] visited]| |] eqn:Hb;
    cbn [mbind result_bind] in H; [|done..].
  inversion H; subst s'; clear H. cbn [st_SCCs st_v_SCC st_visited].
  destruct Hinv as [Hcl Hsound Hcomplete].
  apply (bfs_while_reach u (st_visited s)) in Hb.
  2:{ unfold set_add. simpl. split.
      - intros x. rewrite elem_of_union, elem_of_singleton, list_elem_of_singleton. tauto.
      - intros x Hx%list_elem_of_singleton. by subst.
      - by left.
      - intros x Hx%list_elem_of_singleton. subst. apply rtc_refl.
      - intros x [Hx%elem_of_singleton|Hx]%elem_of_union; [left; subst; by left|].
        right. intros y Hy. apply elem_of_union. right. by eapply Hcl.
      - done. }
  destruct Hb as [Hvis Hfresh Hseed Hpath Hclosed _].
  assert (HPO : PO = reverse rest ++ u :: reverse pre).
  { rewrite <- (reverse_involutive PO), Hrev, reverse_app, reverse_cons, <- app_assoc. done. }
  assert (Hin : ∀ x, x ∈ scc → x ∈ reverse rest ++ [u]).
  { intros x Hx.
    assert (x ∈ PO) as HxPO.
    { destruct (rtc_inv _ _ (Hpath x Hx)) as [->|(y & [Hxy _] & _)]; [|by eapply Hall].
      apply elem_of_reverse. rewrite Hrev. apply elem_of_app. right. by left. }
    rewrite HPO in HxPO.
    apply elem_of_app in HxPO as [?|[->|HxPO]%elem_of_cons].
    - apply elem_of_app. auto.
    - apply elem_of_app. right. by left.
    - rewrite elem_of_reverse in HxPO. destruct (Hfresh x Hx). by apply Hpre. }
  assert (Hto : ∀ x, x ∈ scc → reach G x u).
  { intros x Hx. eapply rtc_subrel; [|by apply Hpath]. by intros a b [? _]. }
  assert (Hfrom : ∀ x, x ∈ scc → reach G u x).
  { intros x Hx. apply (good_po_back G (reverse rest) (reverse pre)); [by rewrite <- HPO|].
    eapply rtc_subrel; [|by apply Hpath]. intros a b [? ?]. split; [done|]. by apply Hin. }
  assert (Hclosed' : ∀ x y, x ∈ visited → edge G_T x y → y ∈ visited).
  { intros x y Hx Hxy. destruct (Hclosed x Hx) as [H0|Hc]; [by apply elem_of_nil in H0|].
    by apply Hc. }
  split; [split|]; cbn [st_SCCs st_v_SCC st_visited].
  - exact Hclosed'.
  - intros j scc0 x y [Hj|[Hlen Hj]]%lookup_app_Some Hx Hy; [by eapply Hsound|].
    destruct (j - length (st_SCCs s)) as [|d]; [|by destruct d].
    simpl in Hj. inversion Hj; subst scc0.
    transitivity u; [by apply Hto|by apply Hfrom].
  - intros j scc0 x y [Hj|[Hlen Hj]]%lookup_app_Some Hx Hxy Hyx; [by eapply Hcomplete|].
    destruct (j - length (st_SCCs s)) as [|d]; [|by destruct d].
    simpl in Hj. inversion Hj; subst scc0.
    assert (y ∈ visited) as Hy.
    { apply (closed_reach visited Hclosed' u y).
      - apply Hvis. auto.
      - transitivity x; [done|by apply Hto]. }
    apply Hvis in Hy as [Hy|Hy]; [|done].
    exfalso. apply Hu. apply (closed_reach (st_visited s) Hcl y u Hy).
    transitivity x; [by apply Hfrom|done].
  - intros x [Hx|Hx%list_elem_of_singleton]%elem_of_app; apply Hvis; [auto|].
    subst. auto.
Qed.

Lemma second_pass_correct PO :
  good_po G PO → (∀ x y, edge G x y → x ∈ PO) →
  ∀ rest pre s s',
  reverse PO = pre ++ rest →
  (∀ x, x ∈ pre → x ∈ st_visited s) →
  for_each (scc_of_seed G_T) rest s = Ok s' →
  kos_inv G G_T s → kos_inv G G_T s'.
Proof.
  intros Hgood Hall. induction rest as [|u rest IH]; intros pre s s' Hrev Hpre H Hinv.
  - by inversion H; subst.
  - simpl in H. destruct (scc_of_seed G_T s u) as [s1| |] eqn:H1;
      cbn [mbind result_bind] in H; [|done..].
    destruct (scc_of_seed_correct PO pre u rest s s1 Hgood Hall Hrev Hpre H1 Hinv)
      as [Hinv1 Hpre1].
    apply (IH (pre ++ [u]) s1 s'); [|done|done|done].
    by rewrite <- app_assoc.
Qed.
End second_pass_reach.

(** Every set that the second pass collects is a strongly connected
    component of [G]: its members reach one another, and it holds every
    vertex that reaches and is reached by one of its members. *)
Lemma kosaraju_components g vertices SCCs v_SCC :
  (∀ u v, edge (G_T g) u v ↔ edge (G g) v u) →
  (∀ u, is_Some (G g !! u) → u ∈ vertices) →
  kosaraju g vertices = Ok (SCCs, v_SCC) →
  ∀ j scc, SCCs !! j = Some scc →
    (∀ x y, x ∈ scc → y ∈ scc → reach (G g) x y) ∧
    (∀ x y, x ∈ scc → reach (G g) x y → reach (G g) y x → y ∈ scc).
Proof.
  intros Ht Hkeys H. unfold kosaraju in H.
  destruct (post_order (G g) vertices) as [PO| |] eqn:HPO; cbn [mbind result_bind] in H; [|done..].
  cbv zeta in H.
  match type of H with
  | mbind _ ?m = _ => destruct m as [st| |] eqn:Hst; cbn [mbind result_bind] in H; [|done..]
  end.
  inversion H; subst; clear H.
  destruct (post_order_good _ _ _ HPO) as [Hgood _].
  apply post_order_spec in HPO as (_ & HPOall & _).
  assert (Hall : ∀ x y, edge (G g) x y → x ∈ PO).
  { intros x y Hxy. apply HPOall, Hkeys. unfold edge, neighbours in Hxy.
    destruct (G g !! x); [eauto|by apply elem_of_nil in Hxy]. }
  destruct (second_pass_correct (G g) (G_T g) Ht PO Hgood Hall (reverse PO) []
              {| st_SCCs := []; st_v_SCC := ∅; st_visited := ∅ |} st)
    as [_ Hsound Hcomplete]; [done| |done| |].
  { intros x Hx. by apply elem_of_nil in Hx. }
  { split; cbn [st_SCCs st_visited].
    - intros x y Hx. by apply elem_of_empty in Hx.
    - intros j scc x y Hj. done.
    - intros j scc x y Hj. done. }
  intros j scc Hj. split.
  - intros x y. by apply (Hsound j scc).
  - intros x y. by apply (Hcomplete j scc).
Qed.

(** Two vertices carry the same SCC number exactly when each reaches the
    other in [G]. *)
Lemma kosaraju_correct g vertices SCCs v_SCC :
  (∀ u v, edge (G_T g) u v ↔ edge (G g) v u) →
  (∀ u, is_Some (G g !! u) → u ∈ vertices) →
  kosaraju g vertices = Ok (SCCs, v_SCC) →
  ∀ x y jx jy, v_SCC !! x = Some jx → v_SCC !! y = Some jy →
    (jx = jy ↔ reach (G g) x y ∧ reach (G g) y x).
Proof.
  intros Ht Hkeys H.
  pose proof (kosaraju_spec _ _ _ _ H) as (_ & Hmem & _ & _).
  pose proof (kosaraju_disjoint _ _ _ _ H) as Hdis.
  pose proof (kosaraju_components _ _ _ _ Ht Hkeys H) as Hcomp.
  intros x y jx jy Hx Hy.
  apply Hmem in Hx as (sx & Hsx & Hxin). apply Hmem in Hy as (sy & Hsy & Hyin).
  split.
  - intros <-. assert (sx = sy) as <- by congruence.
    destruct (Hcomp jx sx Hsx) as [Hsound _]. split; by apply Hsound.
  - intros [Hxy Hyx]. eapply (Hdis y); [done|done| |done].
    destruct (Hcomp jx sx Hsx) as [_ Hcomplete]. by eapply Hcomplete.
Qed.

(** X17: on a graph that the pass has built, the sets of [SCCs] are the
    strongly connected components of [G]: two vertices carry the same SCC
    number exactly when each reaches the other along the adjacency lists
    of [G], and a set holds, with any of its members, exactly the vertices
    that reach it and are reached by it. *)
Theorem sccs_strongly_connected (top : Top) (cs : list (obj * obj)) (g : Graph)
    (SCCs : list (list obj)) (v_SCC : gmap obj nat) :
  build_graph top cs = Ok g →
  kosaraju g (shuffle (randbelow top) (V g)) = Ok (SCCs, v_SCC) →
  (∀ x y, x ∈ V g → y ∈ V g →
     (v_SCC !! x = v_SCC !! y ↔ reach (G g) x y ∧ reach (G g) y x)) ∧
  (∀ j scc x y, SCCs !! j = Some scc → x ∈ scc →
     (y ∈ scc ↔ reach (G g) x y ∧ reach (G g) y x)).
Proof.
  intros Hg Hk.
  destruct (build_graph_edges _ _ _ Hg) as ([_ _ Ht _ _] & _). cbn [es_G es_G_T] in Ht.
  destruct (build_graph_closed _ _ _ Hg) as (_ & _ & HkG & _).
  assert (Htr : ∀ u v, edge (G_T g) u v ↔ edge (G g) v u).
  { intros u v. unfold edge. by rewrite Ht. }
  assert (Hkeys : ∀ u, is_Some (G g !! u) → u ∈ shuffle (randbelow top) (V g)).
  { intros u Hu. apply elem_of_shuffle. by apply HkG. }
  pose proof (kosaraju_spec _ _ _ _ Hk) as (Hnum & _).
  split.
  - intros x y Hx Hy.
    destruct (Hnum x) as [jx Hjx]; [by apply elem_of_shuffle|].
    destruct (Hnum y) as [jy Hjy]; [by apply elem_of_shuffle|].
    rewrite Hjx, Hjy.
    rewrite <- (kosaraju_correct _ _ _ _ Htr Hkeys Hk x y jx jy Hjx Hjy).
    split; [by intros [= ->]|by intros ->].
  - intros j scc x y Hj Hx.
    destruct (kosaraju_components _ _ _ _ Htr Hkeys Hk j scc Hj) as [Hsound Hcomplete].
    split.
    + intros Hy. split; by apply Hsound.
    + intros [Hxy Hyx]. by eapply Hcomplete.
Qed.

Lemma sccs_strongly_connected_witness :
  build_graph Examples.method_in_cycle [(Obj 1, Obj 10); (Obj 10, Obj 1)]
    = Ok (graph Examples.method_in_cycle_scheduled) ∧
  SCCs Examples.method_in_cycle_scheduled = [[Obj 11]; [Obj 10; Obj 1]] ∧
  ∀ x y, x ∈ V (graph Examples.method_in_cycle_scheduled) →
         y ∈ V (graph Examples.method_in_cycle_scheduled) →
    (v_SCC Examples.method_in_cycle_scheduled !! x = v_SCC Examples.method_in_cycle_scheduled !! y
     ↔ reach (G (graph Examples.method_in_cycle_scheduled)) x y ∧
       reach (G (graph Examples.method_in_cycle_scheduled)) y x).
Proof.
  assert (Hg : build_graph Examples.method_in_cycle [(Obj 1, Obj 10); (Obj 10, Obj 1)]
               = Ok (graph Examples.method_in_cycle_scheduled)) by (vm_compute; reflexivity).
  split_and!; [exact Hg|vm_compute; reflexivity|].
  apply (sccs_strongly_connected Examples.method_in_cycle _ _
           (SCCs Examples.method_in_cycle_scheduled) _ Hg).
  vm_compute; reflexivity.
Defined.

(** ** The intra-SCC order (lines 246-276) *)





(** The seeds for an SCC with a predecessor: the members that have, in
    [G_T], a neighbour in the predecessor SCC. *)
Lemma entry_points_pred_spec a g SCCs scc p pred_scc Q :
  SCCs !! p = Some pred_scc →
  entry_points a g SCCs scc (Some p) = Ok Q →
  ∀ x, x ∈ Q ↔ x ∈ scc ∧ ∃ v, edge (G_T g) x v ∧ v ∈ pred_scc.
Proof.
  intros Hp H. unfold entry_points in H. rewrite Hp in H. cbn [mbind result_bind] in H.
  assert (Hfold : ∀ (adj : list obj) x (Q0 : list obj) y,
    y ∈ foldl (λ Q v, if bool_decide (v ∈ pred_scc) then Q ++ [x] else Q) Q0 adj ↔
    y ∈ Q0 ∨ (y = x ∧ ∃ v, v ∈ adj ∧ v ∈ pred_scc)).
  { induction adj as [|v adj IHa]; intros x Q0 y; simpl.
    - split; [auto|]. intros [?|[_ (v & Hv & _)]]; [done|by apply elem_of_nil in Hv].
    - rewrite IHa. case_bool_decide as Hv.
      + rewrite elem_of_app, list_elem_of_singleton. split.
        * intros [[?| ->]|[-> (w & Hw & Hwp)]]; [auto| |].
          -- right. split; [done|]. exists v. split; [by left|done].
          -- right. split; [done|]. exists w. split; [by right|done].
        * intros [?|[-> (w & [->|Hw]%elem_of_cons & Hwp)]]; [auto|auto|].
          right. split; [done|]. by exists w.
      + split.
        * intros [?|[-> (w & Hw & Hwp)]]; [auto|].
          right. split; [done|]. exists w. split; [by right|done].
        * intros [?|[-> (w & [->|Hw]%elem_of_cons & Hwp)]]; [auto|done|].
          right. split; [done|]. by exists w. }
  assert (Hgen : ∀ l Q0 Q1,
    for_each (λ Q x, adj ← getitem (G_T g) x;
                Ok (foldl (λ Q v, if bool_decide (v ∈ pred_scc) then Q ++ [x] else Q) Q adj))
             l Q0 = Ok Q1 →
    ∀ y, y ∈ Q1 ↔ y ∈ Q0 ∨ (y ∈ l ∧ ∃ v, edge (G_T g) y v ∧ v ∈ pred_scc)).
  { induction l as [|x l IHl]; intros Q0 Q1 Hl y.
    - inversion Hl; subst. split; [auto|]. intros [?|[Hy _]]; [done|by apply elem_of_nil in Hy].
    - cbn [for_each] in Hl. cbv beta in Hl.
      destruct (getitem (G_T g) x) as [adj| |] eqn:Hadj; cbn [mbind result_bind] in Hl; [|done..].
      assert (Hn : neighbours (G_T g) x = adj).
      { unfold neighbours. unfold getitem in Hadj. destruct (G_T g !! x); by inversion Hadj. }
      rewrite (IHl _ _ Hl y), Hfold, elem_of_cons. unfold edge. split.
      + intros [[?|[-> Hv]]|[? ?]]; [auto| |auto].
        right. split; [by left|]. by rewrite Hn.
      + intros [?|[[->|?] Hv]]; [auto| |auto].
        left. right. split; [done|]. by rewrite Hn in Hv. }
  intros x. rewrite (Hgen _ _ _ H x), elem_of_sorted_by_name. split.
  - intros [H0|?]; [by apply elem_of_nil in H0|done].
  - auto.
Qed.

Lemma in_degree_loop (scc : list obj) (l : list (obj * obj)) :
  ∀ (InD InD' : gmap obj Z),
  for_each (λ InD '(u, v),
              if bool_decide (u ∈ scc) && bool_decide (v ∈ scc)
              then d ← getitem InD v; Ok (<[v := (d + 1)%Z]> InD)
              else Ok InD) l InD = Ok InD' →
  ∀ w d, w ∈ scc → InD !! w = Some d →
         InD' !! w = Some (d + Z.of_nat (in_degree l scc w))%Z.
Proof.
  induction l as [|[u v] l IH]; intros InD InD' H w d Hw Hd.
  - inversion H; subst. unfold in_degree. simpl. rewrite Hd. f_equal. lia.
  - cbn [for_each] in H. unfold in_degree.
    destruct (decide (u ∈ scc ∧ v ∈ scc)) as [[Hu Hv]|Hout].
    + rewrite !bool_decide_eq_true_2 in H by done. cbn [andb] in H.
      destruct (getitem InD v) as [dv| |] eqn:Hdv; cbn [mbind result_bind] in H; [|done..].
      unfold getitem in Hdv. destruct (InD !! v) as [dv'|] eqn:Hdv'; inversion Hdv; subst dv'.
      destruct (decide (v = w)) as [->|Hne].
      * rewrite filter_cons_True by done. cbn [length].
        rewrite (IH _ _ H w (dv + 1)%Z Hw) by (by rewrite lookup_insert_eq).
        unfold in_degree. f_equal. assert (d = dv) by congruence. lia.
      * rewrite filter_cons_False by (simpl; tauto).
        apply (IH _ _ H w d Hw). by rewrite lookup_insert_ne.
    + assert (Hcond : bool_decide (u ∈ scc) && bool_decide (v ∈ scc) = false).
      { destruct (decide (u ∈ scc)); [|by rewrite bool_decide_eq_false_2].
        rewrite (bool_decide_eq_false_2 (v ∈ scc)); [by rewrite andb_false_r|]. tauto. }
      rewrite Hcond in H. cbn [mbind result_bind] in H.
      rewrite filter_cons_False.
      * by apply (IH _ _ H w d Hw).
      * simpl. intros [Hu ->]. tauto.
Qed.

Lemma max_by_key_max (InD : gmap obj Z) keys x :
  max_by_key InD keys = Some x →
  ∀ y, y ∈ keys → (default 0 (InD !! y) ≤ default 0 (InD !! x))%Z.
Proof.
  destruct keys as [|k keys]; [done|]. simpl. intros H. inversion H as [H1]. clear H H1.
  assert (Hgen : ∀ l b y, y ∈ b :: l →
    (default 0 (InD !! y) ≤
     default 0 (InD !! foldl (λ best x,
                   if bool_decide (default 0 (InD !! best) < default 0 (InD !! x))%Z
                   then x else best) b l))%Z).
  { induction l as [|z l IHl]; intros b y Hy.
    - apply list_elem_of_singleton in Hy. subst. simpl. lia.
    - simpl. case_bool_decide as Hlt.
      + apply elem_of_cons in Hy as [->|[->|Hy]%elem_of_cons].
        * etrans; [|apply (IHl z z); by left]. lia.
        * apply IHl. by left.
        * apply IHl. by right.
      + apply elem_of_cons in Hy as [->|[->|Hy]%elem_of_cons].
        * apply IHl. by left.
        * etrans; [|apply (IHl b b); by left]. lia.
        * apply IHl. by right. }
  intros y Hy. by apply Hgen.
Qed.

(** The seed for an SCC without predecessor: one member, with the
    greatest number of incoming edges from inside the SCC. *)
Lemma entry_points_none_spec a g SCCs scc Q :
  NoDup scc →
  entry_points a g SCCs scc None = Ok Q →
  ∃ x, Q = [x] ∧ x ∈ scc ∧
       ∀ y, y ∈ scc → in_degree (E g) scc y ≤ in_degree (E g) scc x.
Proof.
  intros Hnd H. pose proof (entry_points_members _ _ _ _ _ _ H) as Hmem.
  unfold entry_points in H.
  match type of H with
  | mbind _ ?m = _ => destruct m as [InD| |] eqn:Hloop; cbn [mbind result_bind] in H; [|done..]
  end.
  destruct (max_by_key InD scc) as [x|] eqn:Hm; [|done].
  inversion H; subst Q. exists x. split; [done|].
  assert (Hx : x ∈ scc) by (apply Hmem; by left). split; [done|].
  assert (Hval : ∀ w, w ∈ scc → InD !! w = Some (Z.of_nat (in_degree (E g) scc w))).
  { intros w Hw.
    rewrite (in_degree_loop scc (E g) _ _ Hloop w 0%Z Hw); [f_equal; lia|].
    assert (Hfst : ((λ v : obj, (v, 0%Z)) <$> scc).*1 = scc).
    { rewrite <- list_fmap_compose. apply list_fmap_id. }
    apply elem_of_list_to_map_1; [by rewrite Hfst|].
    apply list_elem_of_fmap. by exists w. }
  intros y Hy. pose proof (max_by_key_max _ _ _ Hm y Hy) as Hle.
  rewrite (Hval y Hy), (Hval x Hx) in Hle. simpl in Hle. lia.
Qed.



(** X18: the seeds of the search inside an SCC of more than one vertex.
    With a predecessor in [scc_pred], they are the members that have a
    neighbour in [G_T] (an adjacency-list edge, not the guard edge of
    [E]) in the predecessor SCC; without one, the seed is one member with
    the greatest number of incoming edges of [E] from inside the SCC. *)
Theorem intra_scc_seeds (a : ObjAttrs) (g : Graph) (SCCs : list (list obj))
    (scc : list obj) :
  (∀ p pred_scc Q, SCCs !! p = Some pred_scc →
     entry_points a g SCCs scc (Some p) = Ok Q →
     ∀ x, x ∈ Q ↔ x ∈ scc ∧ ∃ v, edge (G_T g) x v ∧ v ∈ pred_scc) ∧
  (∀ Q, NoDup scc → entry_points a g SCCs scc None = Ok Q →
     ∃ x, Q = [x] ∧ x ∈ scc ∧
          ∀ y, y ∈ scc → in_degree (E g) scc y ≤ in_degree (E g) scc x).
Proof.
  split.
  - intros p pred_scc Q Hp HQ. by eapply entry_points_pred_spec.
  - intros Q Hnd HQ. by eapply entry_points_none_spec.
Qed.






(** ** The SCC numbers follow the edges of [G] *)

Lemma scc_of_seed_sets G_T s u s' :
  scc_of_seed G_T s u = Ok s' →
  st_SCCs s' = st_SCCs s ∨ ∃ scc, st_SCCs s' = st_SCCs s ++ [scc].
Proof.
  unfold scc_of_seed. intros H. case_bool_decide.
  - destruct (bfs_while _ _ _ _ _ _ _) as [[[scc v_SCC] visited]| |];
      cbn [mbind result_bind] in H; [|done..].
    inversion H; subst s'. right. by exists scc.
  - inversion H; subst. by left.
Qed.

Lemma topo_num_step G0 G_T s s' :
  scc_inv G_T s → scc_inv G_T s' → kos_inv G0 G_T s' →
  (st_SCCs s' = st_SCCs s ∨ ∃ scc, st_SCCs s' = st_SCCs s ++ [scc]) →
  topo_num G_T s → topo_num G_T s'.
Proof.
  intros [_ Hmem _ _] [Hvis' Hmem' _ _] [Hcl' _ _] Hsets HT x y jx Hxy Hx.
  assert (Hkeep : ∀ z j, st_v_SCC s !! z = Some j → st_v_SCC s' !! z = Some j).
  { intros z j Hz. apply Hmem in Hz as (scc & Hs & Hin). apply Hmem'. exists scc.
    split; [|done]. destruct Hsets as [->|[new ->]]; [done|by apply lookup_app_l_Some]. }
  assert (Hy : is_Some (st_v_SCC s' !! y)).
  { apply Hvis'. apply (Hcl' x y); [|done]. apply Hvis'. eauto. }
  destruct Hy as [jy Hy].
  destruct (st_v_SCC s !! x) as [jx0|] eqn:Hx0.
  - destruct (HT x y jx0 Hxy Hx0) as (jy0 & Hy0 & Hle).
    apply Hkeep in Hx0, Hy0. exists jy0. split; [done|]. congruence.
  - exists jy. split; [done|].
    apply Hmem' in Hx as (sx & Hsx & Hxin). apply Hmem' in Hy as (sy & Hsy & Hyin).
    destruct Hsets as [Heq|[new Heq]]; rewrite Heq in Hsx, Hsy.
    + assert (st_v_SCC s !! x = Some jx) as Hc by (apply Hmem; eauto). congruence.
    + apply lookup_app_Some in Hsx as [Hsx|[Hlen Hsx]].
      * assert (st_v_SCC s !! x = Some jx) as Hc by (apply Hmem; eauto). congruence.
      * apply lookup_lt_Some in Hsy. rewrite length_app in Hsy. simpl in Hsy. lia.
Qed.

Lemma second_pass_numbering G0 G_T PO :
  (∀ u v, edge G_T u v ↔ edge G0 v u) →
  good_po G0 PO → (∀ x y, edge G0 x y → x ∈ PO) →
  ∀ rest pre s s',
  reverse PO = pre ++ rest →
  (∀ x, x ∈ pre → x ∈ st_visited s) →
  for_each (scc_of_seed G_T) rest s = Ok s' →
  scc_inv G_T s → kos_inv G0 G_T s → topo_num G_T s → topo_num G_T s'.
Proof.
  intros Ht Hgood Hall. induction rest as [|u rest IH]; intros pre s s' Hrev Hpre H Hs Hk HT.
  - by inversion H; subst.
  - simpl in H. destruct (scc_of_seed G_T s u) as [s1| |] eqn:H1;
      cbn [mbind result_bind] in H; [|done..].
    destruct (scc_of_seed_correct G0 G_T Ht PO pre u rest s s1 Hgood Hall Hrev Hpre H1 Hk)
      as [Hk1 Hpre1].
    destruct (scc_of_seed_inv _ _ _ _ H1 Hs) as (Hs1 & _ & _).
    apply (IH (pre ++ [u]) s1 s'); [by rewrite <- app_assoc|done|done|done|done|].
    eapply topo_num_step; [exact Hs|exact Hs1|exact Hk1|by eapply scc_of_seed_sets|exact HT].
Qed.

(** The SCC numbers are a topological numbering of the components of
    [G]: no edge of [G] leads to a lower number. *)
Lemma kosaraju_topological g vertices SCCs v_SCC :
  (∀ u v, edge (G_T g) u v ↔ edge (G g) v u) →
  (∀ u, is_Some (G g !! u) → u ∈ vertices) →
  kosaraju g vertices = Ok (SCCs, v_SCC) →
  ∀ u v jv, edge (G g) u v → v_SCC !! v = Some jv →
            ∃ ju, v_SCC !! u = Some ju ∧ ju ≤ jv.
Proof.
  intros Ht Hkeys H. unfold kosaraju in H.
  destruct (post_order (G g) vertices) as [PO| |] eqn:HPO; cbn [mbind result_bind] in H; [|done..].
  cbv zeta in H.
  match type of H with
  | mbind _ ?m = _ => destruct m as [st| |] eqn:Hst; cbn [mbind result_bind] in H; [|done..]
  end.
  inversion H; subst; clear H.
  destruct (post_order_good _ _ _ HPO) as [Hgood _].
  apply post_order_spec in HPO as (_ & HPOall & _).
  assert (Hall : ∀ x y, edge (G g) x y → x ∈ PO).
  { intros x y Hxy. apply HPOall, Hkeys. unfold edge, neighbours in Hxy.
    destruct (G g !! x); [eauto|by apply elem_of_nil in Hxy]. }
  assert (HT : topo_num (G_T g) st).
  { apply (second_pass_numbering (G g) (G_T g) PO Ht Hgood Hall (reverse PO) []
             {| st_SCCs := []; st_v_SCC := ∅; st_visited := ∅ |} st); [done| |done| | |].
    - intros x Hx. by apply elem_of_nil in Hx.
    - split; cbn [st_SCCs st_v_SCC st_visited].
      + intros x. rewrite lookup_empty. split; [set_solver|]. by intros [? ?].
      + intros x j. rewrite lookup_empty. split; [done|]. by intros (? & ? & _).
      + intros j scc Hj. done.
      + intros x. rewrite lookup_empty. by intros [? ?].
    - split; cbn [st_SCCs st_visited].
      + intros x y Hx. by apply elem_of_empty in Hx.
      + intros j scc x y Hj. done.
      + intros j scc x y Hj. done.
    - intros x y jx _ Hx. cbn [st_v_SCC] in Hx. by rewrite lookup_empty in Hx. }
  intros u v jv Huv Hv. apply (HT v u jv); [by apply Ht|done].
Qed.

(** X21: the SCC numbers that Kosaraju's algorithm gives on a graph that
    the pass has built are a topological numbering of the components of
    [G]: an edge of the adjacency lists never leads from a higher SCC
    number to a lower one. *)
Theorem scc_numbers_topological (top : Top) (cs : list (obj * obj)) (g : Graph)
    (SCCs : list (list obj)) (v_SCC : gmap obj nat) (u v : obj) :
  build_graph top cs = Ok g →
  kosaraju g (shuffle (randbelow top) (V g)) = Ok (SCCs, v_SCC) →
  edge (G g) u v →
  ∃ ju jv, v_SCC !! u = Some ju ∧ v_SCC !! v = Some jv ∧ ju ≤ jv.
Proof.
  intros Hg Hk Huv.
  destruct (build_graph_edges _ _ _ Hg) as ([_ _ Ht _ HV] & _). cbn [es_G es_G_T] in Ht, HV.
  destruct (build_graph_closed _ _ _ Hg) as (_ & _ & HkG & _).
  assert (Htr : ∀ u v, edge (G_T g) u v ↔ edge (G g) v u).
  { intros a b. unfold edge. by rewrite Ht. }
  assert (Hkeys : ∀ u, is_Some (G g !! u) → u ∈ shuffle (randbelow top) (V g)).
  { intros a Ha. apply elem_of_shuffle. by apply HkG. }
  pose proof (kosaraju_spec _ _ _ _ Hk) as (Hnum & _).
  destruct (Hnum v) as [jv Hjv]; [apply elem_of_shuffle; by apply (HV u v)|].
  destruct (kosaraju_topological _ _ _ _ Htr Hkeys Hk u v jv Huv Hjv) as (ju & Hju & Hle).
  by exists ju, jv.
Qed.

Lemma scc_numbers_topological_witness :
  build_graph Examples.chain [(Obj 1, Obj 2); (Obj 2, Obj 3)]
    = Ok (graph Examples.chain_scheduled) ∧
  ∃ ju jv, v_SCC Examples.chain_scheduled !! Obj 1 = Some ju ∧
           v_SCC Examples.chain_scheduled !! Obj 2 = Some jv ∧ ju ≤ jv.
Proof.
  assert (Hg : build_graph Examples.chain [(Obj 1, Obj 2); (Obj 2, Obj 3)]
               = Ok (graph Examples.chain_scheduled)) by (vm_compute; reflexivity).
  split; [exact Hg|].
  apply (scc_numbers_topological Examples.chain _ _ (SCCs Examples.chain_scheduled) _ _ _ Hg).
  - vm_compute; reflexivity.
  - unfold edge. vm_compute. by left.
Defined.

(** X22: the assertion of line 219 can fail only because of the guard
    edges: when the graph construction returns and the edge from the
    guard to the method of every top-level non-blocking interface is also
    an edge of the adjacency lists (in particular when there is no such
    interface), Kosaraju's algorithm, the condensation and the topological
    sort all return. *)
Theorem sort_returns_without_guard_edges (top : Top) (cs : list (obj * obj)) (g : Graph) :
  build_graph top cs = Ok g →
  (∀ x, x ∈ top_level_nb_ifcs top → edge (G g) (ifc_rdy x) (ifc_method x)) →
  ∃ SCCs v_SCC G_new InD r,
    kosaraju g (shuffle (randbelow top) (V g)) = Ok (SCCs, v_SCC) ∧
    condense (length SCCs) (E g) v_SCC = Ok (G_new, InD) ∧
    topo_sort (length SCCs) (method_guard_mapping g) (guard_method_mapping g) G_new InD = Ok r.
Proof.
  intros Hg Hifc.
  destruct (graph_stages_ok _ _ _ Hg) as (SCCs & v_SCC & G_new & InD & Hk & Hc & Hwf & _).
  destruct (build_graph_edges _ _ _ Hg) as ([_ _ Ht _ HV] & HE & _). cbn [es_G es_G_T] in Ht, HV.
  destruct (build_graph_closed _ _ _ Hg) as (_ & _ & HkG & _).
  assert (Htr : ∀ u v, edge (G_T g) u v ↔ edge (G g) v u).
  { intros a b. unfold edge. by rewrite Ht. }
  assert (Hkeys : ∀ u, is_Some (G g !! u) → u ∈ shuffle (randbelow top) (V g)).
  { intros a Ha. apply elem_of_shuffle. by apply HkG. }
  assert (Hac : acyclic G_new).
  { exists id. intros a b Hab.
    apply (condense_edges _ _ _ _ _ Hc) in Hab as (Hne & u & v & Huv & Hu & Hv).
    assert (Hedge : edge (G g) u v).
    { apply HE in Huv as [?|(x & Hx & -> & ->)]; [done|by apply Hifc]. }
    destruct (kosaraju_topological _ _ _ _ Htr Hkeys Hk u v b Hedge Hv) as (ju & Hju & Hle).
    unfold id. assert (ju = a) by congruence. lia. }
  destruct (topo_sort_cases (method_guard_mapping g) (guard_method_mapping g) G_new
              (length SCCs) InD Hwf) as (Hok & _).
  destruct (Hok Hac) as [r Hr]. by exists SCCs, v_SCC, G_new, InD, r.
Qed.

Lemma sort_returns_without_guard_edges_witness :
  build_graph Examples.cycle [(Obj 1, Obj 2); (Obj 2, Obj 1)] = Ok Examples.cycle_graph ∧
  ∃ SCCs v_SCC G_new InD r,
    kosaraju Examples.cycle_graph (shuffle (randbelow Examples.cycle) (V Examples.cycle_graph))
      = Ok (SCCs, v_SCC) ∧
    condense (length SCCs) (E Examples.cycle_graph) v_SCC = Ok (G_new, InD) ∧
    topo_sort (length SCCs) (method_guard_mapping Examples.cycle_graph)
      (guard_method_mapping Examples.cycle_graph) G_new InD = Ok r.
Proof.
  assert (Hg : build_graph Examples.cycle [(Obj 1, Obj 2); (Obj 2, Obj 1)]
               = Ok Examples.cycle_graph) by (vm_compute; reflexivity).
  split; [exact Hg|].
  apply (sort_returns_without_guard_edges _ _ _ Hg).
  intros x Hx. vm_compute in Hx. by apply elem_of_nil in Hx.
Defined.

(** * Run time: further properties *)

Lemma pass_raises_shift M scc w k e :
  pass_raises M scc w (S k) e ↔ pass_raises M scc (sweep M scc w) k e.
Proof. unfold pass_raises. by rewrite Nat.iter_succ_r. Qed.

Lemma loop_outcome M scc variables names : ∀ fuel n w,
  n + fuel = 101 → 1 ≤ fuel →
  ∃ k e, k < fuel ∧
    wrapped_SCC_loop M fuel scc variables names n w
      = (Nat.iter (k + 1) (sweep M scc) w, n + k + 1, e) ∧
    (∀ j, j < k → pass_changes M scc variables w j) ∧
    ((pass_settles M scc variables w k ∧ e = None) ∨
     (∃ e0, pass_raises M scc w k e0 ∧ e = Some e0) ∨
     (n + k = 100 ∧ pass_changes M scc variables w k ∧
      e = Some (UpblkCyclicError (loop_message names)))).
Proof.
  induction fuel as [|fuel IH]; intros n w Hn Hf; [lia|].
  cbn [wrapped_SCC_loop]. unfold wrapped_SCC_body.
  destruct (run_blks M scc w) as [w1 [e0|]] eqn:Hrun.
  - exists 0, (Some e0). split_and!; [lia| |intros j Hj; lia|].
    + simpl. unfold sweep. rewrite Hrun. simpl. repeat (f_equal; try lia).
    + right. left. exists e0. split; [|done]. unfold pass_raises. simpl. by rewrite Hrun.
  - destruct (converged M variables (snapshot M w <$> variables) w1) eqn:Hconv.
    + exists 0, None. split_and!; [lia| |intros j Hj; lia|].
      * simpl. unfold sweep. rewrite Hrun. simpl. repeat (f_equal; try lia).
      * left. split; [|done]. unfold pass_settles, sweep. simpl. by rewrite Hrun.
    + assert (Hch : pass_changes M scc variables w 0).
      { unfold pass_changes, sweep. simpl. by rewrite Hrun. }
      case_bool_decide as Hlt.
      * exists 0, (Some (UpblkCyclicError (loop_message names))).
        split_and!; [lia| |intros j Hj; lia|].
        -- simpl. unfold sweep. rewrite Hrun. simpl. repeat (f_equal; try lia).
        -- right. right. split_and!; [lia|done|done].
      * destruct (IH (n + 1) w1) as (k & e & Hk & Hloop & Hbefore & Hcase); [lia|lia|].
        assert (Hw1 : w1 = sweep M scc w) by (unfold sweep; by rewrite Hrun).
        exists (S k), e. split_and!; [lia| | |].
        -- rewrite Hloop, Hw1. rewrite <- Nat.iter_succ_r. repeat (f_equal; try lia).
        -- intros j Hj. destruct j as [|j]; [done|].
           apply pass_changes_shift. rewrite <- Hw1. apply Hbefore. lia.
        -- destruct Hcase as [[Hs ->]|[(e1 & Hr & ->)|(Hnk & Hc & ->)]].
           ++ left. split; [|done]. apply pass_settles_shift. by rewrite <- Hw1.
           ++ right. left. exists e1. split; [|done]. apply pass_raises_shift. by rewrite <- Hw1.
           ++ right. right. split_and!; [lia| |done].
              apply pass_changes_shift. by rewrite <- Hw1.
Qed.

(** X23: what a super-block does is fixed by the first pass over its
    intra-SCC order that does not end with a changed trigger variable.
    It makes [k + 1] passes for some [k] of at most 100, each of the first
    [k] ending with a changed trigger variable, and then: returns normally
    if pass [k] raises nothing and leaves every trigger variable equal to
    its copy; passes on the exception of a block of pass [k] at once,
    without running the blocks after it; or, only when [k] is 100 and this
    pass too changes a trigger variable, raises [UpblkCyclicError]. *)
Theorem super_block_outcomes (M : Model) (scc : list obj) (variables : list SignalRef)
    (names : string) (w : World M) :
  ∃ k e, k ≤ 100 ∧
    wrapped_SCC M scc variables names w = (Nat.iter (k + 1) (sweep M scc) w, k + 1, e) ∧
    (∀ j, j < k → pass_changes M scc variables w j) ∧
    ((pass_settles M scc variables w k ∧ e = None) ∨
     (∃ e0, pass_raises M scc w k e0 ∧ e = Some e0) ∨
     (k = 100 ∧ pass_changes M scc variables w k ∧
      e = Some (UpblkCyclicError (loop_message names)))).
Proof.
  destruct (loop_outcome M scc variables names 101 0 w) as (k & e & Hk & Hloop & Hb & Hc);
    [lia|lia|].
  exists k, e. split_and!; [lia|exact Hloop|exact Hb|].
  destruct Hc as [?|[?|(? & ? & ?)]]; auto.
Qed.

Lemma run_bind_ext {M A B} (m : Run M A) (f g : A → Run M B) st :
  (∀ a st', f a st' = g a st') → run_bind m f st = run_bind m g st.
Proof. intros H. unfold run_bind. destruct (m st) as [st' [a|e]]; [apply H|done]. Qed.

(** A [while i < bound] loop followed by [f] is the run of the blocks
    from [i] up to [bound], followed by [f bound]. *)
Lemma run_bind_while {M B} snm i bound (f : nat → Run M B) st :
  i ≤ bound → bound ≤ length snm →
  run_bind (run_while_lt M snm i bound) f st =
  run_bind (normal_tick M (take (bound - i) (drop i snm))) (λ _, f bound) st.
Proof.
  intros H1 H2. unfold run_bind at 1. rewrite run_while_lt_blocks by done.
  unfold run_bind, run_ret.
  destruct (normal_tick M (take (bound - i) (drop i snm)) st) as [st1 [[]|e]]; reflexivity.
Qed.

(** X24: a wrapped port that is called again right after it has returned
    (the cursor still at its target index and one past its slot) runs one
    whole cycle before its method body: the rest of the projection from
    its target index on, the increment of [num_cycles_executed], and the
    projection up to its target index; every block of the projection is
    run once.  When the call returns, the cursor is where it was and
    [num_cycles_executed] is one more. *)
Theorem repeated_call_runs_one_cycle (M : Model) (snm : list block) (o : obj) (t p : nat)
    (args : Args M) (st : Sim M) :
  new_schedule_index st = t → orig_schedule_index st = p + 1 → t ≤ length snm →
  call_method M snm (Wrapped (Raw o) t p) args st =
    (let! _ := normal_tick M (drop t snm) in
     let! _ := incr_num_cycles_executed in
     let! _ := normal_tick M (take t snm) in
     let! ret := call_method M snm (Raw o) args in
     let! _ := store_indices t (p + 1) in
     run_ret ret) st ∧
  drop t snm ++ take t snm ≡ₚ snm ∧
  ∀ st' r, call_method M snm (Wrapped (Raw o) t p) args st = (st', Returned r) →
           cursor st' = (t, p + 1, num_cycles_executed st + 1).
Proof.
  intros Hi Hj Ht.
  assert (Heq : call_method M snm (Wrapped (Raw o) t p) args st =
    (let! _ := normal_tick M (drop t snm) in
     let! _ := incr_num_cycles_executed in
     let! _ := normal_tick M (take t snm) in
     let! ret := call_method M snm (Raw o) args in
     let! _ := store_indices t (p + 1) in
     run_ret ret) st).
  { cbn [call_method].
    transitivity
      ((let! _ := run_while_lt M snm (new_schedule_index st) (length snm) in
        let! _ := incr_num_cycles_executed in
        let! i := run_while_lt M snm 0 t in
        let! ret := call_method M snm (Raw o) args in
        let! _ := store_indices i (p + 1) in
        run_ret ret) st).
    { unfold actual_method. rewrite bool_decide_eq_true_2 by lia. unfold run_bind at 1 2 7.
      destruct (run_while_lt M snm (new_schedule_index st) (length snm) st)
        as [st1 [i1|e1]]; reflexivity. }
    rewrite Hi, run_bind_while by lia.
    rewrite take_ge by (rewrite length_drop; lia).
    apply run_bind_ext. intros _ st1. apply run_bind_ext. intros _ st2.
    rewrite run_bind_while by lia. by rewrite Nat.sub_0_r, drop_0. }
  split_and!; [exact Heq| |].
  - rewrite (comm (++)). by rewrite take_drop.
  - intros st' r Hret. rewrite Heq in Hret. clear Heq.
    unfold run_bind in Hret.
    pose proof (normal_tick_cursor M (drop t snm) st) as Hc1.
    destruct (normal_tick M (drop t snm) st) as [st1 [[]|e1]]; [|done].
    unfold incr_num_cycles_executed in Hret. cbn [fst] in Hc1.
    match type of Hret with
    | context [normal_tick M (take t snm) ?s] =>
      pose proof (normal_tick_cursor M (take t snm) s) as Hc2;
      destruct (normal_tick M (take t snm) s) as [st3 [[]|e3]]; [|done]
    end.
    pose proof (call_raw_cursor M snm o args st3) as Hc3.
    destruct (call_method M snm (Raw o) args st3) as [st4 [r4|e4]]; [|done].
    unfold store_indices, run_ret in Hret. inversion Hret; subst st' r.
    cbn [fst] in Hc2, Hc3. unfold cursor in *. simpl in *.
    inversion Hc1. inversion Hc2. inversion Hc3. congruence.
Qed.

Lemma repeated_call_runs_one_cycle_witness :
  let st := @MkSim Examples.log_model [] 2 3 0 in
  let r := call_method Examples.log_model Examples.four_blocks (Wrapped (Raw (Obj 110)) 2 2) tt st in
  world r.1 = [2; 3; 0; 1; 110] ∧
  cursor r.1 = (2, 2 + 1, 0 + 1).
Proof.
  intros st r. split; [vm_compute; reflexivity|].
  destruct (repeated_call_runs_one_cycle Examples.log_model Examples.four_blocks (Obj 110) 2 2
              tt st) as (_ & _ & Hc); [reflexivity|reflexivity|simpl; lia|].
  apply (Hc r.1 tt). vm_compute. reflexivity.
Defined.

(** * The older pass *)

Lemma add_constraint_old_keys (V : list obj) G0 GT0 c :
  (∀ v, is_Some (G0 !! v) ↔ v ∈ V) → (∀ v, is_Some (GT0 !! v) ↔ v ∈ V) →
  (c.1 ∈ V ∧ c.2 ∈ V ∧
   ∃ G1 GT1, add_constraint_old (G0, GT0) c = Ok (G1, GT1) ∧
             (∀ v, is_Some (G1 !! v) ↔ v ∈ V) ∧ (∀ v, is_Some (GT1 !! v) ↔ v ∈ V)) ∨
  ((c.1 ∉ V ∨ c.2 ∉ V) ∧ add_constraint_old (G0, GT0) c = Raise KeyError).
Proof.
  intros HG HGT. destruct c as [u v]. simpl. unfold dict_append, getitem.
  destruct (G0 !! u) as [lu|] eqn:Hu.
  - cbn [mbind result_bind]. destruct (GT0 !! v) as [lv|] eqn:Hv.
    + cbn [mbind result_bind]. left. split_and!; [apply HG; eauto|apply HGT; eauto|].
      eexists _, _. split; [done|]. split; intros w; rewrite lookup_insert_is_Some.
      * rewrite HG. split; [intros [<-|[_ ?]]; [apply HG; eauto|done]|].
        intros Hw. destruct (decide (u = w)); auto.
      * rewrite HGT. split; [intros [<-|[_ ?]]; [apply HGT; eauto|done]|].
        intros Hw. destruct (decide (v = w)); auto.
    + cbn [mbind result_bind]. right. split; [|done]. right. intros Hin.
      apply HGT in Hin as [? Hin]. congruence.
  - cbn [mbind result_bind]. right. split; [|done]. left. intros Hin.
    apply HG in Hin as [? Hin]. congruence.
Qed.

Lemma adjacency_old_loop (V : list obj) (E : list (obj * obj)) : ∀ G0 GT0,
  (∀ v, is_Some (G0 !! v) ↔ v ∈ V) → (∀ v, is_Some (GT0 !! v) ↔ v ∈ V) →
  ((∀ c, c ∈ E → c.1 ∈ V ∧ c.2 ∈ V) ∧
   ∃ s, for_each add_constraint_old E (G0, GT0) = Ok s) ∨
  ((∃ c, c ∈ E ∧ (c.1 ∉ V ∨ c.2 ∉ V)) ∧
   for_each add_constraint_old E (G0, GT0) = Raise KeyError).
Proof.
  induction E as [|c E IH]; intros G0 GT0 HG HGT.
  - left. split; [|by eexists]. intros c Hc. by apply elem_of_nil in Hc.
  - cbn [for_each].
    destruct (add_constraint_old_keys V G0 GT0 c HG HGT)
      as [(H1 & H2 & G1 & GT1 & -> & HG1 & HGT1)|[Hout ->]].
    + cbn [mbind result_bind].
      destruct (IH G1 GT1 HG1 HGT1) as [[Hall Hok]|[(c' & Hc' & Hout) Hr]].
      * left. split; [|done]. intros c' [->|Hc']%elem_of_cons; auto.
      * right. split; [|done]. exists c'. split; [by right|done].
    + right. split; [|done]. exists c. split; [by left|done].
Qed.

(** X25: in the older pass the adjacency lists are filled from every
    constraint without a test that its ends are vertices: the loop of
    lines 80-82 returns exactly when both ends of every constraint are in
    [V], and raises [KeyError] as soon as one is not (for instance a
    constraint on an [update_ff] block, which line 38 removes from [V]). *)
Theorem old_constraints_need_vertices (V : list obj) (E : list (obj * obj)) :
  ((∀ u v, (u, v) ∈ E → u ∈ V ∧ v ∈ V) ↔ ∃ s, adjacency_old V E = Ok s) ∧
  ((∃ u v, (u, v) ∈ E ∧ (u ∉ V ∨ v ∉ V)) ↔ adjacency_old V E = Raise KeyError).
Proof.
  unfold adjacency_old.
  destruct (adjacency_old_loop V E (list_to_map ((λ v, (v, [])) <$> V))
              (list_to_map ((λ v, (v, [])) <$> V)))
    as [[Hall [s Hs]]|[(c & Hc & Hout) Hr]].
  - intros v. rewrite empty_adj_lookup. destruct (decide (v ∈ V)); [by split; eauto|].
    split; [by intros [? ?]|done].
  - intros v. rewrite empty_adj_lookup. destruct (decide (v ∈ V)); [by split; eauto|].
    split; [by intros [? ?]|done].
  - rewrite Hs. split; split.
    + by eauto.
    + intros _ u v Huv. apply (Hall (u, v) Huv).
    + intros (u & v & Huv & Hout). destruct (Hall (u, v) Huv). simpl in *. tauto.
    + done.
  - rewrite Hr. destruct c as [u v]. simpl in Hout. split; split.
    + intros Hall. destruct (Hall u v Hc). tauto.
    + by intros [? ?].
    + done.
    + intros _. by exists u, v.
Qed.

Lemma scan_frontier_old_spec SCCs mgm : ∀ Q before,
  (∀ q, q ∈ Q → is_Some (SCCs !! q)) →
  (scan_frontier_old SCCs mgm before Q = Ok None ∧ ∀ q, q ∈ Q → ¬ plain_scc SCCs mgm q) ∨
  (∃ l1 u l2, Q = l1 ++ u :: l2 ∧
              scan_frontier_old SCCs mgm before Q = Ok (Some (u, before ++ l1 ++ l2)) ∧
              plain_scc SCCs mgm u ∧ ∀ q, q ∈ l1 → ¬ plain_scc SCCs mgm q).
Proof.
  induction Q as [|q Q IH]; intros before Hk.
  - left. split; [done|]. intros q Hq. by apply elem_of_nil in Hq.
  - destruct (Hk q) as [scc Hscc]; [by left|].
    assert (Hrest : ∀ q', q' ∈ Q → is_Some (SCCs !! q')) by (intros q' Hq'; apply Hk; by right).
    assert (Hskip : ¬ plain_scc SCCs mgm q →
      scan_frontier_old SCCs mgm before (q :: Q)
        = scan_frontier_old SCCs mgm (before ++ [q]) Q →
      (scan_frontier_old SCCs mgm before (q :: Q) = Ok None ∧
       ∀ q', q' ∈ q :: Q → ¬ plain_scc SCCs mgm q') ∨
      (∃ l1 u l2, q :: Q = l1 ++ u :: l2 ∧
         scan_frontier_old SCCs mgm before (q :: Q) = Ok (Some (u, before ++ l1 ++ l2)) ∧
         plain_scc SCCs mgm u ∧ ∀ q', q' ∈ l1 → ¬ plain_scc SCCs mgm q')).
    { intros Hnp Heq. rewrite Heq.
      destruct (IH (before ++ [q]) Hrest) as [[Hnone Hall]|(l1 & u & l2 & -> & Hs & Hu & Hl1)].
      - left. split; [done|]. intros q' [->|Hq']%elem_of_cons; auto.
      - right. exists (q :: l1), u, l2. split_and!; [done| |done|].
        + rewrite Hs. by rewrite <- !app_assoc.
        + intros q' [->|Hq']%elem_of_cons; auto. }
    destruct scc as [|v [|v' scc]].
    + apply Hskip; [|by cbn [scan_frontier_old]; rewrite Hscc].
      intros (w & Hw & _). congruence.
    + destruct (decide (mgm !! v = None)) as [Hv|Hv].
      * right. exists [], q, Q. split_and!; [done| |by exists v|].
        -- cbn [scan_frontier_old]. rewrite Hscc. cbn [mbind result_bind].
           by rewrite bool_decide_eq_true_2.
        -- intros q' Hq'. by apply elem_of_nil in Hq'.
      * apply Hskip.
        -- intros (w & Hw & Hwn). congruence.
        -- cbn [scan_frontier_old]. rewrite Hscc. cbn [mbind result_bind].
           by rewrite bool_decide_eq_false_2.
    + apply Hskip; [|by cbn [scan_frontier_old]; rewrite Hscc].
      intros (w & Hw & _). congruence.
Qed.

(** X26: the tie-break of the older pass does what its comment says: when
    the frontier, as the shuffle has left it, holds an SCC of one vertex
    that is not the method of a non-blocking interface, the first such SCC
    is taken and the others keep their order; when it holds none, the last
    SCC of the frontier is taken. *)
Theorem old_frontier_prefers_plain_blocks (SCCs : list (list obj)) (mgm : gmap obj obj)
    (Q : list nat) :
  (∀ q, q ∈ Q → is_Some (SCCs !! q)) → Q ≠ [] →
  (∃ l1 u l2, Q = l1 ++ u :: l2 ∧ pop_old SCCs mgm Q = Ok (u, l1 ++ l2) ∧
              plain_scc SCCs mgm u ∧ ∀ q, q ∈ l1 → ¬ plain_scc SCCs mgm q) ∨
  (∃ l u, Q = l ++ [u] ∧ pop_old SCCs mgm Q = Ok (u, l) ∧
          ∀ q, q ∈ Q → ¬ plain_scc SCCs mgm q).
Proof.
  intros Hk Hne. unfold pop_old.
  destruct (scan_frontier_old_spec SCCs mgm Q [] Hk)
    as [[-> Hall]|(l1 & u & l2 & -> & -> & Hu & Hl1)]; cbn [mbind result_bind].
  - right. destruct Q as [|q Q] using rev_ind; [done|]. clear IHQ.
    exists Q, q. rewrite last_snoc, removelast_last. done.
  - left. by exists l1, u, l2.
Qed.

Lemma old_frontier_prefers_plain_blocks_witness :
  pop_old [[Obj 10]; [Obj 1]; [Obj 2; Obj 3]] (<[Obj 10 := Obj 11]> ∅) [0; 2; 1] = Ok (1, [0; 2]).
Proof.
  destruct (old_frontier_prefers_plain_blocks [[Obj 10]; [Obj 1]; [Obj 2; Obj 3]]
              (<[Obj 10 := Obj 11]> ∅) [0; 2; 1])
    as [(l1 & u & l2 & _ & _ & _)|(l & u & _ & _ & Hnone)].
  - intros q Hq. repeat (apply elem_of_cons in Hq as [->|Hq]; [by eexists|]).
    by apply elem_of_nil in Hq.
  - done.
  - vm_compute. reflexivity.
  - exfalso. apply (Hnone 1); [right; right; by left|]. by exists (Obj 1).
Defined.

Lemma run_bind_ret {M A B} (a : A) (f : A → Run M B) st : run_bind (run_ret a) f st = f a st.
Proof. reflexivity. Qed.

(** X27: the wrapper of the older pass, called while its slot has not been
    passed and the cursor is at or before its target index, runs the
    projected blocks from the cursor up to its target index, then the
    method body, and then, unlike the wrapper of the newer pass, the
    projected blocks up to the next method; it leaves the cursor there,
    or, when that is the end of the projection, advances
    [num_cycles_executed] and resets both indices to 0. *)
Theorem old_wrapper_window (M : Model) (method : Args M → Run M (Ret M))
    (my_idx_new next_idx_new : nat) (snm : list block) (my_idx_orig next_idx_orig : nat)
    (args : Args M) (st : Sim M) :
  orig_schedule_index st ≤ my_idx_orig →
  new_schedule_index st ≤ my_idx_new → my_idx_new ≤ next_idx_new →
  next_idx_new ≤ length snm →
  actual_method_old M method my_idx_new next_idx_new snm my_idx_orig next_idx_orig args st =
  (let! _ := normal_tick M (take (my_idx_new - new_schedule_index st)
                              (drop (new_schedule_index st) snm)) in
   let! ret := method args in
   let! _ := normal_tick M (take (next_idx_new - my_idx_new) (drop my_idx_new snm)) in
   let! _ := (if bool_decide (next_idx_new = length snm)
              then (let! _ := incr_num_cycles_executed in store_indices 0 0)
              else store_indices next_idx_new next_idx_orig) in
   run_ret ret) st.
Proof.
  intros Hj Hi Ht Hn. unfold actual_method_old.
  rewrite bool_decide_eq_false_2 by lia. rewrite run_bind_ret.
  rewrite run_bind_while by lia.
  apply run_bind_ext. intros _ st1. apply run_bind_ext. intros ret st2.
  rewrite run_bind_while by lia.
  apply run_bind_ext. intros _ st3.
  case_bool_decide; reflexivity.
Qed.

Lemma old_wrapper_window_witness :
  let st := @MkSim Examples.log_model [] 0 0 0 in
  let body := call_method Examples.log_model Examples.four_blocks (Raw (Obj 110)) in
  let r := actual_method_old Examples.log_model body 1 4 Examples.four_blocks 1 5 tt st in
  world r.1 = [0; 110; 1; 2; 3] ∧ cursor r.1 = (0, 0, 1).
Proof.
  intros st body r. subst r.
  rewrite (old_wrapper_window Examples.log_model body 1 4 Examples.four_blocks 1 5 tt st);
    [|simpl; lia..].
  vm_compute. done.
Defined.

(** X28: on a schedule without repeated entries, the installation loop
    wraps every callee port of the schedule exactly once, around its raw
    method: the port at original index [p] gets [my_idx_orig = p] and, as
    [my_idx_new], the number of entries before [p] that are not callee
    ports, which is the index in [schedule_no_method] of the first block
    after the port and is in range.  Nothing but entries of the schedule
    is wrapped. *)
Theorem installed_wrappers (lt : bool) (top : Top) (cs : list (obj * obj)) (s : Scheduled) :
  schedule_with_top_level_callee lt top cs = Ok s → NoDup (schedule s) →
  (∀ p o, schedule s !! p = Some (Blk o) → is_CalleePort (attrs top) o = true →
     let t := length (filter (λ x, is_callee (attrs top) x = false) (take p (schedule s))) in
     methods s !! o = Some (Wrapped (Raw (port_method (attrs top) o)) t p) ∧
     t < length (schedule_no_method s) ∧
     schedule_no_method s !! t
       = schedule s !! skip_callees (attrs top) (drop (p + 1) (schedule s)) (p + 1)) ∧
  (∀ o, is_Some (methods s !! o) → Blk o ∈ schedule s).
Proof.
  intros Hpass Hnd.
  destruct (pass_inv _ _ _ _ Hpass) as (InD & sw & _ & _ & _ & _ & _ & _ & _ & Hsnm & Hinst).
  destruct (install_prefix (attrs top) (schedule s) (schedule_no_method s) (schedule s) [])
    with (ms := methods s) as [Hw Hdom]; [by rewrite app_nil_r|done|done|].
  split; [|exact Hdom].
  intros p o Hp Hc t.
  destruct (Hw p o Hp Hc) as (t' & Ht' & Hm).
  rewrite Hsnm in Ht'.
  pose proof Ht' as Hspec.
  apply (target_index_spec (attrs top) (schedule s) p (Blk o)) in Hspec as [-> Hlt];
    [|done..].
  rewrite Hsnm. split_and!; [done|done|].
  unfold target_index in Ht'.
  destruct (schedule s !! skip_callees (attrs top) (drop (p + 1) (schedule s)) (p + 1))
    as [nf|] eqn:Hnf; [|done].
  simpl in Ht'.
  assert (Hin : nf ∈ filter (λ x, is_callee (attrs top) x = false) (schedule s)).
  { destruct (skip_callees_count (attrs top) (drop (p + 1) (schedule s)) (p + 1))
      as (d & Hd & _ & _ & Hl).
    rewrite Hd in Hnf. apply list_elem_of_filter. split.
    - apply Hl. by rewrite lookup_drop.
    - by eapply list_elem_of_lookup_2. }
  apply list_elem_of_lookup in Hin as (k & Hk).
  rewrite (mapping_NoDup _ _ _ (NoDup_filter _ _ Hnd) Hk) in Ht'.
  inversion Ht'; subst k. done.
Qed.

Lemma installed_wrappers_witness :
  let s := Examples.guarded_scheduled in
  schedule s = [Blk (Obj 50); Blk (Obj 11); Blk (Obj 1); Blk (Obj 10); PrintLineTrace] ∧
  methods s !! Obj 10 = Some (Wrapped (Raw (Obj 110)) 2 3) ∧
  schedule_no_method s !! 2 = Some PrintLineTrace.
Proof.
  intros s.
  assert (H : schedule_with_top_level_callee true Examples.guarded [] = Ok s)
    by (vm_compute; reflexivity).
  assert (Hs : schedule s
               = [Blk (Obj 50); Blk (Obj 11); Blk (Obj 1); Blk (Obj 10); PrintLineTrace])
    by (vm_compute; reflexivity).
  assert (Hnd : NoDup (schedule s)).
  { rewrite Hs. repeat (apply NoDup_cons; split; [|]); try apply NoDup_nil_2;
      intros Hin; repeat (apply elem_of_cons in Hin as [Hin|Hin]; [discriminate Hin|]);
      by apply elem_of_nil in Hin. }
  destruct (installed_wrappers true Examples.guarded [] s H Hnd) as [Hw _].
  destruct (Hw 3 (Obj 10)) as (Hm & _ & Ht); [vm_compute; reflexivity|reflexivity|].
  split_and!; [exact Hs|exact Hm|vm_compute; reflexivity].
Defined.

(** * The ways in which the pass fails *)








(** An edge of [G] leads to a vertex listed earlier in the post-order, or
    to a vertex that reaches its source. *)
Lemma good_po_edge G0 PO i j x y :
  good_po G0 PO → PO !! i = Some x → PO !! j = Some y → edge G0 x y → i < j →
  reach G0 y x.
Proof.
  intros Hg Hi Hj Hxy Hij.
  destruct (Hg j y Hj) as (k & Hk & Hr & He).
  assert (Hy : y ∈ drop k (take (S j) PO)).
  { apply list_elem_of_lookup. exists (j - k). rewrite lookup_drop.
    apply lookup_take_Some. split; [|lia]. by replace (k + (j - k)) with j by lia. }
  destruct (decide (i < k)) as [Hlt|Hge].
  - exfalso. apply (He x y); [|done|done].
    apply list_elem_of_lookup. exists i. apply lookup_take_Some. done.
  - apply Hr. apply list_elem_of_lookup. exists (i - k). rewrite lookup_drop.
    apply lookup_take_Some. split; [|lia]. by replace (k + (i - k)) with i by lia.
Qed.

(** X30: the post-order of the first pass of Kosaraju's algorithm lists no
    vertex twice, lists every vertex the traversal was started from and
    every successor of a listed vertex, and lists keys of [G] only; an
    edge of [G] leads to a vertex listed earlier, or else to a vertex from
    which the source of the edge can be reached. *)
Theorem post_order_lists_vertices (G0 : gmap obj (list obj)) (vertices PO : list obj) :
  post_order G0 vertices = Ok PO →
  NoDup PO ∧ (∀ u, u ∈ vertices → u ∈ PO) ∧ (∀ u, u ∈ PO → is_Some (G0 !! u)) ∧
  (∀ x y, x ∈ PO → edge G0 x y → y ∈ PO) ∧
  (∀ i j x y, PO !! i = Some x → PO !! j = Some y → edge G0 x y → i < j → reach G0 y x).
Proof.
  intros H. destruct (post_order_good _ _ _ H) as [Hgood Hclosed].
  destruct (post_order_spec _ _ _ H) as (Hnd & Hall & Hkeys).
  split_and!; [done..|].
  intros i j x y Hi Hj Hxy Hij. by eapply good_po_edge.
Qed.

Lemma post_order_lists_vertices_witness :
  post_order (G guard_cycle_graph) [Obj 10; Obj 1; Obj 11] = Ok [Obj 11; Obj 1; Obj 10] ∧
  NoDup [Obj 11; Obj 1; Obj 10] ∧
  ∀ x y, x ∈ [Obj 11; Obj 1; Obj 10] → edge (G guard_cycle_graph) x y →
         y ∈ [Obj 11; Obj 1; Obj 10].
Proof.
  assert (H : post_order (G guard_cycle_graph) [Obj 10; Obj 1; Obj 11]
              = Ok [Obj 11; Obj 1; Obj 10]) by (vm_compute; reflexivity).
  destruct (post_order_lists_vertices _ _ _ H) as (Hnd & _ & _ & Hcl & _).
  split_and!; [exact H|exact Hnd|exact Hcl].
Defined.
